(** * md-to-html: the text-region substitution pipeline

    A shallow embedding of [converter.ts] (the Shiki variant of
    [MarkdownToHtmlConverter]) and [renderer.ts] ([MermaidRenderer]).

    JavaScript strings are sequences of UTF-16 code units; regular
    expressions are run by a small backtracking matcher that follows the
    ECMAScript matching order (greedy and lazy quantifiers, capture groups,
    the [lastIndex] protocol of a global pattern).  Loops that the source
    writes as [while] are given fuel; file system, external tools and the
    two engines (micromark, Shiki) are parameters. *)

From Stdlib Require Import Strings.String Strings.Ascii.
From Stdlib Require Import Numbers.DecimalString DecimalNat DecimalFacts.
From Stdlib Require Import List NArith ZArith Lia Bool Arith.
From Stdlib Require Import Sorting.Permutation Sorting.Sorted.
Import ListNotations.

Set Implicit Arguments.

(** ** JavaScript strings *)

Definition codeunit := N.
Definition jsstring := list codeunit.

(** An ASCII literal as a JavaScript string. *)
Definition js (s : string) : jsstring :=
  List.map N_of_ascii (list_ascii_of_string s).

Definition dquote : jsstring := [34%N].
Definition newline : jsstring := [10%N].

Definition jsstring_eqb (a b : jsstring) : bool :=
  if list_eq_dec N.eq_dec a b then true else false.

(** [WhiteSpace] and [LineTerminator] code units: the class [\s] of a
    pattern without the [u] flag, and what [String.prototype.trim] strips. *)
Definition is_space (c : codeunit) : bool :=
  (((9 <=? c) && (c <=? 13)) || (c =? 32) || (c =? 160) || (c =? 5760)
   || ((8192 <=? c) && (c <=? 8202)) || (c =? 8232) || (c =? 8233)
   || (c =? 8239) || (c =? 8287) || (c =? 12288) || (c =? 65279))%N.

(** [\w]: ASCII letters, digits and the underscore. *)
Definition is_word (c : codeunit) : bool :=
  (((48 <=? c) && (c <=? 57)) || ((65 <=? c) && (c <=? 90))
   || ((97 <=? c) && (c <=? 122)) || (c =? 95))%N.

Definition any_unit (_ : codeunit) : bool := true.

Fixpoint drop_while (p : codeunit -> bool) (s : jsstring) : jsstring :=
  match s with
  | c :: s' => if p c then drop_while p s' else s
  | [] => []
  end.

(** [String.prototype.trim]. *)
Definition trim (s : jsstring) : jsstring :=
  rev (drop_while is_space (rev (drop_while is_space s))).

(** [`${n}`] for a non-negative integer [n]. *)
Definition decimal (n : nat) : jsstring :=
  js (NilZero.string_of_uint (Nat.to_uint n)).

(** [s.slice(a, b)] and [s.slice(a)] for in-range non-negative arguments;
    out of range they clamp, as [firstn] and [skipn] do. *)
Definition slice (s : jsstring) (a b : nat) : jsstring :=
  firstn (b - a) (skipn a s).
Definition slice_from (s : jsstring) (a : nat) : jsstring := skipn a s.

(** If [l] is a prefix of [s], what follows it. *)
Fixpoint strip_prefix (l s : jsstring) : option jsstring :=
  match l, s with
  | [], _ => Some s
  | a :: l', b :: s' => if N.eqb a b then strip_prefix l' s' else None
  | _ :: _, [] => None
  end.

(** ** Regular expressions *)

Module RegExp.

(** The fragment of the pattern language the converter uses.
    Quantifiers range over a single character class, which is how every
    pattern of the source uses them. *)
Inductive regex : Type :=
| Lit (l : jsstring)                               (* literal text *)
| Class (p : codeunit -> bool)                     (* one unit of a class *)
| Star (greedy : bool) (p : codeunit -> bool)      (* [p*] and [p*?] *)
| Group (r : regex)                                (* capturing group *)
| Cat (r1 r2 : regex)
| EndOfInput.                                      (* [$], no [m] flag *)

(** [p+], greedy. *)
Definition Plus (p : codeunit -> bool) : regex := Cat (Class p) (Star true p).

(** A match as [exec] reports it: [index], the matched text [m[0]] and
    the captures [m[1]], [m[2]], ... *)
Record rmatch : Type := MkMatch {
  index : nat;
  matched : jsstring;
  groups : list jsstring
}.

(** [m[n]] for [n >= 1]. *)
Definition group (n : nat) (m : rmatch) : jsstring :=
  nth (n - 1) (groups m) [].

(** [index + m[0].length] *)
Definition match_end (m : rmatch) : nat := index m + length (matched m).

Section Matcher.
Variable A : Type.

(** Continuations get the position reached, the text still ahead and
    the captures made so far. *)
Definition cont := nat -> jsstring -> list jsstring -> option A.

(** Greedy: take one more unit first, fall back to stopping here. *)
Fixpoint star_greedy (p : codeunit -> bool) (pos : nat) (s : jsstring)
         (caps : list jsstring) (k : cont) : option A :=
  match s with
  | c :: s' =>
      if p c then
        match star_greedy p (S pos) s' caps k with
        | Some r => Some r
        | None => k pos s caps
        end
      else k pos s caps
  | [] => k pos s caps
  end.

(** Lazy: stop here first, fall back to taking one more unit. *)
Fixpoint star_lazy (p : codeunit -> bool) (pos : nat) (s : jsstring)
         (caps : list jsstring) (k : cont) : option A :=
  match k pos s caps with
  | Some r => Some r
  | None =>
      match s with
      | c :: s' => if p c then star_lazy p (S pos) s' caps k else None
      | [] => None
      end
  end.

Fixpoint run (r : regex) (pos : nat) (s : jsstring)
         (caps : list jsstring) (k : cont) : option A :=
  match r with
  | Lit l =>
      match strip_prefix l s with
      | Some s' => k (pos + length l) s' caps
      | None => None
      end
  | Class p =>
      match s with
      | c :: s' => if p c then k (S pos) s' caps else None
      | [] => None
      end
  | Star true p => star_greedy p pos s caps k
  | Star false p => star_lazy p pos s caps k
  | Group r1 =>
      run r1 pos s caps
          (fun pos' s' caps' => k pos' s' (caps' ++ [firstn (pos' - pos) s]))
  | Cat r1 r2 =>
      run r1 pos s caps (fun pos' s' caps' => run r2 pos' s' caps' k)
  | EndOfInput =>
      match s with
      | [] => k pos s caps
      | _ :: _ => None
      end
  end.
End Matcher.

(** Try the pattern at position [pos], where [s] is the text from there. *)
Definition match_here (r : regex) (pos : nat) (s : jsstring) : option rmatch :=
  run r pos s []
      (fun pos' _ caps => Some (MkMatch pos (firstn (pos' - pos) s) caps)).

(** Leftmost match at or after [pos]. *)
Fixpoint search (r : regex) (pos : nat) (s : jsstring) : option rmatch :=
  match match_here r pos s with
  | Some m => Some m
  | None =>
      match s with
      | _ :: s' => search r (S pos) s'
      | [] => None
      end
  end.

(** [pattern.exec(text)] for a pattern with the [g] flag whose
    [lastIndex] is [lastIndex]: the match, if any, and the new
    [lastIndex]. *)
Definition exec (r : regex) (text : jsstring) (lastIndex : nat)
  : option rmatch * nat :=
  if length text <? lastIndex then (None, 0)
  else
    match search r lastIndex (skipn lastIndex text) with
    | Some m => (Some m, match_end m)
    | None => (None, 0)
    end.

End RegExp.
Import RegExp.

(** ** Diagram extraction ([extractMermaidDiagrams]) *)

Record DiagramInfo : Type := MkDiagram {
  diagramId : jsstring;
  mermaidCode : jsstring;
  startPos : nat;
  endPos : nat
}.

Definition fence_open : jsstring := js "```mermaid".
Definition fence_close : jsstring := js "```".

(** [/```mermaid\s*\n([\s\S]*?)```/g] *)
Definition mermaidPattern : regex :=
  Cat (Lit fence_open)
      (Cat (Star true is_space)
           (Cat (Class (N.eqb 10))
                (Cat (Group (Star false any_unit)) (Lit fence_close)))).

Definition is_empty (s : jsstring) : bool :=
  match s with [] => true | _ :: _ => false end.

(** The [while (match !== null)] loop.  [lastIndex] is the state of the
    pattern object, [mt] the variable [match].  The branch on
    [match.index === undefined] is dead for a result of [exec] and is left
    out.  On an empty trimmed body the source executes [continue] without
    calling [exec] again: the next iteration sees the same [match]. *)
Fixpoint extract_loop (fuel : nat) (markdownContent : jsstring)
         (lastIndex : nat) (mt : option rmatch) (diagrams : list DiagramInfo)
  : option (list DiagramInfo) :=
  match fuel with
  | O => None
  | S fuel' =>
      match mt with
      | None => Some diagrams
      | Some m =>
          let code := trim (group 1 m) in
          if is_empty code then
            extract_loop fuel' markdownContent lastIndex mt diagrams
          else
            let id := js "diagram_" ++ decimal (length diagrams) in
            let diagrams' :=
              diagrams ++ [MkDiagram id code (index m) (index m + length (matched m))] in
            let '(mt', lastIndex') := exec mermaidPattern markdownContent lastIndex in
            extract_loop fuel' markdownContent lastIndex' mt' diagrams'
      end
  end.

(** [None] is "still running when the fuel ran out". *)
Definition extractMermaidDiagrams (fuel : nat) (markdownContent : jsstring)
  : option (list DiagramInfo) :=
  let '(mt, lastIndex) := exec mermaidPattern markdownContent 0 in
  extract_loop fuel markdownContent lastIndex mt [].

(** ** [String.prototype.replace] *)

(** [text.indexOf(p)] *)
Fixpoint index_of_from (p : jsstring) (pos : nat) (s : jsstring) : option nat :=
  match strip_prefix p s with
  | Some _ => Some pos
  | None =>
      match s with
      | _ :: s' => index_of_from p (S pos) s'
      | [] => None
      end
  end.

Definition index_of (p text : jsstring) : option nat := index_of_from p 0 text.

Definition dollar : codeunit := 36%N.

(** [GetSubstitution] for a match without capture groups (every use of
    [replace] in the converter): [$$] is a dollar sign, [$&] the matched
    text, [$`] the text before the match and [$'] the text after it; a
    dollar sign followed by anything else stands for itself. *)
Fixpoint get_substitution (matched before after : jsstring)
         (replacement : jsstring) : jsstring :=
  match replacement with
  | [] => []
  | c :: rest =>
      if N.eqb c dollar then
        match rest with
        | d :: rest' =>
            if N.eqb d dollar then
              dollar :: get_substitution matched before after rest'
            else if N.eqb d 38 then
              matched ++ get_substitution matched before after rest'
            else if N.eqb d 96 then
              before ++ get_substitution matched before after rest'
            else if N.eqb d 39 then
              after ++ get_substitution matched before after rest'
            else c :: get_substitution matched before after rest
        | [] => [c]
        end
      else c :: get_substitution matched before after rest
  end.

(** [text.replace(pattern, replacement)] with a string [pattern]: the first
    occurrence only. *)
Definition replace_first (text pattern replacement : jsstring) : jsstring :=
  match index_of pattern text with
  | Some i =>
      let before := firstn i text in
      let after := skipn (i + length pattern) text in
      before ++ get_substitution pattern before after replacement ++ after
  | None => text
  end.

(** [text.replace(r, replacement)] with a regular expression: every match
    when [global], the first otherwise.  [skip] counts the units of the
    current match still to be dropped, [done] says that a non-global
    replace has made its replacement. *)
Fixpoint replace_regex_from (global : bool) (r : regex) (text replacement : jsstring)
         (pos : nat) (s : jsstring) (skip : nat) (done : bool) : jsstring :=
  match s with
  | [] =>
      if done then []
      else
        match match_here r pos [] with
        | Some m => get_substitution (matched m) text [] replacement
        | None => []
        end
  | c :: s' =>
      match skip with
      | S k => replace_regex_from global r text replacement (S pos) s' k done
      | O =>
          if done then c :: replace_regex_from global r text replacement (S pos) s' 0 done
          else
            match match_here r pos s with
            | Some m =>
                let out :=
                  get_substitution (matched m) (firstn pos text)
                                   (skipn (match_end m) text) replacement in
                match length (matched m) with
                | O => out ++ c :: replace_regex_from global r text replacement
                                     (S pos) s' 0 (negb global)
                | S k => out ++ replace_regex_from global r text replacement
                                     (S pos) s' k (negb global)
                end
            | None => c :: replace_regex_from global r text replacement (S pos) s' 0 done
            end
      end
  end.

Definition replace_regex (global : bool) (r : regex) (text replacement : jsstring)
  : jsstring :=
  replace_regex_from global r text replacement 0 text 0 false.

(** ** HTML entities *)

(** [decodeHtmlEntities]: five global replacements, in the order of the
    source. *)
Definition decodeHtmlEntities (encoded : jsstring) : jsstring :=
  let s1 := replace_regex true (Lit (js "&lt;")) encoded (js "<") in
  let s2 := replace_regex true (Lit (js "&gt;")) s1 (js ">") in
  let s3 := replace_regex true (Lit (js "&amp;")) s2 (js "&") in
  let s4 := replace_regex true (Lit (js "&quot;")) s3 dquote in
  replace_regex true (Lit (js "&#39;")) s4 (js "'").

(** Modelled from the spec: the encoder is not part of the repository (it
    is the markdown engine's); this is "the standard HTML escaping of those
    five characters (& escaped first)". *)
Definition encodeHtmlEntities (s : jsstring) : jsstring :=
  let s1 := replace_regex true (Lit (js "&")) s (js "&amp;") in
  let s2 := replace_regex true (Lit (js "<")) s1 (js "&lt;") in
  let s3 := replace_regex true (Lit (js ">")) s2 (js "&gt;") in
  let s4 := replace_regex true (Lit dquote) s3 (js "&quot;") in
  replace_regex true (Lit (js "'")) s4 (js "&#39;").

(** [String.prototype.toLowerCase], exact on the ASCII range, which is all
    that the class [[\w-]] of a language tag admits. *)
Definition toLowerCase (s : jsstring) : jsstring :=
  List.map (fun c => if ((65 <=? c) && (c <=? 90))%N then (c + 32)%N else c) s.

Definition normalizeLanguage (lang : jsstring) : jsstring := toLowerCase lang.

(** ** Effects: exceptions, the world outside, the instance state *)

(** What a rejected promise or a [throw] carries. *)
Inductive exn : Type :=
| IOError (operation path : jsstring)          (* a rejected [node:fs] call *)
| ExecError (code message : jsstring)          (* a failed [execFile], with its [code] *)
| Error (message : jsstring).                  (* [new Error(message)] *)

Inductive outcome (A : Type) : Type :=
| Returned (a : A)
| Thrown (e : exn)
| OutOfFuel.
Arguments Thrown {A} e.
Arguments OutOfFuel {A}.

Inductive level : Type := LDebug | LInfo | LWarn | LError.

(** What the program does to the world, in order. *)
Inductive event : Type :=
| EvMkdtemp (prefix : jsstring)
| EvWriteFile (path content : jsstring)
| EvReadFile (path : jsstring)
| EvExecFile (file : jsstring) (args : list jsstring)
| EvRm (path : jsstring)
| EvLog (l : level) (message : jsstring).

Definition is_log (e : event) : bool :=
  match e with EvLog _ _ => true | _ => false end.

(** [highlighter.codeToHtml(code, { lang, theme })] with the fixed theme;
    [None] is a thrown error (an unknown language, for one). *)
Definition Highlighter := jsstring -> jsstring -> option jsstring.

(** How the external tool ends: normally, or with an error object that has
    a [code] and a [message]. *)
Inductive tool_result : Type :=
| ToolExited
| ToolFailed (code message : jsstring).

(** The collaborators: file system, Mermaid CLI, micromark, Shiki. *)
Record World : Type := MkWorld {
  tmpdir : jsstring;
  mmdcPath : jsstring;
  (* the six random characters [mkdtemp] appends, or a failure *)
  mkdtemp : jsstring -> option jsstring;
  writeFile : jsstring -> jsstring -> bool;
  readFile : jsstring -> option jsstring;
  execFile : jsstring -> list jsstring -> tool_result;
  existsSync : jsstring -> bool;
  rm : jsstring -> bool;
  micromark : jsstring -> jsstring;
  createHighlighter : Highlighter + jsstring
}.

(** The fields [tempDir] of the renderer and [shikiHighlighter] of the
    converter, and the events so far. *)
Record State : Type := MkState {
  tempDir : option jsstring;
  shikiHighlighter : option Highlighter;
  trace : list event
}.

Definition initial_state : State := MkState None None [].

Definition M (A : Type) : Type := State -> outcome A * State.

Definition ret {A} (a : A) : M A := fun st => (Returned a, st).

Definition bind {A B} (c : M A) (k : A -> M B) : M B :=
  fun st =>
    match c st with
    | (Returned a, st') => k a st'
    | (Thrown e, st') => (Thrown e, st')
    | (OutOfFuel, st') => (OutOfFuel, st')
    end.

Declare Scope monad_scope.
Delimit Scope monad_scope with monad.
Notation "x <- c ;; k" := (bind c (fun x => k))
  (at level 61, c at next level, right associativity) : monad_scope.
Notation "c ;; k" := (bind c (fun _ => k))
  (at level 61, right associativity) : monad_scope.
Open Scope monad_scope.

Definition throw {A} (e : exn) : M A := fun st => (Thrown e, st).
Definition out_of_fuel {A} : M A := fun st => (OutOfFuel, st).

(** [try { c } catch (error) { h error }] *)
Definition try_catch {A} (c : M A) (h : exn -> M A) : M A :=
  fun st =>
    match c st with
    | (Thrown e, st') => h e st'
    | other => other
    end.

Definition emit (e : event) : M unit :=
  fun st => (Returned tt, MkState (tempDir st) (shikiHighlighter st) (trace st ++ [e])).

Definition log (l : level) (message : string) : M unit := emit (EvLog l (js message)).

Definition get_tempDir : M (option jsstring) := fun st => (Returned (tempDir st), st).
Definition set_tempDir (d : option jsstring) : M unit :=
  fun st => (Returned tt, MkState d (shikiHighlighter st) (trace st)).
Definition get_shikiHighlighter : M (option Highlighter) :=
  fun st => (Returned (shikiHighlighter st), st).
Definition set_shikiHighlighter (h : option Highlighter) : M unit :=
  fun st => (Returned tt, MkState (tempDir st) h (trace st)).

(** A string is truthy when it is not empty; [null] is falsy. *)
Definition truthy (s : option jsstring) : bool :=
  match s with
  | Some (_ :: _) => true
  | _ => false
  end.

(** [path.join(a, b)], up to the normalisation of dots and slashes. *)
Definition join (a b : jsstring) : jsstring := a ++ js "/" ++ b.

(** ** The renderer ([MermaidRenderer]) *)

Section Renderer.
Variable w : World.

Definition MERMAID_RENDER_TIMEOUT_MS : N := 30000%N.

(** [await mkdtemp(prefix)] *)
Definition do_mkdtemp (prefix : jsstring) : M jsstring :=
  emit (EvMkdtemp prefix) ;;
  match mkdtemp w prefix with
  | Some random => ret (prefix ++ random)
  | None => throw (IOError (js "mkdtemp") prefix)
  end.

(** [await writeFile(path, content, "utf-8")] *)
Definition do_writeFile (path content : jsstring) : M unit :=
  emit (EvWriteFile path content) ;;
  if writeFile w path content then ret tt
  else throw (IOError (js "writeFile") path).

(** [await readFile(path, "utf-8")] *)
Definition do_readFile (path : jsstring) : M jsstring :=
  emit (EvReadFile path) ;;
  match readFile w path with
  | Some content => ret content
  | None => throw (IOError (js "readFile") path)
  end.

(** [await execFileAsync(file, args, { timeout, cwd })] *)
Definition do_execFile (file : jsstring) (args : list jsstring) : M unit :=
  emit (EvExecFile file args) ;;
  match execFile w file args with
  | ToolExited => ret tt
  | ToolFailed code message => throw (ExecError code message)
  end.

(** [await rm(path, { recursive: true, force: true })] *)
Definition do_rm (path : jsstring) : M unit :=
  emit (EvRm path) ;;
  if rm w path then ret tt else throw (IOError (js "rm") path).

(** The result is the path of the SVG file, or [None] for [null]. *)
Definition renderMermaidToSvg (mermaidCode diagramId : jsstring)
  : M (option jsstring) :=
  t <- get_tempDir ;;
  dir <- (if truthy t then ret (match t with Some d => d | None => [] end)
          else
            d <- do_mkdtemp (join (tmpdir w) (js "md-to-html-")) ;;
            set_tempDir (Some d) ;;
            ret d) ;;
  let mermaidFile := join dir (diagramId ++ js ".mmd") in
  let outputFile := join dir (diagramId ++ js ".svg") in
  do_writeFile mermaidFile mermaidCode ;;
  try_catch
    (do_execFile (mmdcPath w)
                 [js "-i"; mermaidFile; js "-o"; outputFile;
                  js "-e"; js "svg"; js "-b"; js "transparent"] ;;
     if existsSync w outputFile then ret (Some outputFile) else ret None)
    (fun error =>
       match error with
       | ExecError code _ =>
           if jsstring_eqb code (js "ETIMEDOUT") then
             log LWarn "Mermaid CLI timeout while rendering diagram"
           else log LError "Mermaid CLI error while rendering diagram"
       | _ => log LError "Mermaid CLI error while rendering diagram"
       end ;;
       ret None).

Definition cleanup : M unit :=
  t <- get_tempDir ;;
  if truthy t then
    let d := match t with Some d => d | None => [] end in
    try_catch
      (do_rm d ;;
       log LDebug "Cleaned up temporary directory")
      (fun _ => log LWarn "Failed to clean up temporary directory") ;;
    set_tempDir None
  else ret tt.

End Renderer.

(** ** Insertion-ordered maps ([Map]) *)

(** [m.set(k, v)]: a new key goes last, a known key keeps its place. *)
Fixpoint map_set {K V : Type} (eqb : K -> K -> bool) (k : K) (v : V)
         (m : list (K * V)) : list (K * V) :=
  match m with
  | [] => [(k, v)]
  | (k', v') :: m' =>
      if eqb k' k then (k, v) :: m' else (k', v') :: map_set eqb k v m'
  end.

(** ** The highlighter sub-stage ([highlightCodeBlocks]) *)

Record HighlightResult : Type := MkHighlightResult {
  html : jsstring;
  styles : jsstring
}.

Record CodeBlockInfo : Type := MkCodeBlock {
  fullMatch : jsstring;
  language : jsstring;
  code : jsstring;
  placeholder : jsstring
}.

Definition is_tag_unit (c : codeunit) : bool := is_word c || N.eqb c 45.
Definition not_gt (c : codeunit) : bool := negb (N.eqb c 62).

(** [/<pre><code\s+class="language-([\w-]+)"[^>]*>([\s\S]*?)<\/code><\/pre>/g] *)
Definition codeBlockPattern : regex :=
  Cat (Lit (js "<pre><code"))
  (Cat (Plus is_space)
  (Cat (Lit (js "class=" ++ dquote ++ js "language-"))
  (Cat (Group (Plus is_tag_unit))
  (Cat (Lit dquote)
  (Cat (Star true not_gt)
  (Cat (Class (N.eqb 62))
  (Cat (Group (Star false any_unit))
       (Lit (js "</code></pre>"))))))))).

(** The first [while] loop: one record per match. *)
Fixpoint collect_loop (fuel : nat) (text : jsstring) (lastIndex : nat)
         (mt : option rmatch) (codeBlocks : list CodeBlockInfo)
         (placeholderIndex : nat) : option (list CodeBlockInfo) :=
  match fuel with
  | O => None
  | S fuel' =>
      match mt with
      | None => Some codeBlocks
      | Some m =>
          let lang := group 1 m in
          let encodedCode := group 2 m in
          let code := decodeHtmlEntities encodedCode in
          let placeholder := js "CODE_BLOCK_PLACEHOLDER_" ++ decimal placeholderIndex in
          let codeBlocks' := codeBlocks ++ [MkCodeBlock (matched m) lang code placeholder] in
          let '(mt', lastIndex') := exec codeBlockPattern text lastIndex in
          collect_loop fuel' text lastIndex' mt' codeBlocks' (S placeholderIndex)
      end
  end.

Definition collect_code_blocks (fuel : nat) (text : jsstring)
  : option (list CodeBlockInfo) :=
  let '(mt, lastIndex) := exec codeBlockPattern text 0 in
  collect_loop fuel text lastIndex mt [] 0.

Section Converter.
Variable w : World.

(** [getShikiHighlighter]: created on first need, kept afterwards. *)
Definition getShikiHighlighter : M Highlighter :=
  h <- get_shikiHighlighter ;;
  match h with
  | Some hl => ret hl
  | None =>
      log LDebug "Initializing Shiki highlighter" ;;
      match createHighlighter w with
      | inl hl =>
          set_shikiHighlighter (Some hl) ;;
          log LDebug "Shiki highlighter initialized successfully" ;;
          ret hl
      | inr errorMessage =>
          log LError "Failed to initialize Shiki highlighter" ;;
          throw (Error (js "Failed to initialize Shiki highlighter: " ++ errorMessage))
      end
  end.

(** The [for] loop that fills [highlightedBlocks]; the counters only
    feed the log and are left out. *)
Fixpoint highlight_each (highlighter : Highlighter) (all rest : list CodeBlockInfo)
         (highlightedBlocks : list (jsstring * jsstring))
  : M (list (jsstring * jsstring)) :=
  match rest with
  | [] => ret highlightedBlocks
  | cb :: rest' =>
      match highlighter (code cb) (normalizeLanguage (language cb)) with
      | Some highlighted =>
          highlight_each highlighter all rest'
            (map_set jsstring_eqb (placeholder cb) highlighted highlightedBlocks)
      | None =>
          log LWarn "Failed to highlight code block, using plain code" ;;
          let originalBlock :=
            find (fun c => jsstring_eqb (placeholder c) (placeholder cb)) all in
          let fallback :=
            match originalBlock with Some c => fullMatch c | None => [] end in
          highlight_each highlighter all rest'
            (map_set jsstring_eqb (placeholder cb) fallback highlightedBlocks)
      end
  end.

Definition highlightCodeBlocks (fuel : nat) (text : jsstring) : M HighlightResult :=
  match collect_code_blocks fuel text with
  | None => out_of_fuel
  | Some codeBlocks =>
      if length codeBlocks =? 0 then ret (MkHighlightResult text [])
      else
        highlighter <- getShikiHighlighter ;;
        highlightedBlocks <- highlight_each highlighter codeBlocks codeBlocks [] ;;
        log LDebug "Code block highlighting completed" ;;
        let highlightedHtml :=
          fold_left (fun acc cb => replace_first acc (fullMatch cb) (placeholder cb))
                    codeBlocks text in
        let shikiStyles : jsstring := [] in
        let highlightedHtml' :=
          fold_left (fun acc kv => replace_first acc (fst kv) (snd kv))
                    highlightedBlocks highlightedHtml in
        ret (MkHighlightResult highlightedHtml' shikiStyles)
  end.

End Converter.

(** ** The document assembler ([convertMarkdownToHtml]) *)

Definition HTML_MAX_WIDTH : jsstring := js "800px".

(** The lines of a template literal, joined by line feeds. *)
Fixpoint unlines (l : list jsstring) : jsstring :=
  match l with
  | [] => []
  | [x] => x
  | x :: l' => x ++ newline ++ unlines l'
  end.

(** [wrapInHtmlDocument], line by line. *)
Definition wrapInHtmlDocument (content shikiStyles : jsstring) : jsstring :=
  unlines
    [js "<!DOCTYPE html>";
     js "<html lang=" ++ dquote ++ js "en" ++ dquote ++ js ">";
     js "<head>";
     js "    <meta charset=" ++ dquote ++ js "UTF-8" ++ dquote ++ js ">";
     js "    <meta name=" ++ dquote ++ js "viewport" ++ dquote ++ js " content=" ++ dquote ++ js "width=device-width, initial-scale=1.0" ++ dquote ++ js ">";
     js "    <title>Converted Markdown</title>";
     js "    <style>";
     js "        body {";
     js "            font-family: -apple-system, BlinkMacSystemFont, 'Segoe UI', Arial, sans-serif;";
     js "            max-width: " ++ HTML_MAX_WIDTH ++ js ";";
     js "            margin: 0 auto;";
     js "            padding: 20px;";
     js "            line-height: 1.6;";
     js "            color: #24292e;";
     js "            background-color: #ffffff;";
     js "        }";
     js "        h1, h2, h3, h4, h5, h6 {";
     js "            margin-top: 1.5em;";
     js "            margin-bottom: 0.5em;";
     js "            font-weight: 600;";
     js "            line-height: 1.25;";
     js "        }";
     js "        h1 {";
     js "            font-size: 2em;";
     js "            border-bottom: 1px solid #eaecef;";
     js "            padding-bottom: 0.3em;";
     js "        }";
     js "        h2 {";
     js "            font-size: 1.5em;";
     js "            border-bottom: 1px solid #eaecef;";
     js "            padding-bottom: 0.3em;";
     js "        }";
     js "        code:not(pre code) {";
     js "            background-color: #f4f4f4;";
     js "            padding: 2px 6px;";
     js "            border-radius: 3px;";
     js "            font-family: 'SFMono-Regular', Consolas, 'Liberation Mono', Menlo, monospace;";
     js "            font-size: 0.9em;";
     js "        }";
     js "        pre.shiki {";
     js "            padding: 16px;";
     js "            border-radius: 6px;";
     js "            overflow-x: auto;";
     js "            line-height: 1.45;";
     js "        }";
     js "        pre.shiki code {";
     js "            background-color: transparent;";
     js "            padding: 0;";
     js "            font-size: 0.9em;";
     js "        }";
     js "        table {";
     js "            border-collapse: collapse;";
     js "            width: 100%;";
     js "            margin: 1em 0;";
     js "        }";
     js "        th, td {";
     js "            border: 1px solid #dfe2e5;";
     js "            padding: 8px 13px;";
     js "            text-align: left;";
     js "        }";
     js "        th {";
     js "            background-color: #f6f8fa;";
     js "            font-weight: 600;";
     js "        }";
     js "        tr:nth-child(2n) {";
     js "            background-color: #f6f8fa;";
     js "        }";
     js "        svg {";
     js "            max-width: 100%;";
     js "            height: auto;";
     js "            margin: 1em 0;";
     js "            display: block;";
     js "        }";
     js "        " ++ shikiStyles;
     js "    </style>";
     js "</head>";
     js "<body>";
     content;
     js "</body>";
     js "</html>"].

(** [MermaidReplacement]; [stop] is the field [end]. *)
Module Replacement.
Record t : Type := Make {
  start : nat;
  stop : nat;
  placeholder : jsstring
}.
End Replacement.

(** An entry of [imageReplacements]: the key [startPos] and the value
    [{ diagramId, imagePath }].  A [Map] is the list of its entries in
    insertion order, which is the order of iteration.  A key that is not a
    non-negative integer equals no [match.index] and behaves like a key
    without a fence. *)
Definition ImageReplacements := list (nat * (jsstring * jsstring)).

(** [/```mermaid\s*\n[\s\S]*?```/g] *)
Definition fencePattern : regex :=
  Cat (Lit fence_open)
      (Cat (Star true is_space)
           (Cat (Class (N.eqb 10))
                (Cat (Star false any_unit) (Lit fence_close)))).

Definition RENDERING_FAILED : jsstring :=
  js "<p><em>[Mermaid diagram - rendering failed]</em></p>".
Definition READ_FAILED : jsstring :=
  js "<p><em>[Mermaid diagram - failed to read SVG]</em></p>".

(** The inner [while] loop up to its [break]: the match whose index is
    [startPos], if the scan meets one. *)
Fixpoint find_fence (fuel : nat) (markdownContent : jsstring) (startPos : nat)
         (lastIndex : nat) (mt : option rmatch) : option (option rmatch) :=
  match fuel with
  | O => None
  | S fuel' =>
      match mt with
      | None => Some None
      | Some m =>
          if index m =? startPos then Some (Some m)
          else
            let '(mt', lastIndex') := exec fencePattern markdownContent lastIndex in
            find_fence fuel' markdownContent startPos lastIndex' mt'
      end
  end.

(** [replacements.sort((a, b) => b.start - a.start)]: a stable sort,
    larger [start] first. *)
Fixpoint insert_desc (x : Replacement.t) (l : list Replacement.t) : list Replacement.t :=
  match l with
  | [] => [x]
  | y :: l' =>
      if Replacement.start x <? Replacement.start y then y :: insert_desc x l'
      else x :: l
  end.

Definition sort_desc (l : list Replacement.t) : list Replacement.t :=
  fold_right insert_desc [] l.

(** One splice: [text.slice(0, start) + placeholder + text.slice(end)]. *)
Definition splice (text : jsstring) (r : Replacement.t) : jsstring :=
  slice text 0 (Replacement.start r) ++ Replacement.placeholder r
        ++ slice_from text (Replacement.stop r).

(** [/\.md$/i] *)
Definition mdExtension : regex :=
  Cat (Class (N.eqb 46))
      (Cat (Class (fun c => N.eqb c 109 || N.eqb c 77))
           (Cat (Class (fun c => N.eqb c 100 || N.eqb c 68)) EndOfInput)).

Section Assembler.
Variable w : World.

(** The body of the [for] loop over the entries of [imageReplacements]. *)
Definition replace_entry (fuel : nat) (markdownContent : jsstring)
           (entry : nat * (jsstring * jsstring))
           (acc : list (jsstring * jsstring) * list Replacement.t)
  : M (list (jsstring * jsstring) * list Replacement.t) :=
  let '(startPos, (diagramId, imagePath)) := entry in
  let '(placeholders, replacements) := acc in
  let '(mt, lastIndex) := exec fencePattern markdownContent 0 in
  match find_fence fuel markdownContent startPos lastIndex mt with
  | None => out_of_fuel
  | Some None => ret acc
  | Some (Some m) =>
      let placeholder := js "MERMAID_PLACEHOLDER_" ++ diagramId in
      svgHtml <-
        (if truthy (Some imagePath) then
           try_catch
             (svgContent <- do_readFile w imagePath ;;
              ret (js "<div style=" ++ dquote ++ js "max-width: 100%; margin: 1em 0;"
                      ++ dquote ++ js ">" ++ svgContent ++ js "</div>"))
             (fun _ =>
                log LWarn "Failed to read SVG file" ;;
                ret READ_FAILED)
         else ret RENDERING_FAILED) ;;
      ret (map_set jsstring_eqb placeholder svgHtml placeholders,
           replacements ++
             [Replacement.Make (index m) (index m + length (matched m)) placeholder])
  end.

Fixpoint replace_entries (fuel : nat) (markdownContent : jsstring)
         (entries : ImageReplacements)
         (acc : list (jsstring * jsstring) * list Replacement.t)
  : M (list (jsstring * jsstring) * list Replacement.t) :=
  match entries with
  | [] => ret acc
  | entry :: rest =>
      acc' <- replace_entry fuel markdownContent entry acc ;;
      replace_entries fuel markdownContent rest acc'
  end.

(** The text handed to the markdown engine. *)
Definition apply_replacements (markdownContent : jsstring)
           (replacements : list Replacement.t) : jsstring :=
  fold_left splice (sort_desc replacements) markdownContent.

Definition convertMarkdownToHtml (fuel : nat) (markdownContent : jsstring)
           (imageReplacements : ImageReplacements) : M jsstring :=
  acc <- replace_entries fuel markdownContent imageReplacements ([], []) ;;
  let '(placeholders, replacements) := acc in
  let processedContent := apply_replacements markdownContent replacements in
  let htmlContent := micromark w processedContent in
  let finalHtml :=
    fold_left (fun acc kv => replace_first acc (fst kv) (snd kv))
              placeholders htmlContent in
  res <- highlightCodeBlocks w fuel finalHtml ;;
  ret (wrapInHtmlDocument (html res) (styles res)).

(** The rendering loop of [convert]. *)
Fixpoint render_each (diagrams : list DiagramInfo)
         (imageReplacements : ImageReplacements) : M ImageReplacements :=
  match diagrams with
  | [] => ret imageReplacements
  | d :: rest =>
      log LDebug "Rendering mermaid diagram" ;;
      imagePath <- renderMermaidToSvg w (mermaidCode d) (diagramId d) ;;
      if truthy imagePath then
        log LInfo "Successfully rendered mermaid diagram" ;;
        render_each rest
          (map_set Nat.eqb (startPos d)
                   (diagramId d, match imagePath with Some p => p | None => [] end)
                   imageReplacements)
      else
        log LError "Failed to render mermaid diagram" ;;
        render_each rest
          (map_set Nat.eqb (startPos d) (diagramId d, []) imageReplacements)
  end.

(** [convert(markdownFile, outputFile?)]; [None] is an absent
    [outputFile]. *)
Definition convert (fuel : nat) (markdownFile : jsstring)
           (outputFile : option jsstring) : M jsstring :=
  markdownContent <- do_readFile w markdownFile ;;
  match extractMermaidDiagrams fuel markdownContent with
  | None => out_of_fuel
  | Some diagrams =>
      log LInfo "Found mermaid diagrams in markdown" ;;
      imageReplacements <- render_each diagrams [] ;;
      htmlContent <- convertMarkdownToHtml fuel markdownContent imageReplacements ;;
      let output :=
        match outputFile with
        | Some o => o
        | None => replace_regex false mdExtension markdownFile (js ".html")
        end in
      do_writeFile w output htmlContent ;;
      log LInfo "Successfully converted markdown to HTML" ;;
      ret output
  end.

End Assembler.

(** ** The diagram fences of a text *)

(** The successive results of [pattern.exec(text)] until it returns
    [null], starting from [lastIndex]. *)
Fixpoint scan_from (fuel : nat) (r : regex) (text : jsstring) (lastIndex : nat)
  : list rmatch :=
  match fuel with
  | O => []
  | S fuel' =>
      match exec r text lastIndex with
      | (Some m, lastIndex') => m :: scan_from fuel' r text lastIndex'
      | (None, _) => []
      end
  end.

(** The mermaid fences of a markdown text, in source order.  A fence is
    never empty, so a text has no more fences than units and the fuel
    below is never used up ([fences_complete]). *)
Definition fences (markdownContent : jsstring) : list rmatch :=
  scan_from (S (length markdownContent)) mermaidPattern markdownContent 0.

(** The record the extractor makes of the [i]-th fence. *)
Definition record_of (i : nat) (m : rmatch) : DiagramInfo :=
  MkDiagram (js "diagram_" ++ decimal i) (trim (group 1 m)) (index m) (match_end m).

(** The records made of the fences [ms], numbered from [i]. *)
Fixpoint records_from (i : nat) (ms : list rmatch) : list DiagramInfo :=
  match ms with
  | [] => []
  | m :: ms' => record_of i m :: records_from (S i) ms'
  end.

(** Where a successful run hands over to its continuation: no earlier
    than where it started, and on the text that is left from there. *)
Definition lands (A : Type) (k : cont A) (pos : nat) (s : jsstring) (res : A) : Prop :=
  exists n caps', n <= length s /\ k (pos + n) (skipn n s) caps' = Some res.

(** [pending r text lastIndex mt ms]: with the pattern object at
    [lastIndex] and [mt] the latest result of [exec], the matches still to
    come, [mt] included, are [ms]. *)
Inductive pending (r : regex) (text : jsstring)
  : nat -> option rmatch -> list rmatch -> Prop :=
| pending_done lastIndex : pending r text lastIndex None []
| pending_more lastIndex m mt' lastIndex' ms :
    exec r text lastIndex = (mt', lastIndex') ->
    pending r text lastIndex' mt' ms ->
    pending r text lastIndex (Some m) (m :: ms).

(** A pattern every match of which is at least one unit long. *)
Definition progressing (r : regex) : Prop :=
  forall text lastIndex m lastIndex',
    exec r text lastIndex = (Some m, lastIndex') -> lastIndex < lastIndex'.

(** ** Notions and sample inputs the properties are stated with *)

(** A fence is blank when its body is empty or white space only. *)
Definition blank (m : rmatch) : Prop := trim (group 1 m) = [].

(** A fence that holds one blank line. *)
Definition blank_fence_md : jsstring :=
  js "```mermaid" ++ newline ++ newline ++ js "```".

(** A diagram, then a fence with a body of spaces. *)
Definition diagram_then_blank_md : jsstring :=
  js "```mermaid" ++ newline ++ js "graph TD; A-->B" ++ newline ++ js "```" ++ newline
     ++ js "```mermaid" ++ newline ++ js "   " ++ newline ++ js "```".

(** Two diagrams on one line. *)
Definition two_diagrams_md : jsstring :=
  js "# Title" ++ newline ++ js "```mermaid  " ++ newline ++ js "  A --> B " ++ newline
     ++ js "``` and ```mermaid" ++ newline ++ js "C```".

(** A code block in an unknown language whose text has two dollar signs
    (the shell's process id). *)
Definition dollar_block (body : jsstring) : jsstring :=
  js "<pre><code class=" ++ dquote ++ js "language-nosuchlang" ++ dquote ++ js ">"
     ++ body ++ js "</code></pre>".

Definition dollar_html : jsstring :=
  js "<h1>Run</h1>" ++ newline ++ dollar_block (js "echo $$" ++ newline).

(** A world without disk, tool or engines to speak of: every file
    operation fails, the markdown engine wraps its input in a paragraph,
    the highlighter knows no language. *)
Definition bare_world : World :=
  MkWorld (js "/tmp") (js "node_modules/.bin/mmdc")
          (fun _ => None) (fun _ _ => false) (fun _ => None)
          (fun _ _ => ToolFailed (js "ENOENT") (js "spawn mmdc ENOENT"))
          (fun _ => false) (fun _ => false)
          (fun text => js "<p>" ++ text ++ js "</p>")
          (inl (fun _ _ => None)).

(** The states an instance can be in: [tempDir] is [null] or a path that
    [mkdtemp] returned, never the empty string. *)
Definition instance_state (st : State) : Prop := tempDir st <> Some [].

(** The prefix handed to [mkdtemp]. *)
Definition temp_prefix (w : World) : jsstring := join (tmpdir w) (js "md-to-html-").

(** The directory a call of [renderMermaidToSvg] works in: the one the
    instance has, or a new one if [mkdtemp] makes it. *)
Definition working_dir (w : World) (st : State) : option jsstring :=
  if truthy (tempDir st) then tempDir st
  else option_map (app (temp_prefix w)) (mkdtemp w (temp_prefix w)).

(** The arguments of the Mermaid CLI for a diagram in [dir]. *)
Definition mmdc_args (dir diagramId : jsstring) : list jsstring :=
  [js "-i"; join dir (diagramId ++ js ".mmd"); js "-o"; join dir (diagramId ++ js ".svg");
   js "-e"; js "svg"; js "-b"; js "transparent"].

(** A world whose disk works and whose Mermaid CLI times out. *)
Definition timeout_world : World :=
  MkWorld (js "/tmp") (js "node_modules/.bin/mmdc")
          (fun _ => Some (js "Ab3xZ9")) (fun _ _ => true) (fun _ => None)
          (fun _ _ => ToolFailed (js "ETIMEDOUT") (js "spawn ETIMEDOUT"))
          (fun _ => false) (fun _ => false)
          (fun text => js "<p>" ++ text ++ js "</p>")
          (inl (fun _ _ => None)).

(** [.md] in any letter case. *)
Definition is_md_extension (ext : jsstring) : bool :=
  match ext with
  | [dot; m; d] =>
      N.eqb dot 46 && (N.eqb m 109 || N.eqb m 77) && (N.eqb d 100 || N.eqb d 68)
  | _ => false
  end.

(** The output path [convert] settles on. *)
Definition output_path (markdownFile : jsstring) (outputFile : option jsstring)
  : jsstring :=
  match outputFile with
  | Some o => o
  | None =>
      let n := length markdownFile - 3 in
      if is_md_extension (skipn n markdownFile)
      then firstn n markdownFile ++ js ".html"
      else markdownFile
  end.

(** A world with a working disk in which every file reads as a small
    document without diagrams. *)
Definition plain_world : World :=
  MkWorld (js "/tmp") (js "node_modules/.bin/mmdc")
          (fun _ => Some (js "Ab3xZ9")) (fun _ _ => true)
          (fun _ => Some (js "Hello"))
          (fun _ _ => ToolExited) (fun _ => true) (fun _ => true)
          (fun text => js "<p>" ++ text ++ js "</p>")
          (inl (fun _ _ => None)).

(** The mermaid fences as the assembler scans them (no capture group). *)
Definition fence_spans (markdownContent : jsstring) : list rmatch :=
  scan_from (S (length markdownContent)) fencePattern markdownContent 0.

(** The fence that starts at [startPos], if there is one. *)
Definition fence_at (markdownContent : jsstring) (startPos : nat) : option rmatch :=
  find (fun m => index m =? startPos) (fence_spans markdownContent).

(** [`MERMAID_PLACEHOLDER_${diagramId}`] *)
Definition token (diagramId : jsstring) : jsstring :=
  js "MERMAID_PLACEHOLDER_" ++ diagramId.

(** What the placeholder of an outcome stands for. *)
Definition svg_html_of (w : World) (imagePath : jsstring) : jsstring :=
  if truthy (Some imagePath) then
    match readFile w imagePath with
    | Some svgContent =>
        js "<div style=" ++ dquote ++ js "max-width: 100%; margin: 1em 0;"
           ++ dquote ++ js ">" ++ svgContent ++ js "</div>"
    | None => READ_FAILED
    end
  else RENDERING_FAILED.

(** The splice an entry of the outcomes map asks for: none when no fence
    starts at its key. *)
Definition replacement_of (markdownContent : jsstring)
           (entry : nat * (jsstring * jsstring)) : list Replacement.t :=
  match fence_at markdownContent (fst entry) with
  | Some m => [Replacement.Make (index m) (match_end m) (token (fst (snd entry)))]
  | None => []
  end.

Definition replacements_of (markdownContent : jsstring) (entries : ImageReplacements)
  : list Replacement.t :=
  flat_map (replacement_of markdownContent) entries.

(** The bindings of [placeholders] after the entries have been visited. *)
Definition bind_entry (w : World) (markdownContent : jsstring)
           (placeholders : list (jsstring * jsstring))
           (entry : nat * (jsstring * jsstring)) : list (jsstring * jsstring) :=
  match fence_at markdownContent (fst entry) with
  | Some _ =>
      map_set jsstring_eqb (token (fst (snd entry))) (svg_html_of w (snd (snd entry)))
              placeholders
  | None => placeholders
  end.

(** The last stages of [convertMarkdownToHtml]: the placeholders are put
    into the engine's HTML, the code blocks highlighted, the shell
    wrapped around. *)
Definition finish (w : World) (fuel : nat) (placeholders : list (jsstring * jsstring))
           (htmlContent : jsstring) : M jsstring :=
  let finalHtml :=
    fold_left (fun acc kv => replace_first acc (fst kv) (snd kv))
              placeholders htmlContent in
  res <- highlightCodeBlocks w fuel finalHtml ;;
  ret (wrapInHtmlDocument (html res) (styles res)).

(** Nothing but log lines was added to the events from [st] to [st']. *)
Definition only_reads_and_logs (st st' : State) : Prop :=
  tempDir st' = tempDir st /\ shikiHighlighter st' = shikiHighlighter st
  /\ exists evs, trace st' = trace st ++ evs
       /\ Forall (fun e => match e with
                           | EvReadFile _ | EvLog _ _ => True
                           | _ => False
                           end) evs.

(** The binding an entry of the outcomes map adds to [placeholders]. *)
Definition binding_of (w : World) (markdownContent : jsstring)
           (entry : nat * (jsstring * jsstring)) : list (jsstring * jsstring) :=
  match fence_at markdownContent (fst entry) with
  | Some _ => [(token (fst (snd entry)), svg_html_of w (snd (snd entry)))]
  | None => []
  end.

Definition bindings_of (w : World) (markdownContent : jsstring)
           (entries : ImageReplacements) : list (jsstring * jsstring) :=
  flat_map (binding_of w markdownContent) entries.

(** The diagram ids of the outcomes. *)
Definition ids_of (entries : ImageReplacements) : list jsstring :=
  map (fun entry => fst (snd entry)) entries.






(** [p] occurs in [t] at position [j]. *)
Definition occurs_at (p t : jsstring) (j : nat) : Prop :=
  exists rest, strip_prefix p (skipn j t) = Some rest.




(** The ids of the outcomes that have a fence, in iteration order. *)
Definition matched_ids (markdownContent : jsstring) (entries : ImageReplacements)
  : list jsstring :=
  flat_map (fun entry =>
              match fence_at markdownContent (fst entry) with
              | Some _ => [fst (snd entry)]
              | None => []
              end) entries.


(** The text [md] from [pos] to [bound] with the spans [rs], given from
    left to right, replaced by their placeholders and everything else
    kept. *)
Fixpoint assemble_to (md : jsstring) (pos : nat) (rs : list Replacement.t)
         (bound : nat) : jsstring :=
  match rs with
  | [] => slice md pos bound
  | r :: rs' =>
      slice md pos (Replacement.start r) ++ Replacement.placeholder r
            ++ assemble_to md (Replacement.stop r) rs' bound
  end.

(** The markdown text with the fences of the outcomes replaced by their
    tokens. *)
Definition with_tokens (md : jsstring) (entries : ImageReplacements) : jsstring :=
  assemble_to md 0 (rev (sort_desc (replacements_of md entries))) (length md).

(** The second end-to-end scenario of the specification: a title and one
    diagram, whose rendering failed. *)
Definition scenario_md : jsstring :=
  js "# Title" ++ newline ++ newline ++ js "```mermaid" ++ newline
     ++ js "flowchart LR" ++ newline ++ js "A --> B" ++ newline ++ js "```" ++ newline.

Definition scenario_failed : ImageReplacements := [(9, (js "diagram_0", []))].






(** Three diagrams, each in a paragraph of its own, all failed. *)
Definition three_md : jsstring :=
  js "```mermaid" ++ newline ++ js "A```" ++ newline ++ newline
     ++ js "```mermaid" ++ newline ++ js "B```" ++ newline ++ newline
     ++ js "```mermaid" ++ newline ++ js "C```".

Definition three_failed (i j k : nat) : ImageReplacements :=
  let entry n := (n * 17, (js "diagram_" ++ decimal n, @nil codeunit)) in
  [entry i; entry j; entry k].

(** A world whose disk works and whose Mermaid CLI always fails. *)
Definition tool_always_fails (w : World) : Prop :=
  (forall prefix, mkdtemp w prefix <> None)
  /\ (forall path content, writeFile w path content = true)
  /\ (forall file args, execFile w file args <> ToolExited).








(** ** The earlier converter kept in the same file *)

(** The loop of the earlier [extractMermaidDiagrams]: no test of the
    trimmed body, every match is pushed and [exec] is called again. *)
Fixpoint extract_loop_legacy (fuel : nat) (markdownContent : jsstring)
         (lastIndex : nat) (mt : option rmatch) (diagrams : list DiagramInfo)
  : option (list DiagramInfo) :=
  match fuel with
  | O => None
  | S fuel' =>
      match mt with
      | None => Some diagrams
      | Some m =>
          let code := trim (group 1 m) in
          let id := js "diagram_" ++ decimal (length diagrams) in
          let diagrams' :=
            diagrams ++ [MkDiagram id code (index m) (index m + length (matched m))] in
          let '(mt', lastIndex') := exec mermaidPattern markdownContent lastIndex in
          extract_loop_legacy fuel' markdownContent lastIndex' mt' diagrams'
      end
  end.

Definition extractMermaidDiagrams_legacy (fuel : nat) (markdownContent : jsstring)
  : option (list DiagramInfo) :=
  let '(mt, lastIndex) := exec mermaidPattern markdownContent 0 in
  extract_loop_legacy fuel markdownContent lastIndex mt [].

(** ** Notions for the effects of the renderer and of the rendering loop *)

(** What [renderMermaidToSvg] returns for a diagram in [dir] once its
    source is written: the path of the SVG file if the tool exits
    normally and the file is there. *)
Definition render_result (w : World) (dir diagramId : jsstring) : option jsstring :=
  match execFile w (mmdcPath w) (mmdc_args dir diagramId) with
  | ToolExited =>
      if existsSync w (join dir (diagramId ++ js ".svg"))
      then Some (join dir (diagramId ++ js ".svg")) else None
  | ToolFailed _ _ => None
  end.

(** The log lines the [catch] block of [renderMermaidToSvg] leaves. *)
Definition render_log (r : tool_result) : list event :=
  match r with
  | ToolExited => []
  | ToolFailed code _ =>
      if jsstring_eqb code (js "ETIMEDOUT")
      then [EvLog LWarn (js "Mermaid CLI timeout while rendering diagram")]
      else [EvLog LError (js "Mermaid CLI error while rendering diagram")]
  end.

(** The events of a run other than its log lines. *)
Definition io_events (evs : list event) : list event :=
  filter (fun e => negb (is_log e)) evs.

(** The two file-system and tool events of one rendering. *)
Definition render_io (w : World) (dir : jsstring) (d : DiagramInfo) : list event :=
  [EvWriteFile (join dir (diagramId d ++ js ".mmd")) (mermaidCode d);
   EvExecFile (mmdcPath w) (mmdc_args dir (diagramId d))].

(** The entry of the outcomes map that [convert] makes of a diagram
    rendered in [dir]: the empty path stands for a failed rendering. *)
Definition outcome_of (w : World) (dir : jsstring) (d : DiagramInfo)
  : nat * (jsstring * jsstring) :=
  (startPos d,
   (diagramId d,
    match render_result w dir (diagramId d) with Some p => p | None => [] end)).

(** The source of every diagram of [ds] can be written in [dir]. *)
Definition writable (w : World) (dir : jsstring) (ds : list DiagramInfo) : Prop :=
  Forall (fun d => writeFile w (join dir (diagramId d ++ js ".mmd")) (mermaidCode d) = true) ds.

(** A world whose tool renders the first diagram and fails on the
    others for a reason other than a timeout. *)
Definition first_only_world : World :=
  MkWorld (js "/tmp") (js "node_modules/.bin/mmdc")
          (fun _ => Some (js "Ab3xZ9")) (fun _ _ => true)
          (fun _ => Some (js "<svg></svg>"))
          (fun _ args =>
             if existsb (jsstring_eqb (js "/tmp/md-to-html-Ab3xZ9/diagram_0.svg")) args
             then ToolExited else ToolFailed (js "1") (js "Parse error"))
          (fun _ => true) (fun _ => true)
          (fun text => js "<p>" ++ text ++ js "</p>")
          (inl (fun _ _ => None)).

(** ** Notions for comparing the extractor's and the assembler's scans *)

(** A pattern without its capturing groups. *)
Fixpoint ungroup (r : regex) : regex :=
  match r with
  | Group r1 => ungroup r1
  | Cat r1 r2 => Cat (ungroup r1) (ungroup r2)
  | other => other
  end.

(** What a match covers: where it starts and its text. *)
Definition span (m : rmatch) : nat * jsstring := (index m, matched m).

(** The splice that puts the token of a record in the place of its fence. *)
Definition splice_of (d : DiagramInfo) : Replacement.t :=
  Replacement.Make (startPos d) (endPos d) (token (diagramId d)).

(** [entries] is an outcomes map made of the records [ds], as the loop of
    [convert] makes it: one entry per record, in order, keyed by the start
    offset and holding the id; the paths are left open. *)
Definition outcomes_for (ds : list DiagramInfo) (entries : ImageReplacements) : Prop :=
  map (fun e => (fst e, fst (snd e))) entries
  = map (fun d => (startPos d, diagramId d)) ds.

(** The binding of an entry whose fence is found. *)
Definition binding (w : World) (e : nat * (jsstring * jsstring)) : jsstring * jsstring :=
  (token (fst (snd e)), svg_html_of w (snd (snd e))).

(** Two results of a match that cover the same text, and two
    continuations that always give such results. *)
Definition same_span (a b : option rmatch) : Prop :=
  option_map span a = option_map span b.

Definition cont_same_span (k k' : cont rmatch) : Prop :=
  forall pos s caps caps', same_span (k pos s caps) (k' pos s caps').

(** ** Notions for the highlighter sub-stage *)

(** The code blocks of an HTML text as the highlighter scans them. *)
Definition code_blocks (text : jsstring) : list rmatch :=
  scan_from (S (length text)) codeBlockPattern text 0.

(** The record the highlighter makes of the [i]-th code block. *)
Definition block_of (i : nat) (m : rmatch) : CodeBlockInfo :=
  MkCodeBlock (matched m) (group 1 m) (decodeHtmlEntities (group 2 m))
              (js "CODE_BLOCK_PLACEHOLDER_" ++ decimal i).

Fixpoint blocks_from (i : nat) (ms : list rmatch) : list CodeBlockInfo :=
  match ms with
  | [] => []
  | m :: ms' => block_of i m :: blocks_from (S i) ms'
  end.

(** The events of [evs] are log lines. *)
Definition only_logs (evs : list event) : Prop :=
  Forall (fun e => is_log e = true) evs.

(** A world whose highlighter cannot be made. *)
Definition broken_shiki_world : World :=
  MkWorld (js "/tmp") (js "node_modules/.bin/mmdc")
          (fun _ => Some (js "Ab3xZ9")) (fun _ _ => true)
          (fun _ => Some (js "<svg></svg>"))
          (fun _ _ => ToolExited) (fun _ => true) (fun _ => true)
          (fun text => js "<p>" ++ text ++ js "</p>")
          (inr (js "Cannot load theme")).

(** Two code blocks, the second in a language with an upper-case tag. *)
Definition two_blocks_html : jsstring :=
  js "<pre><code class=" ++ dquote ++ js "language-js" ++ dquote ++ js ">let x = 1;"
     ++ js "</code></pre><p>and</p><pre><code class=" ++ dquote ++ js "language-Rust"
     ++ dquote ++ js ">fn main() {}</code></pre>".

(** The placeholders of the code blocks [bs], in order. *)
Definition placeholders_of (bs : list CodeBlockInfo) : list jsstring :=
  map placeholder bs.

(** A unit of a lower-case language tag: [[a-z0-9_-]]. *)
Definition is_lower_tag (c : codeunit) : bool :=
  (((48 <=? c) && (c <=? 57)) || ((97 <=? c) && (c <=? 122)) || (c =? 95) || (c =? 45))%N.

(** The language tags of the code blocks [bs], in order. *)
Definition languages_of (bs : list CodeBlockInfo) : list jsstring :=
  map language bs.

(** ** Notions for what a computation does to the world *)

(** Whatever its outcome, [c] takes a state to one that [R] relates it
    to. *)
Definition changes (A : Type) (R : State -> State -> Prop) (c : M A) : Prop :=
  forall st, R st (snd (c st)).

(** From [st] to [st'] events were added to the trace, each of which
    satisfies [P]. *)
Definition adds (P : event -> Prop) (st st' : State) : Prop :=
  exists evs, trace st' = trace st ++ evs /\ Forall P evs.

(** The same, and the renderer's directory is the one it was. *)
Definition adds_in_place (P : event -> Prop) (st st' : State) : Prop :=
  adds P st st' /\ tempDir st' = tempDir st.

(** An event that removes nothing. *)
Definition not_rm (e : event) : Prop :=
  match e with EvRm _ => False | _ => True end.

(** A log line, or the reading of one of the files [paths]. *)
Definition reads_of (paths : list jsstring) (e : event) : Prop :=
  match e with
  | EvReadFile p => In p paths
  | EvLog _ _ => True
  | _ => False
  end.

(** The artifact paths of the entries of an outcomes map. *)
Definition paths_of (entries : ImageReplacements) : list jsstring :=
  map (fun entry => snd (snd entry)) entries.

(** A world in which every file reads as a diagram followed by a blank
    fence. *)
Definition blank_notes_world : World :=
  MkWorld (js "/tmp") (js "node_modules/.bin/mmdc")
          (fun _ => Some (js "Ab3xZ9")) (fun _ _ => true)
          (fun _ => Some diagram_then_blank_md)
          (fun _ _ => ToolExited) (fun _ => true) (fun _ => true)
          (fun text => js "<p>" ++ text ++ js "</p>")
          (inl (fun _ _ => None)).

(** The files the assembler reads for an outcomes map: the artifact of
    every entry that has one and whose fence is found. *)
Definition svg_reads (md : jsstring) (entries : ImageReplacements) : list event :=
  flat_map (fun entry =>
              match fence_at md (fst entry) with
              | Some _ =>
                  if truthy (Some (snd (snd entry)))
                  then [EvReadFile (snd (snd entry))] else []
              | None => []
              end) entries.

(** The artifact of a diagram rendered in [dir], read back. *)
Definition artifact_read (w : World) (dir : jsstring) (d : DiagramInfo) : list event :=
  match render_result w dir (diagramId d) with
  | Some p => [EvReadFile p]
  | None => []
  end.

(** A world in which [notes.md] holds a title and one diagram, the tool
    renders it and every other file reads as an SVG image. *)
Definition notes_world : World :=
  MkWorld (js "/tmp") (js "node_modules/.bin/mmdc")
          (fun _ => Some (js "Ab3xZ9")) (fun _ _ => true)
          (fun path =>
             if jsstring_eqb path (js "notes.md") then Some scenario_md
             else Some (js "<svg></svg>"))
          (fun _ _ => ToolExited) (fun _ => true) (fun _ => true)
          (fun text => js "<p>" ++ text ++ js "</p>")
          (inl (fun _ _ => None)).

(** ** The command line ([cli.ts]) *)

(** How the handler of the command ends: it returns, or the process
    exits with a code. *)
Inductive ending : Type :=
| Ended
| Exited (code : N).

(** [new MermaidRenderer()]: the field [tempDir] starts as [null]; the
    path of the local Mermaid CLI, computed from the place of the module,
    is the [mmdcPath] of the world. *)
Definition new_MermaidRenderer (w : World) : M unit :=
  set_tempDir None ;;
  if existsSync w (mmdcPath w) then ret tt
  else throw (Error (js "Mermaid CLI not found at " ++ mmdcPath w ++ js ". "
                        ++ js "Please install it locally by running: npm install")).

(** [new MarkdownToHtmlConverter(renderer)]: the field [shikiHighlighter]
    starts as [null]. *)
Definition new_MarkdownToHtmlConverter : M unit := set_shikiHighlighter None.

(** The option [output] as the handler passes it on:
    [argv.output ? String(argv.output) : undefined]. *)
Definition given_output (argv_output : option jsstring) : option jsstring :=
  if truthy argv_output then argv_output else None.

(** The handler of the command.  [input] is [argv.input] and
    [argv_output] is [argv.output], [None] when the option is not given.
    [process.exit] ends the process at once: what follows it, the
    [finally] block included, does not run. *)
Definition handler (w : World) (fuel : nat) (input : jsstring)
           (argv_output : option jsstring) : M ending :=
  let output := given_output argv_output in
  if negb (existsSync w input) then
    log LError "Input file not found" ;;
    ret (Exited 1)
  else
    new_MermaidRenderer w ;;
    new_MarkdownToHtmlConverter ;;
    fun st =>
      match convert w fuel input output st with
      | (Returned _, st1) => (cleanup w ;; ret Ended) st1
      | (Thrown _, st1) =>
          (log LError "Error during conversion" ;; ret (Exited 1)) st1
      | (OutOfFuel, st1) => (OutOfFuel, st1)
      end.

(** The state of the two objects the handler makes. *)
Definition fresh (st : State) : State := MkState None None (trace st).

(** What [cleanup] adds to the trace in a state whose directory is [t]. *)
Definition cleanup_events (w : World) (t : option jsstring) : list event :=
  match t with
  | Some d =>
      [EvRm d;
       if rm w d then EvLog LDebug (js "Cleaned up temporary directory")
       else EvLog LWarn (js "Failed to clean up temporary directory")]
  | None => []
  end.

(** The states of an instance are kept. *)
Definition keeps_instance (st st' : State) : Prop :=
  instance_state st -> instance_state st'.

(** A world in which [notes.md] holds one diagram and nothing can be
    written but the diagram sources. *)
Definition read_only_output_world : World :=
  MkWorld (js "/tmp") (js "node_modules/.bin/mmdc")
          (fun _ => Some (js "Ab3xZ9"))
          (fun path _ => negb (jsstring_eqb path (js "notes.html")))
          (fun path =>
             if jsstring_eqb path (js "notes.md") then Some scenario_md
             else Some (js "<svg></svg>"))
          (fun _ _ => ToolExited) (fun _ => true) (fun _ => true)
          (fun text => js "<p>" ++ text ++ js "</p>")
          (inl (fun _ _ => None)).

(** An entry of the outcomes map whose key is the start of a fence. *)
Definition has_fence (md : jsstring) (entry : nat * (jsstring * jsstring)) : bool :=
  match fence_at md (fst entry) with Some _ => true | None => false end.

(** A computation that comes to an end, by returning or by throwing. *)
Definition ends (A : Type) (o : outcome A) : Prop :=
  match o with OutOfFuel => False | _ => True end.

(** ** The earlier converter (the variant without highlighting) *)

(** [wrapInHtmlDocument] of the earlier converter, line by line. *)
Definition wrapInHtmlDocument_legacy (content : jsstring) : jsstring :=
  unlines
    [js "<!DOCTYPE html>";
     js "<html>";
     js "<head>";
     js "    <meta charset=" ++ dquote ++ js "UTF-8" ++ dquote ++ js ">";
     js "    <style>";
     js "        body {";
     js "            font-family: Arial, sans-serif;";
     js "            max-width: " ++ HTML_MAX_WIDTH ++ js ";";
     js "            margin: 0 auto;";
     js "            padding: 20px;";
     js "            line-height: 1.6;";
     js "        }";
     js "        h1, h2, h3, h4, h5, h6 {";
     js "            margin-top: 1.5em;";
     js "            margin-bottom: 0.5em;";
     js "        }";
     js "        code {";
     js "            background-color: #f4f4f4;";
     js "            padding: 2px 4px;";
     js "            border-radius: 3px;";
     js "            font-family: 'Courier New', monospace;";
     js "        }";
     js "        pre {";
     js "            background-color: #f4f4f4;";
     js "            padding: 10px;";
     js "            border-radius: 5px;";
     js "            overflow-x: auto;";
     js "        }";
     js "        table {";
     js "            border-collapse: collapse;";
     js "            width: 100%;";
     js "            margin: 1em 0;";
     js "        }";
     js "        th, td {";
     js "            border: 1px solid #ddd;";
     js "            padding: 8px;";
     js "            text-align: left;";
     js "        }";
     js "        th {";
     js "            background-color: #f2f2f2;";
     js "            font-weight: bold;";
     js "        }";
     js "        svg {";
     js "            max-width: 100%;";
     js "            height: auto;";
     js "            margin: 1em 0;";
     js "        }";
     js "    </style>";
     js "</head>";
     js "<body>";
     content;
     js "</body>";
     js "</html>"].

Section LegacyConverter.
Variable w : World.

(** [convertMarkdownToHtml] of the earlier converter: the same first
    loop, splices and placeholder replacements, no highlighting. *)
Definition convertMarkdownToHtml_legacy (fuel : nat) (markdownContent : jsstring)
           (imageReplacements : ImageReplacements) : M jsstring :=
  acc <- replace_entries w fuel markdownContent imageReplacements ([], []) ;;
  let '(placeholders, replacements) := acc in
  let processedContent := apply_replacements markdownContent replacements in
  let htmlContent := micromark w processedContent in
  let finalHtml :=
    fold_left (fun acc kv => replace_first acc (fst kv) (snd kv))
              placeholders htmlContent in
  ret (wrapInHtmlDocument_legacy finalHtml).

(** [convert] of the earlier converter: the output path is
    [outputFile || markdownFile.replace(/\.md$/i, ".html")], so that an
    empty [outputFile] counts as none. *)
Definition convert_legacy (fuel : nat) (markdownFile : jsstring)
           (outputFile : option jsstring) : M jsstring :=
  markdownContent <- do_readFile w markdownFile ;;
  match extractMermaidDiagrams_legacy fuel markdownContent with
  | None => out_of_fuel
  | Some diagrams =>
      log LInfo "Found mermaid diagrams in markdown" ;;
      imageReplacements <- render_each w diagrams [] ;;
      htmlContent <- convertMarkdownToHtml_legacy fuel markdownContent imageReplacements ;;
      let output :=
        if truthy outputFile
        then match outputFile with Some o => o | None => [] end
        else replace_regex false mdExtension markdownFile (js ".html") in
      do_writeFile w output htmlContent ;;
      log LInfo "Successfully converted markdown to HTML" ;;
      ret output
  end.

End LegacyConverter.

(** The HTML the assembler has after the placeholder replacements: what
    the earlier converter wraps and the present one highlights first. *)
Definition assembled_body (w : World) (md : jsstring) (entries : ImageReplacements)
  : jsstring :=
  fold_left (fun acc kv => replace_first acc (fst kv) (snd kv))
            (fold_left (bind_entry w md) entries [])
            (micromark w (apply_replacements md (replacements_of md entries))).

(** ** Notions for the substitution of the placeholders, stage by stage *)

















(** ** Notions for the highlighter at work on a text with failure notices *)












(** * Properties *)

(** ** Strings and the matcher *)

Lemma jsstring_eqb_eq a b : jsstring_eqb a b = true <-> a = b.
Proof.
  unfold jsstring_eqb. destruct (list_eq_dec N.eq_dec a b); split; congruence.
Qed.

Lemma strip_prefix_app l s : strip_prefix l (l ++ s) = Some s.
Proof.
  induction l as [|a l IH]; simpl; [reflexivity|].
  now rewrite N.eqb_refl.
Qed.

Lemma strip_prefix_Some l s s' :
  strip_prefix l s = Some s' -> s = l ++ s'.
Proof.
  revert s. induction l as [|a l IH]; intros s H; simpl in *.
  - congruence.
  - destruct s as [|b s]; [discriminate|].
    destruct (N.eqb_spec a b); [|discriminate].
    subst. f_equal. now apply IH.
Qed.

Section MatcherFacts.
Variable A : Type.
Implicit Types (k : cont A) (s : jsstring).

Lemma star_greedy_lands p pos s caps k res :
  star_greedy p pos s caps k = Some res -> lands k pos s res.
Proof.
  revert pos. induction s as [|c s IH]; intros pos H; simpl in H.
  - exists 0, caps. rewrite Nat.add_0_r. auto.
  - assert (Hstop : k pos (c :: s) caps = Some res -> lands k pos (c :: s) res).
    { intros Hk. exists 0, caps. rewrite Nat.add_0_r. simpl. split; [lia|exact Hk]. }
    destruct (p c); [|auto].
    destruct (star_greedy p (S pos) s caps k) eqn:E; [|auto].
    inversion H; subst.
    destruct (IH _ E) as (n & caps' & Hn & Hk).
    exists (S n), caps'. simpl. split; [lia|].
    now replace (pos + S n) with (S pos + n) by lia.
Qed.

Lemma star_lazy_lands p pos s caps k res :
  star_lazy p pos s caps k = Some res -> lands k pos s res.
Proof.
  revert pos. induction s as [|c s IH]; intros pos H; simpl in H.
  - destruct (k pos [] caps) eqn:E; [|discriminate].
    exists 0, caps. rewrite Nat.add_0_r. simpl. split; [lia|congruence].
  - destruct (k pos (c :: s) caps) eqn:E.
    + exists 0, caps. rewrite Nat.add_0_r. simpl. split; [lia|congruence].
    + destruct (p c); [|discriminate].
      destruct (IH _ H) as (n & caps' & Hn & Hk).
      exists (S n), caps'. simpl. split; [lia|].
      now replace (pos + S n) with (S pos + n) by lia.
Qed.
End MatcherFacts.

Lemma run_lands A (r : regex) : forall pos s caps (k : cont A) res,
  run r pos s caps k = Some res -> lands k pos s res.
Proof.
  induction r as [l|p|g p|r IH|r1 IH1 r2 IH2|]; intros pos s caps k res H; simpl in H.
  - destruct (strip_prefix l s) as [s'|] eqn:E; [|discriminate].
    apply strip_prefix_Some in E. subst s.
    exists (length l), caps. rewrite length_app, skipn_app, skipn_all, Nat.sub_diag.
    simpl. split; [lia|exact H].
  - destruct s as [|c s]; [discriminate|]. destruct (p c); [|discriminate].
    exists 1, caps. simpl. split; [lia|]. now rewrite Nat.add_1_r.
  - destruct g; [eapply star_greedy_lands | eapply star_lazy_lands]; eauto.
  - apply IH in H. destruct H as (n & caps' & Hn & Hk). now exists n, (caps' ++ [firstn (pos + n - pos) s]).
  - apply IH1 in H. destruct H as (n & caps' & Hn & Hk).
    apply IH2 in Hk. destruct Hk as (n' & caps'' & Hn' & Hk).
    rewrite length_skipn in Hn'.
    exists (n + n'), caps''. split; [lia|].
    rewrite skipn_skipn in Hk.
    now replace (pos + (n + n')) with (pos + n + n') by lia; replace (n + n') with (n' + n) by lia.
  - destruct s; [|discriminate]. exists 0, caps. rewrite Nat.add_0_r. auto.
Qed.

(** A match found at [pos] starts there and lies within the text. *)
Lemma match_here_shape r pos s m :
  match_here r pos s = Some m ->
  index m = pos /\ exists n, n <= length s /\ matched m = firstn n s.
Proof.
  unfold match_here. intros H. apply run_lands in H.
  destruct H as (n & caps & Hn & Hk). inversion Hk; subst; simpl.
  split; [reflexivity|]. exists n. split; [assumption|]. f_equal. lia.
Qed.

Lemma search_shape r : forall s pos m,
  search r pos s = Some m ->
  exists j n, index m = pos + j /\ j + n <= length s
              /\ matched m = firstn n (skipn j s)
              /\ match_here r (pos + j) (skipn j s) = Some m.
Proof.
  induction s as [|c s IH]; intros pos m H; simpl in H.
  - destruct (match_here r pos []) eqn:E; [|discriminate]. inversion H; subst.
    destruct (match_here_shape _ _ _ E) as (Hi & n & Hn & Hm).
    exists 0, n. rewrite Nat.add_0_r. simpl. auto.
  - destruct (match_here r pos (c :: s)) eqn:E.
    + inversion H; subst.
      destruct (match_here_shape _ _ _ E) as (Hi & n & Hn & Hm).
      exists 0, n. rewrite Nat.add_0_r. simpl. auto.
    + destruct (IH _ _ H) as (j & n & Hi & Hn & Hm & Hh).
      exists (S j), n. simpl. replace (pos + S j) with (S pos + j) by lia.
      repeat split; auto. lia.
Qed.

(** What [exec] reports: the match starts at or after [lastIndex], its
    text is the slice of the input it covers, and the new [lastIndex] is
    its end. *)
Lemma exec_shape r text lastIndex m lastIndex' :
  exec r text lastIndex = (Some m, lastIndex') ->
  lastIndex <= index m /\ lastIndex' = match_end m /\ match_end m <= length text
  /\ matched m = slice text (index m) (match_end m).
Proof.
  unfold exec. destruct (Nat.ltb_spec (length text) lastIndex); [discriminate|].
  destruct (search r lastIndex (skipn lastIndex text)) eqn:E; [|discriminate].
  intros H'. inversion H'; subst. clear H'.
  destruct (search_shape _ _ _ E) as (j & n & Hi & Hn & Hm & _).
  rewrite length_skipn in Hn. rewrite skipn_skipn in Hm.
  assert (Hlen : length (matched m) = n).
  { rewrite Hm, length_firstn, length_skipn. lia. }
  unfold match_end, slice. rewrite Hlen, Hi.
  repeat split; try lia.
  rewrite Hm. f_equal; [lia|]. f_equal. lia.
Qed.

(** A pattern that opens with a literal matches at least that literal. *)
Lemma match_here_literal_first l r pos s m :
  match_here (Cat (Lit l) r) pos s = Some m -> length l <= length (matched m).
Proof.
  unfold match_here. simpl.
  destruct (strip_prefix l s) as [s'|] eqn:E; [|discriminate].
  apply strip_prefix_Some in E. subst s. intros H.
  apply run_lands in H. destruct H as (n & caps & Hn & Hk).
  inversion Hk; subst; simpl.
  rewrite length_firstn, length_app. lia.
Qed.

Lemma literal_first_progressing l r :
  l <> [] -> progressing (Cat (Lit l) r).
Proof.
  intros Hl text lastIndex m lastIndex' H.
  pose proof (exec_shape _ _ _ H) as (Hi & He & _).
  unfold exec in H. destruct (length text <? lastIndex); [discriminate|].
  destruct (search _ lastIndex _) eqn:E; [|discriminate]. inversion H; subst.
  destruct (search_shape _ _ _ E) as (j & n & _ & _ & _ & Hh).
  apply match_here_literal_first in Hh.
  unfold match_end. destruct l; [congruence|]. simpl in Hh. lia.
Qed.

Lemma mermaidPattern_progressing : progressing mermaidPattern.
Proof. apply literal_first_progressing. discriminate. Qed.

Lemma fencePattern_progressing : progressing fencePattern.
Proof. apply literal_first_progressing. discriminate. Qed.

Lemma codeBlockPattern_progressing : progressing codeBlockPattern.
Proof. apply literal_first_progressing. discriminate. Qed.

(** With enough fuel the scan ends because [exec] returned [null]. *)
Lemma scan_from_pending r text (Hr : progressing r) : forall fuel lastIndex,
  lastIndex <= length text -> length text - lastIndex < fuel ->
  forall mt lastIndex', exec r text lastIndex = (mt, lastIndex') ->
  pending r text lastIndex' mt (scan_from fuel r text lastIndex).
Proof.
  induction fuel as [|fuel IH]; intros li Hli Hfuel mt li' He; [lia|].
  simpl. rewrite He. destruct mt as [m|]; [|constructor].
  pose proof (Hr _ _ _ _ He) as Hlt.
  pose proof (exec_shape _ _ _ He) as (_ & Hend & Hle & _).
  destruct (exec r text li') as [mt' li''] eqn:He'.
  econstructor; [exact He'|].
  apply IH; [lia|lia|exact He'].
Qed.

Lemma pending_fences md :
  forall mt lastIndex, exec mermaidPattern md 0 = (mt, lastIndex) ->
  pending mermaidPattern md lastIndex mt (fences md).
Proof.
  intros. apply scan_from_pending; auto using mermaidPattern_progressing; lia.
Qed.

Lemma pending_unique r text : forall lastIndex mt ms ms',
  pending r text lastIndex mt ms -> pending r text lastIndex mt ms' -> ms = ms'.
Proof.
  intros li mt ms ms' H. revert ms'.
  induction H as [|li m mt' li' ms He H IH]; intros ms' H'; inversion H'; subst; auto.
  f_equal. apply IH. congruence.
Qed.

(** More fuel finds no more fences. *)
Lemma fences_complete md k :
  scan_from (S (length md) + k) mermaidPattern md 0 = fences md.
Proof.
  destruct (exec mermaidPattern md 0) as [mt li] eqn:He.
  eapply pending_unique; [|apply pending_fences; exact He].
  apply scan_from_pending; auto using mermaidPattern_progressing; lia.
Qed.

(** Fences lie within the text, one after the other. *)
Lemma pending_ordered r text : forall lastIndex mt ms,
  pending r text lastIndex mt ms ->
  forall bound, (forall m, mt = Some m -> bound <= index m /\ match_end m = lastIndex
                                          /\ match_end m <= length text) ->
  StronglySorted (fun a b => match_end a <= index b) ms
  /\ Forall (fun m => bound <= index m /\ match_end m <= length text) ms.
Proof.
  induction 1 as [|li m mt' li' ms He H IH]; intros bound Hb.
  - split; constructor.
  - destruct (Hb m eq_refl) as (Hb1 & Hb2 & Hb3).
    destruct (IH li) as (Hs & Hf).
    { intros m' Hm'. subst mt'. apply exec_shape in He.
      destruct He as (? & ? & ? & _). lia. }
    split.
    + constructor; [exact Hs|]. eapply Forall_impl; [|exact Hf]. simpl. intros; lia.
    + constructor; [lia|]. eapply Forall_impl; [|exact Hf]. simpl.
      intros a (Ha & Hb'). unfold match_end in *. lia.
Qed.

(** A scan is no longer than its text. *)
Lemma pending_length r text (Hr : progressing r) : forall lastIndex mt ms,
  pending r text lastIndex mt ms ->
  (forall m, mt = Some m -> match_end m = lastIndex /\ 0 < lastIndex <= length text) ->
  length ms + (match mt with Some _ => lastIndex - 1 | None => length text end)
    <= length text.
Proof.
  induction 1 as [|li m mt' li' ms He H IH]; intros Hb; simpl; [lia|].
  destruct (Hb m eq_refl) as (Hb1 & Hb2 & Hb3).
  destruct mt' as [m'|].
  - pose proof (Hr _ _ _ _ He).
    pose proof (exec_shape _ _ _ He) as (? & ? & ? & _).
    assert (length ms + (li' - 1) <= length text).
    { apply IH. intros ? E. inversion E; subst. lia. }
    lia.
  - inversion H; subst. simpl. lia.
Qed.

(** ** The extractor *)

(** On a blank fence the loop goes round without calling [exec]: whatever
    the fuel, it has not returned. *)
Lemma extract_loop_blank md lastIndex m ds :
  blank m -> forall fuel, extract_loop fuel md lastIndex (Some m) ds = None.
Proof.
  intros Hb. induction fuel as [|fuel IH]; simpl; [reflexivity|].
  unfold blank in Hb. rewrite Hb. simpl. exact IH.
Qed.

Lemma extract_loop_step fuel md lastIndex m ds :
  extract_loop (S fuel) md lastIndex (Some m) ds =
    if is_empty (trim (group 1 m)) then extract_loop fuel md lastIndex (Some m) ds
    else
      let '(mt', lastIndex') := exec mermaidPattern md lastIndex in
      extract_loop fuel md lastIndex' mt' (ds ++ [record_of (length ds) m]).
Proof. reflexivity. Qed.

Lemma not_blank_is_empty m : ~ blank m -> is_empty (trim (group 1 m)) = false.
Proof.
  unfold blank. destruct (trim (group 1 m)); simpl; congruence.
Qed.

Lemma extract_loop_stalls md : forall lastIndex mt ms,
  pending mermaidPattern md lastIndex mt ms ->
  Exists blank ms ->
  forall fuel ds, extract_loop fuel md lastIndex mt ds = None.
Proof.
  induction 1 as [|li m mt' li' ms He H IH]; intros Hex fuel ds.
  - inversion Hex.
  - destruct (list_eq_dec N.eq_dec (trim (group 1 m)) []) as [Hb|Hnb].
    + now apply extract_loop_blank.
    + destruct fuel as [|fuel]; [reflexivity|].
      rewrite extract_loop_step, (not_blank_is_empty Hnb), He. apply IH.
      inversion Hex; subst; [contradiction|assumption].
Qed.

Lemma extract_loop_records md : forall lastIndex mt ms,
  pending mermaidPattern md lastIndex mt ms ->
  Forall (fun m => ~ blank m) ms ->
  forall fuel ds, length ms < fuel ->
  extract_loop fuel md lastIndex mt ds = Some (ds ++ records_from (length ds) ms).
Proof.
  induction 1 as [|li m mt' li' ms He H IH]; intros Hall fuel ds Hfuel.
  - destruct fuel; [simpl in Hfuel; lia|]. simpl. now rewrite app_nil_r.
  - destruct fuel as [|fuel]; [simpl in Hfuel; lia|].
    inversion Hall as [|? ? Hm Hms]; subst.
    rewrite extract_loop_step, (not_blank_is_empty Hm), He.
    rewrite IH; [|assumption|simpl in Hfuel; lia].
    rewrite length_app, <- app_assoc. simpl.
    rewrite Nat.add_1_r. reflexivity.
Qed.

Lemma length_records_from ms : forall i, length (records_from i ms) = length ms.
Proof. induction ms; simpl; intros; auto. Qed.

Lemma nth_error_records_from ms : forall i j m,
  nth_error ms j = Some m ->
  nth_error (records_from i ms) j = Some (record_of (i + j) m).
Proof.
  induction ms as [|a ms IH]; intros i [|j] m H; simpl in *; try discriminate.
  - inversion H. now rewrite Nat.add_0_r.
  - rewrite (IH (S i) j m H). f_equal. f_equal. lia.
Qed.

Lemma fences_length md : length (fences md) <= length md.
Proof.
  destruct (exec mermaidPattern md 0) as [mt li] eqn:He.
  pose proof (pending_fences md He) as Hp.
  pose proof (pending_length mermaidPattern_progressing Hp) as G.
  destruct mt as [m|].
  - pose proof (mermaidPattern_progressing _ _ He).
    pose proof (exec_shape _ _ _ He) as (? & ? & ? & _).
    assert (length (fences md) + (li - 1) <= length md).
    { apply G. intros ? E. inversion E; subst. lia. }
    lia.
  - inversion Hp. simpl. lia.
Qed.

(** Blank fences apart, the extractor keeps one record per fence: when
    no mermaid fence of the input is blank, it returns (every sufficient
    fuel gives the same result) exactly one record per fence, in source
    order: the [i]-th record has the id [diagram_i], the trimmed body of
    the [i]-th fence as its code and the fence's start and end
    offsets. *)
Theorem extract_one_record_per_fence md :
  Forall (fun m => ~ blank m) (fences md) ->
  exists ds,
    (forall fuel, length md < fuel -> extractMermaidDiagrams fuel md = Some ds)
    /\ length ds = length (fences md)
    /\ forall i m, nth_error (fences md) i = Some m ->
         nth_error ds i =
           Some (MkDiagram (js "diagram_" ++ decimal i) (trim (group 1 m))
                           (index m) (index m + length (matched m))).
Proof.
  intros Hall. exists (records_from 0 (fences md)). split; [|split].
  - intros fuel Hfuel. unfold extractMermaidDiagrams.
    destruct (exec mermaidPattern md 0) as [mt li] eqn:He.
    rewrite (extract_loop_records (pending_fences md He) Hall); [reflexivity|].
    pose proof (fences_length md). lia.
  - apply length_records_from.
  - intros i m H. now rewrite (nth_error_records_from _ 0 _ H).
Qed.

(** C4: the code does not skip a blank fence.  Once the input has one,
    the extractor never returns: no fuel is enough. *)
Theorem blank_fence_stalls_extraction md :
  Exists blank (fences md) ->
  forall fuel, extractMermaidDiagrams fuel md = None.
Proof.
  intros Hex fuel. unfold extractMermaidDiagrams.
  destruct (exec mermaidPattern md 0) as [mt li] eqn:He.
  exact (extract_loop_stalls (pending_fences md He) Hex fuel []).
Qed.

Lemma extract_one_record_per_fence_witness :
  exists ds,
    (forall fuel, length two_diagrams_md < fuel ->
                  extractMermaidDiagrams fuel two_diagrams_md = Some ds)
    /\ length ds = length (fences two_diagrams_md)
    /\ forall i m, nth_error (fences two_diagrams_md) i = Some m ->
         nth_error ds i =
           Some (MkDiagram (js "diagram_" ++ decimal i) (trim (group 1 m))
                           (index m) (index m + length (matched m))).
Proof.
  apply (extract_one_record_per_fence two_diagrams_md).
  vm_compute. repeat constructor; intros H; discriminate H.
Defined.

(** C1: the extractor does not give one record per fence on an input
    with a blank fence.  This input has two fences, the second one blank,
    and the extractor returns no list of two records, whatever the fuel:
    the branch that skips a blank fence goes on without the next
    [pattern.exec], and the loop stays on the same match (C4, C5). *)
Lemma extract_two_fences_no_result :
  length (fences diagram_then_blank_md) = 2
  /\ ~ exists fuel ds,
         extractMermaidDiagrams fuel diagram_then_blank_md = Some ds
         /\ length ds = length (fences diagram_then_blank_md).
Proof.
  split; [reflexivity|].
  intros (fuel & ds & H & _).
  unfold extractMermaidDiagrams in H.
  destruct (exec mermaidPattern diagram_then_blank_md 0) as [mt li] eqn:He.
  rewrite (extract_loop_stalls (pending_fences _ He)) in H; [discriminate|].
  vm_compute. apply Exists_cons_tl, Exists_cons_hd. reflexivity.
Qed.

Lemma blank_fence_stalls_extraction_witness :
  extractMermaidDiagrams 1000 diagram_then_blank_md = None.
Proof.
  apply (blank_fence_stalls_extraction diagram_then_blank_md).
  vm_compute. apply Exists_cons_tl, Exists_cons_hd. reflexivity.
Defined.

(** C5: on a fence that holds one blank line the extractor does not
    terminate: for every amount of fuel it is still running. *)
Theorem extract_blank_fence_never_returns :
  forall fuel, extractMermaidDiagrams fuel blank_fence_md = None.
Proof.
  intros fuel. unfold extractMermaidDiagrams.
  destruct (exec mermaidPattern blank_fence_md 0) as [mt li] eqn:He.
  vm_compute in He. inversion He; subst.
  apply extract_loop_blank. reflexivity.
Qed.

(** ** Entities *)

(** C3: decoding after encoding does not give the text back when the text
    itself spells an entity: the encoder turns [&quot;] into [&amp;quot;],
    and the decoder, which undoes [&amp;] before [&quot;], then decodes the
    restored [&quot;] as well. *)
Theorem decode_encode_quot :
  encodeHtmlEntities (js "&quot;") = js "&amp;quot;"
  /\ decodeHtmlEntities (encodeHtmlEntities (js "&quot;")) = dquote
  /\ decodeHtmlEntities (encodeHtmlEntities (js "&quot;")) <> js "&quot;".
Proof.
  split; [reflexivity|]. split; [reflexivity|].
  intros H. vm_compute in H. discriminate H.
Qed.

(** ** The highlighter *)

Ltac run_exec :=
  match goal with
  | |- context [exec ?r ?t ?i] =>
      let v := eval vm_compute in (exec r t i) in
      change (exec r t i) with v; cbv iota beta
  end.

Lemma collect_dollar_html fuel :
  2 <= fuel ->
  collect_code_blocks fuel dollar_html =
    Some [MkCodeBlock (dollar_block (js "echo $$" ++ newline)) (js "nosuchlang")
                      (js "echo $$" ++ newline) (js "CODE_BLOCK_PLACEHOLDER_0")].
Proof.
  intros Hfuel. destruct fuel as [|[|fuel]]; try lia.
  unfold collect_code_blocks. run_exec.
  cbn [collect_loop]. run_exec. cbn [collect_loop].
  destruct fuel; vm_compute; reflexivity.
Qed.

(** C8: a block whose highlighting fails is not put back byte for byte
    when its text has a dollar pattern: the fallback is handed to
    [replace] as a replacement string, where [$$] stands for one dollar
    sign.  Here the block [echo $$] of an unknown language comes back as
    [echo $], and the original block is nowhere in the output. *)
Theorem fallback_block_loses_dollar (w : World) (hl : Highlighter) (fuel : nat) :
  createHighlighter w = inl hl ->
  (forall code lang, hl code lang = None) ->
  2 <= fuel ->
  fst (highlightCodeBlocks w fuel dollar_html initial_state)
    = Returned (MkHighlightResult
                  (js "<h1>Run</h1>" ++ newline ++ dollar_block (js "echo $" ++ newline)) [])
  /\ index_of (dollar_block (js "echo $$" ++ newline))
              (js "<h1>Run</h1>" ++ newline ++ dollar_block (js "echo $" ++ newline)) = None.
Proof.
  intros Hw Hhl Hfuel. split; [|reflexivity].
  unfold highlightCodeBlocks. rewrite (collect_dollar_html Hfuel).
  cbn [length Nat.eqb].
  unfold bind, getShikiHighlighter, get_shikiHighlighter, initial_state.
  cbn [shikiHighlighter]. unfold log, emit, bind. cbn [tempDir shikiHighlighter trace].
  rewrite Hw. unfold set_shikiHighlighter, ret, bind, log, emit.
  cbn [highlight_each code language placeholder].
  rewrite Hhl. unfold bind, log, emit, ret. cbn [fst highlight_each].
  vm_compute. reflexivity.
Qed.

Lemma fallback_block_loses_dollar_witness :
  fst (highlightCodeBlocks bare_world 2 dollar_html initial_state)
    = Returned (MkHighlightResult
                  (js "<h1>Run</h1>" ++ newline ++ dollar_block (js "echo $" ++ newline)) [])
  /\ index_of (dollar_block (js "echo $$" ++ newline))
              (js "<h1>Run</h1>" ++ newline ++ dollar_block (js "echo $" ++ newline)) = None.
Proof.
  apply (@fallback_block_loses_dollar bare_world (fun _ _ => None) 2).
  - reflexivity.
  - reflexivity.
  - lia.
Defined.

(** ** The renderer *)

Ltac unfold_monad :=
  unfold bind, ret, throw, try_catch, log, emit, get_tempDir, set_tempDir,
    get_shikiHighlighter, set_shikiHighlighter, out_of_fuel in *.

Lemma truthy_Some_inv t : truthy t = true -> exists d, t = Some d /\ d <> [].
Proof.
  destruct t as [[|c d]|]; simpl; try discriminate.
  intros _. exists (c :: d). split; [reflexivity|discriminate].
Qed.

Lemma truthy_false_instance st :
  instance_state st -> truthy (tempDir st) = false -> tempDir st = None.
Proof.
  unfold instance_state. destruct (tempDir st) as [[|c d]|]; simpl; intros H Ht;
    [exfalso; now apply H | discriminate | reflexivity].
Qed.

(** C10: in every state of an instance, [cleanup] returns normally whether
    or not the removal succeeds (a failed removal leaves a warning in the
    log), the field [tempDir] is [null] afterwards, and a second call
    returns normally too and does nothing at all: no event is added. *)
Theorem cleanup_safe_and_idempotent (w : World) (st : State) :
  instance_state st ->
  exists st',
    cleanup w st = (Returned tt, st')
    /\ tempDir st' = None
    /\ (forall d, tempDir st = Some d -> rm w d = false ->
          trace st' = trace st ++ [EvRm d; EvLog LWarn (js "Failed to clean up temporary directory")])
    /\ cleanup w st' = (Returned tt, st').
Proof.
  intros Hst. unfold cleanup at 1. unfold_monad. simpl.
  destruct (truthy (tempDir st)) eqn:Ht.
  - destruct (truthy_Some_inv _ Ht) as (d & Hd & Hne). rewrite Hd.
    unfold do_rm. unfold_monad. simpl.
    destruct (rm w d) eqn:Hrm; simpl; eexists; (split; [reflexivity|]); simpl;
      (split; [reflexivity|]); (split; [|reflexivity]); intros d' Hd' Hrm';
      assert (d' = d) by congruence; subst d'; try congruence.
    now rewrite <- app_assoc.
  - exists st. pose proof (truthy_false_instance Hst Ht) as Hn.
    split; [reflexivity|]. split; [assumption|]. split.
    + intros d Hd. congruence.
    + unfold cleanup. unfold_monad. simpl. now rewrite Ht.
Qed.

Lemma cleanup_safe_and_idempotent_witness :
  exists st',
    cleanup timeout_world (MkState (Some (js "/tmp/md-to-html-Ab3xZ9")) None [])
      = (Returned tt, st')
    /\ tempDir st' = None
    /\ (forall d,
          tempDir (MkState (Some (js "/tmp/md-to-html-Ab3xZ9")) None []) = Some d ->
          rm timeout_world d = false ->
          trace st' = trace (MkState (Some (js "/tmp/md-to-html-Ab3xZ9")) None [])
                        ++ [EvRm d; EvLog LWarn (js "Failed to clean up temporary directory")])
    /\ cleanup timeout_world st' = (Returned tt, st').
Proof.
  apply (@cleanup_safe_and_idempotent timeout_world
           (MkState (Some (js "/tmp/md-to-html-Ab3xZ9")) None [])).
  unfold instance_state. simpl. discriminate.
Defined.

(** The states of an instance stay states of an instance. *)
Lemma renderMermaidToSvg_instance_state w code id st :
  instance_state st -> instance_state (snd (renderMermaidToSvg w code id st)).
Proof.
  intros Hst. unfold renderMermaidToSvg, do_mkdtemp, do_writeFile, do_execFile.
  unfold_monad. simpl.
  destruct (truthy (tempDir st)) eqn:Ht; simpl.
  - destruct (writeFile w _ code); simpl; [|exact Hst].
    destruct (execFile w _ _); simpl.
    + destruct (existsSync w _); exact Hst.
    + destruct (jsstring_eqb _ _); exact Hst.
  - destruct (mkdtemp w _) as [random|]; simpl; [|exact Hst].
    assert (Hne : instance_state
                    (MkState (Some (join (tmpdir w) (js "md-to-html-") ++ random))
                             (shikiHighlighter st) (trace st ++ [EvMkdtemp (join (tmpdir w) (js "md-to-html-"))]))).
    { unfold instance_state, join. simpl. intros H. inversion H as [H'].
      apply (f_equal (@length _)) in H'. rewrite !length_app in H'. simpl in H'. lia. }
    destruct (writeFile w _ code); simpl; [|exact Hne].
    destruct (execFile w _ _); simpl.
    + destruct (existsSync w _); exact Hne.
    + destruct (jsstring_eqb _ _); exact Hne.
Qed.

(** C6, as the code has it: once the working directory is there (kept
    from an earlier call or made now) and the diagram source is written,
    the call returns and does not throw: the path when the tool exits and
    its output file exists, [null] when the output file is missing and
    [null] when the tool fails, by timeout or otherwise. *)
Theorem render_tool_failure_is_null (w : World) (st : State)
        (mermaidCode diagramId dir : jsstring) :
  working_dir w st = Some dir ->
  writeFile w (join dir (diagramId ++ js ".mmd")) mermaidCode = true ->
  fst (renderMermaidToSvg w mermaidCode diagramId st) =
    Returned
      (match execFile w (mmdcPath w) (mmdc_args dir diagramId) with
       | ToolExited =>
           if existsSync w (join dir (diagramId ++ js ".svg"))
           then Some (join dir (diagramId ++ js ".svg")) else None
       | ToolFailed _ _ => None
       end).
Proof.
  unfold working_dir, temp_prefix, mmdc_args. intros Hdir Hwrite.
  unfold renderMermaidToSvg, do_mkdtemp, do_writeFile, do_execFile.
  unfold_monad. simpl.
  destruct (truthy (tempDir st)) eqn:Ht; simpl.
  - rewrite Hdir. rewrite Hwrite. simpl.
    destruct (execFile w _ _); simpl.
    + destruct (existsSync w _); reflexivity.
    + destruct (jsstring_eqb _ _); reflexivity.
  - destruct (mkdtemp w _) as [random|]; simpl in *; [|discriminate].
    inversion Hdir; subst dir. rewrite Hwrite. simpl.
    destruct (execFile w _ _); simpl.
    + destruct (existsSync w _); reflexivity.
    + destruct (jsstring_eqb _ _); reflexivity.
Qed.

Lemma render_tool_failure_is_null_witness :
  fst (renderMermaidToSvg timeout_world (js "graph TD; A-->B") (js "diagram_0") initial_state)
    = Returned None.
Proof.
  apply (@render_tool_failure_is_null timeout_world initial_state
           (js "graph TD; A-->B") (js "diagram_0") (js "/tmp/md-to-html-Ab3xZ9")).
  - reflexivity.
  - reflexivity.
Defined.

(** The claim C6 as worded fails: what goes wrong before the guarded
    region is thrown to the caller.  With no temporary directory to be
    had, and with a directory but a failing write, the call throws. *)
Lemma render_throws_before_tool :
  fst (renderMermaidToSvg bare_world (js "graph TD; A-->B") (js "diagram_0") initial_state)
    = Thrown (IOError (js "mkdtemp") (js "/tmp/md-to-html-"))
  /\ fst (renderMermaidToSvg bare_world (js "graph TD; A-->B") (js "diagram_0")
            (MkState (Some (js "/tmp/md-to-html-Ab3xZ9")) None []))
     = Thrown (IOError (js "writeFile") (js "/tmp/md-to-html-Ab3xZ9/diagram_0.mmd")).
Proof. split; reflexivity. Qed.

(** ** The output path of [convert] *)

Lemma bind_Returned A B (c : M A) (k : A -> M B) st b st' :
  bind c k st = (Returned b, st') ->
  exists a st1, c st = (Returned a, st1) /\ k a st1 = (Returned b, st').
Proof.
  unfold bind. destruct (c st) as [[a| |] st1]; intros H; try discriminate.
  now exists a, st1.
Qed.

Lemma match_here_mdExtension pos s :
  match_here mdExtension pos s =
    if is_md_extension s then Some (MkMatch pos s []) else None.
Proof.
  unfold match_here, mdExtension.
  destruct s as [|a [|b [|c [|e s]]]]; cbn -[N.eqb Nat.sub Nat.add]; try reflexivity;
    try rewrite (N.eqb_sym a 46); destruct (N.eqb 46 a); try reflexivity;
    cbn -[N.eqb Nat.sub Nat.add];
    destruct (N.eqb b 109 || N.eqb b 77); try reflexivity;
    cbn -[N.eqb Nat.sub Nat.add];
    destruct (N.eqb c 100 || N.eqb c 68); try reflexivity.
  replace (S (S (S pos)) - pos) with 3 by lia. reflexivity.
Qed.

(** The replacement of the extension, from position [pos] on. *)
Lemma replace_mdExtension_from text : forall s pos,
  replace_regex_from false mdExtension text (js ".html") pos s 0 false =
    let n := length s - 3 in
    if is_md_extension (skipn n s) then firstn n s ++ js ".html" else s.
Proof.
  induction s as [|c s IH]; intros pos.
  - reflexivity.
  - cbn [replace_regex_from]. rewrite match_here_mdExtension.
    destruct (is_md_extension (c :: s)) eqn:E.
    + destruct s as [|b [|d [|e s]]]; try discriminate E.
      cbn [matched length Nat.sub skipn firstn]. rewrite E. reflexivity.
    + rewrite IH. cbn zeta.
      destruct (Nat.le_gt_cases (length s) 2) as [Hle|Hgt].
      * replace (length s - 3) with 0 by lia.
        replace (length (c :: s) - 3) with 0 by (simpl; lia).
        cbn [skipn firstn app]. rewrite E.
        destruct s as [|b [|d [|e s]]]; try reflexivity. simpl in Hle. lia.
      * replace (length (c :: s) - 3) with (S (length s - 3)) by (simpl; lia).
        cbn [skipn firstn].
        destruct (is_md_extension (skipn (length s - 3) s)); reflexivity.
Qed.

Lemma replace_mdExtension markdownFile :
  replace_regex false mdExtension markdownFile (js ".html")
    = output_path markdownFile None.
Proof. apply replace_mdExtension_from. Qed.

(** The output of [convert]: when it returns, it returns the path that
    [output_path] gives and the last file operation was the write of the
    document to that path.  [output_path] is the explicit [outputFile]
    when there is one, and otherwise what the code computes from the
    input path: a final [.md], in any letter case, replaced by
    [.html]. *)
Theorem convert_output_path (w : World) (fuel : nat) (markdownFile : jsstring)
        (outputFile : option jsstring) (st st' : State) (out : jsstring) :
  convert w fuel markdownFile outputFile st = (Returned out, st') ->
  out = output_path markdownFile outputFile
  /\ exists tr document,
       trace st' = tr ++ [EvWriteFile out document;
                          EvLog LInfo (js "Successfully converted markdown to HTML")]
       /\ writeFile w out document = true.
Proof.
  unfold convert. intros H.
  apply bind_Returned in H. destruct H as (content & st1 & _ & H).
  destruct (extractMermaidDiagrams fuel content) as [diagrams|]; [|discriminate].
  apply bind_Returned in H. destruct H as (_ & st2 & _ & H).
  apply bind_Returned in H. destruct H as (ir & st3 & _ & H).
  apply bind_Returned in H. destruct H as (document & st4 & _ & H).
  apply bind_Returned in H. destruct H as ([] & st5 & Hw & H).
  apply bind_Returned in H. destruct H as ([] & st6 & Hl & H).
  unfold ret in H. inversion H as [[Ho Hs]]. clear H.
  rewrite Hs in Hl. clear Hs st6.
  assert (Hout : match outputFile with
                 | Some o => o
                 | None => replace_regex false mdExtension markdownFile (js ".html")
                 end = output_path markdownFile outputFile).
  { destruct outputFile; [reflexivity|apply replace_mdExtension]. }
  rewrite Hout in *. clear Hout. split; [reflexivity|].
  unfold do_writeFile, bind, emit, ret, throw in Hw. simpl in Hw.
  destruct (writeFile w (output_path markdownFile outputFile) document) eqn:Ew;
    [|discriminate].
  inversion Hw; subst st5. unfold log, emit in Hl. inversion Hl; subst st'. simpl.
  exists (trace st4), document. split; [|exact Ew].
  now rewrite <- app_assoc.
Qed.

Lemma convert_output_path_witness :
  js "README.html" = output_path (js "README.MD") None
  /\ exists tr document,
       trace (snd (convert plain_world 10 (js "README.MD") None initial_state))
         = tr ++ [EvWriteFile (js "README.html") document;
                  EvLog LInfo (js "Successfully converted markdown to HTML")]
       /\ writeFile plain_world (js "README.html") document = true.
Proof.
  apply (@convert_output_path plain_world 10 (js "README.MD") None initial_state).
  vm_compute. reflexivity.
Defined.

(** C9: without an explicit output path, an input path that does not
    end in [.md] is not given the extension [.html], as the claim and the
    documentation of [convert] say it is: the path is returned as it is
    and the document is written over the input file. *)
Lemma convert_keeps_other_extension :
  fst (convert plain_world 10 (js "notes.txt") None initial_state)
    = Returned (js "notes.txt")
  /\ exists tr document,
       trace (snd (convert plain_world 10 (js "notes.txt") None initial_state))
         = tr ++ [EvWriteFile (js "notes.txt") document;
                  EvLog LInfo (js "Successfully converted markdown to HTML")].
Proof.
  split; [vm_compute; reflexivity|].
  eexists. eexists. vm_compute. 
  match goal with |- ?l = _ => 
    let n := eval vm_compute in (length l - 2) in
    instantiate (2 := firstn n l) end.
  reflexivity.
Qed.

(** ** The splices of the assembler *)

Import Replacement.

Lemma insert_desc_perm x l : Permutation (insert_desc x l) (x :: l).
Proof.
  induction l as [|y l IH]; simpl; [reflexivity|].
  destruct (start x <? start y); [|reflexivity].
  rewrite IH. apply perm_swap.
Qed.

Lemma sort_desc_perm l : Permutation (sort_desc l) l.
Proof.
  induction l as [|x l IH]; simpl; [reflexivity|].
  rewrite insert_desc_perm. now constructor.
Qed.

Lemma insert_desc_sorted x l :
  StronglySorted (fun a b => start b <= start a) l ->
  StronglySorted (fun a b => start b <= start a) (insert_desc x l).
Proof.
  induction 1 as [|y l Hs IH Hy]; simpl.
  - repeat constructor.
  - destruct (Nat.ltb_spec (start x) (start y)).
    + constructor; [assumption|].
      eapply Permutation_Forall; [symmetry; apply insert_desc_perm|].
      constructor; [lia|assumption].
    + constructor; [now constructor|].
      constructor; [assumption|].
      eapply Forall_impl; [|exact Hy]. simpl. intros; lia.
Qed.

Lemma sort_desc_sorted l :
  StronglySorted (fun a b => start b <= start a) (sort_desc l).
Proof.
  induction l; simpl; [constructor|now apply insert_desc_sorted].
Qed.

(** Distinct starts: the sorted splices go strictly down. *)
Lemma sort_desc_strict l :
  NoDup (map start l) ->
  StronglySorted (fun a b => start b < start a) (sort_desc l).
Proof.
  intros Hnd.
  assert (Hnd' : NoDup (map start (sort_desc l))).
  { eapply Permutation_NoDup; [|exact Hnd].
    apply Permutation_map. symmetry. apply sort_desc_perm. }
  pose proof (sort_desc_sorted l) as Hs.
  induction Hs as [|a s Hs IH Ha]; [constructor|].
  simpl in Hnd'. inversion Hnd' as [|? ? Hnotin Hnd'']; subst.
  constructor; [now apply IH|].
  rewrite Forall_forall in *. intros b Hb.
  specialize (Ha b Hb).
  assert (start b <> start a).
  { intros E. apply Hnotin. rewrite <- E. now apply in_map. }
  lia.
Qed.

(** A strictly descending list is determined by its elements. *)
Lemma strict_desc_unique : forall l1 l2,
  StronglySorted (fun a b => start b < start a) l1 ->
  StronglySorted (fun a b => start b < start a) l2 ->
  Permutation l1 l2 -> l1 = l2.
Proof.
  induction l1 as [|a l1 IH]; intros l2 H1 H2 Hp.
  - now apply Permutation_nil in Hp.
  - destruct l2 as [|b l2]; [now apply Permutation_sym, Permutation_nil in Hp|].
    inversion H1 as [|? ? H1' Ha]; inversion H2 as [|? ? H2' Hb]; subst.
    rewrite Forall_forall in Ha, Hb.
    assert (a = b).
    { assert (Hin1 : In a (b :: l2)) by (eapply Permutation_in; [exact Hp|now left]).
      assert (Hin2 : In b (a :: l1)) by (eapply Permutation_in; [symmetry; exact Hp|now left]).
      destruct Hin1 as [|Hin1]; [congruence|].
      destruct Hin2 as [|Hin2]; [congruence|].
      specialize (Ha _ Hin2). specialize (Hb _ Hin1). lia. }
    subst b. f_equal. apply IH; auto. now apply Permutation_cons_inv in Hp.
Qed.


(** *** The scan for the fence of an entry *)

Lemma find_fence_pending md startPos : forall lastIndex mt ms,
  pending fencePattern md lastIndex mt ms ->
  forall fuel, length ms < fuel ->
  find_fence fuel md startPos lastIndex mt
    = Some (find (fun m => index m =? startPos) ms).
Proof.
  induction 1 as [|li m mt' li' ms He H IH]; intros fuel Hfuel.
  - destruct fuel; [simpl in Hfuel; lia|reflexivity].
  - destruct fuel as [|fuel]; [simpl in Hfuel; lia|]. simpl.
    destruct (index m =? startPos); [reflexivity|].
    rewrite He. apply IH. simpl in Hfuel. lia.
Qed.

Lemma pending_fence_spans md :
  forall mt lastIndex, exec fencePattern md 0 = (mt, lastIndex) ->
  pending fencePattern md lastIndex mt (fence_spans md).
Proof.
  intros. apply scan_from_pending; auto using fencePattern_progressing; lia.
Qed.

Lemma fence_spans_length md : length (fence_spans md) <= length md.
Proof.
  destruct (exec fencePattern md 0) as [mt li] eqn:He.
  pose proof (pending_fence_spans md He) as Hp.
  pose proof (pending_length fencePattern_progressing Hp) as G.
  destruct mt as [m|].
  - pose proof (fencePattern_progressing _ _ He).
    pose proof (exec_shape _ _ _ He) as (? & ? & ? & _).
    assert (length (fence_spans md) + (li - 1) <= length md).
    { apply G. intros ? E. inversion E; subst. lia. }
    lia.
  - inversion Hp. simpl. lia.
Qed.

(** With fuel beyond the length of the text the inner loop ends, at the
    fence that starts at [startPos] or at the end of the scan. *)
Lemma find_fence_fence_at md startPos fuel mt lastIndex :
  length md < fuel ->
  exec fencePattern md 0 = (mt, lastIndex) ->
  find_fence fuel md startPos lastIndex mt = Some (fence_at md startPos).
Proof.
  intros Hfuel He. unfold fence_at.
  apply find_fence_pending; [now apply pending_fence_spans|].
  pose proof (fence_spans_length md). lia.
Qed.

Lemma only_reads_and_logs_refl st : only_reads_and_logs st st.
Proof.
  repeat split. exists []. now rewrite app_nil_r.
Qed.

Lemma only_reads_and_logs_trans st1 st2 st3 :
  only_reads_and_logs st1 st2 -> only_reads_and_logs st2 st3 ->
  only_reads_and_logs st1 st3.
Proof.
  intros (Ht & Hs & evs & He & Hf) (Ht' & Hs' & evs' & He' & Hf').
  repeat split; try congruence.
  exists (evs ++ evs'). split.
  - now rewrite He', He, app_assoc.
  - now apply Forall_app.
Qed.

Lemma replace_entry_spec w fuel md entry ph rs st :
  length md < fuel ->
  exists st',
    replace_entry w fuel md entry (ph, rs) st
      = (Returned (bind_entry w md ph entry, rs ++ replacement_of md entry), st')
    /\ only_reads_and_logs st st'.
Proof.
  intros Hfuel. destruct entry as [startPos [id path]].
  unfold replace_entry, bind_entry, replacement_of. cbn [fst snd].
  destruct (exec fencePattern md 0) as [mt li] eqn:He.
  rewrite (@find_fence_fence_at md startPos fuel mt li Hfuel He).
  destruct (fence_at md startPos) as [m|].
  - unfold svg_html_of, do_readFile. unfold_monad.
    destruct (truthy (Some path)); simpl.
    + destruct (readFile w path) as [content|]; simpl; eexists; (split; [reflexivity|]);
        repeat split; simpl.
      * exists [EvReadFile path]. split; [reflexivity|]. repeat constructor.
      * exists [EvReadFile path; EvLog LWarn (js "Failed to read SVG file")].
        split; [now rewrite <- app_assoc|]. repeat constructor.
    + eexists. split; [reflexivity|]. apply only_reads_and_logs_refl.
  - exists st. rewrite app_nil_r. split; [reflexivity|apply only_reads_and_logs_refl].
Qed.

Lemma replace_entries_spec w fuel md : forall entries ph rs st,
  length md < fuel ->
  exists st',
    replace_entries w fuel md entries (ph, rs) st
      = (Returned (fold_left (bind_entry w md) entries ph,
                   rs ++ replacements_of md entries), st')
    /\ only_reads_and_logs st st'.
Proof.
  induction entries as [|entry entries IH]; intros ph rs st Hfuel.
  - exists st. simpl. rewrite app_nil_r.
    split; [reflexivity|apply only_reads_and_logs_refl].
  - destruct (@replace_entry_spec w fuel md entry ph rs st Hfuel) as (st1 & H1 & Hl1).
    destruct (IH (bind_entry w md ph entry) (rs ++ replacement_of md entry) st1 Hfuel)
      as (st2 & H2 & Hl2).
    exists st2. split; [|eapply only_reads_and_logs_trans; eauto].
    cbn [replace_entries]. unfold bind at 1. rewrite H1, H2.
    unfold replacements_of. now rewrite <- app_assoc.
Qed.

Lemma find_some_index md startPos m :
  fence_at md startPos = Some m -> index m = startPos.
Proof.
  unfold fence_at. intros H. apply find_some in H.
  now apply Nat.eqb_eq.
Qed.

(** A splice starts at the key of its entry: distinct keys, distinct
    starts. *)
Lemma replacements_of_starts md entries :
  NoDup (map fst entries) -> NoDup (map start (replacements_of md entries)).
Proof.
  assert (Hincl : forall es x, In x (map start (replacements_of md es)) ->
                               In x (map fst es)).
  { induction es as [|e es IH]; simpl; [auto|]. intros x.
    unfold replacements_of in *. simpl. rewrite map_app, in_app_iff.
    intros [Hx|Hx]; [left|right; now apply IH].
    unfold replacement_of in Hx.
    destruct (fence_at md (fst e)) as [m|] eqn:Ef; simpl in Hx; [|tauto].
    destruct Hx as [Hx|[]]. apply find_some_index in Ef. congruence. }
  induction entries as [|e es IH]; simpl; intros Hnd; [constructor|].
  inversion Hnd as [|? ? Hnotin Hnd']; subst.
  unfold replacements_of. simpl. rewrite map_app.
  unfold replacement_of at 1.
  destruct (fence_at md (fst e)) as [m|] eqn:Ef; simpl; [|now apply IH].
  constructor; [|now apply IH].
  intros Hin. apply Hnotin. apply find_some_index in Ef. rewrite <- Ef.
  now apply Hincl.
Qed.


Lemma convertMarkdownToHtml_finish w fuel md entries st ph rs st' :
  replace_entries w fuel md entries ([], []) st = (Returned (ph, rs), st') ->
  convertMarkdownToHtml w fuel md entries st
    = finish w fuel ph (micromark w (apply_replacements md rs)) st'.
Proof.
  intros H. unfold convertMarkdownToHtml. unfold bind at 1. rewrite H.
  reflexivity.
Qed.

Lemma map_set_fresh (k v : jsstring) m :
  ~ In k (map fst m) -> map_set jsstring_eqb k v m = m ++ [(k, v)].
Proof.
  induction m as [|[k' v'] m IH]; simpl; intros Hk; [reflexivity|].
  destruct (jsstring_eqb k' k) eqn:E.
  - apply jsstring_eqb_eq in E. tauto.
  - f_equal. apply IH. tauto.
Qed.

Lemma token_inj a b : token a = token b -> a = b.
Proof. unfold token. apply app_inv_head. Qed.

Lemma binding_of_keys w md e k :
  In k (map fst (binding_of w md e)) -> k = token (fst (snd e)).
Proof.
  unfold binding_of. destruct (fence_at md (fst e)); simpl; [|tauto].
  intros [H|[]]. congruence.
Qed.

(** With distinct ids every binding is a new key. *)
Lemma fold_bind_entry_fresh w md : forall entries ph,
  NoDup (ids_of entries) ->
  (forall e, In e entries -> ~ In (token (fst (snd e))) (map fst ph)) ->
  fold_left (bind_entry w md) entries ph = ph ++ bindings_of w md entries.
Proof.
  induction entries as [|e es IH]; intros ph Hnd Hfresh; simpl.
  - now rewrite app_nil_r.
  - inversion Hnd as [|? ? Hnotin Hnd']; subst.
    unfold bindings_of. simpl. rewrite app_assoc.
    assert (Hb : bind_entry w md ph e = ph ++ binding_of w md e).
    { unfold bind_entry, binding_of. destruct (fence_at md (fst e)).
      - apply map_set_fresh. apply Hfresh. now left.
      - now rewrite app_nil_r. }
    rewrite Hb. apply IH; [assumption|].
    intros e' He'. rewrite map_app, in_app_iff. intros [Hin|Hin].
    + apply (Hfresh e'); [now right|assumption].
    + apply binding_of_keys in Hin. apply token_inj in Hin.
      apply Hnotin. unfold ids_of. rewrite <- Hin.
      now apply (in_map (fun entry => fst (snd entry))).
Qed.


(** The check the specification asks for: three diagrams, the outcomes
    map in each of its six iteration orders, one and the same document. *)
Lemma three_diagrams_any_order :
  Forall (fun entries =>
            fst (convertMarkdownToHtml bare_world 100 three_md entries initial_state)
            = fst (convertMarkdownToHtml bare_world 100 three_md (three_failed 0 1 2)
                                         initial_state))
         [three_failed 0 2 1; three_failed 1 0 2; three_failed 1 2 0;
          three_failed 2 0 1; three_failed 2 1 0]
  /\ matched_ids three_md (three_failed 2 0 1)
     = [js "diagram_2"; js "diagram_0"; js "diagram_1"].
Proof.
  split; [|reflexivity].
  repeat constructor; vm_compute; reflexivity.
Qed.

(** ** Occurrences and first-occurrence replacement *)

Lemma strip_prefix_iff l s s' : strip_prefix l s = Some s' <-> s = l ++ s'.
Proof.
  split; [apply strip_prefix_Some|]. intros ->. apply strip_prefix_app.
Qed.


Lemma occurs_at_extend p x y j : occurs_at p x j -> occurs_at p (x ++ y) j.
Proof.
  intros (rest & H). apply strip_prefix_Some in H.
  destruct (Nat.le_gt_cases j (length x)) as [Hle|Hgt].
  - exists (rest ++ y). apply strip_prefix_iff.
    rewrite skipn_app. replace (j - length x) with 0 by lia. simpl.
    now rewrite H, <- app_assoc.
  - rewrite skipn_all2 in H by lia. destruct p; [|discriminate].
    eexists. reflexivity.
Qed.



Lemma index_of_from_None p : forall s pos,
  index_of_from p pos s = None -> forall j, ~ occurs_at p s j.
Proof.
  induction s as [|c s IH]; intros pos H j (rest & Hr); simpl in H.
  - destruct (strip_prefix p []) eqn:E; [discriminate|].
    rewrite skipn_nil in Hr. congruence.
  - destruct (strip_prefix p (c :: s)) eqn:E; [discriminate|].
    destruct j as [|j]; [simpl in Hr; congruence|].
    apply (IH _ H j). now exists rest.
Qed.



(** A replacement without dollar signs is inserted as it is. *)
Lemma get_substitution_plain matched before after : forall replacement,
  ~ In dollar replacement ->
  get_substitution matched before after replacement = replacement.
Proof.
  induction replacement as [|c rest IH]; intros Hd; [reflexivity|].
  simpl. destruct (N.eqb_spec c dollar) as [->|_].
  - exfalso. apply Hd. now left.
  - f_equal. apply IH. intros Hin. apply Hd. now right.
Qed.


(** *** Failure notices at the tokens *)








(** ** Failed diagrams *)



Lemma collect_loop_total text : forall lastIndex mt ms,
  pending codeBlockPattern text lastIndex mt ms ->
  forall fuel acc i, length ms < fuel ->
  exists blocks, collect_loop fuel text lastIndex mt acc i = Some blocks.
Proof.
  induction 1 as [|li m mt' li' ms He H IH]; intros fuel acc i Hfuel.
  - destruct fuel; [simpl in Hfuel; lia|]. now exists acc.
  - destruct fuel as [|fuel]; [simpl in Hfuel; lia|]. simpl.
    rewrite He. apply IH. simpl in Hfuel. lia.
Qed.

Lemma collect_code_blocks_total text fuel :
  length text < fuel -> exists blocks, collect_code_blocks fuel text = Some blocks.
Proof.
  intros Hfuel. unfold collect_code_blocks.
  destruct (exec codeBlockPattern text 0) as [mt li] eqn:He.
  assert (Hp : pending codeBlockPattern text li mt
                 (scan_from (S (length text)) codeBlockPattern text 0)).
  { apply scan_from_pending; auto using codeBlockPattern_progressing; lia. }
  apply (collect_loop_total Hp).
  pose proof (pending_length codeBlockPattern_progressing Hp) as G.
  destruct mt as [m|].
  - pose proof (codeBlockPattern_progressing _ _ He).
    pose proof (exec_shape _ _ _ He) as (? & ? & ? & _).
    assert (length (scan_from (S (length text)) codeBlockPattern text 0) + (li - 1)
            <= length text).
    { apply G. intros ? E. inversion E; subst. lia. }
    lia.
  - assert (length (scan_from (S (length text)) codeBlockPattern text 0) + length text
            <= length text).
    { apply G. intros ? E. discriminate E. }
    lia.
Qed.

(** A block that cannot be highlighted does not stop the loop. *)
Lemma highlight_each_returns hl all : forall rest acc st,
  exists res st', highlight_each hl all rest acc st = (Returned res, st').
Proof.
  induction rest as [|cb rest IH]; intros acc st; simpl.
  - now exists acc, st.
  - destruct (hl (code cb) (normalizeLanguage (language cb))); [apply IH|].
    unfold_monad. apply IH.
Qed.

(** The one way the highlighter stage fails: blocks to highlight and no
    engine to be had. *)
Lemma highlightCodeBlocks_outcome w fuel text st :
  length text < fuel ->
  (exists res st', highlightCodeBlocks w fuel text st = (Returned res, st'))
  \/ (exists msg st',
        createHighlighter w = inr msg
        /\ highlightCodeBlocks w fuel text st
           = (Thrown (Error (js "Failed to initialize Shiki highlighter: " ++ msg)), st')).
Proof.
  intros Hfuel. unfold highlightCodeBlocks.
  destruct (@collect_code_blocks_total text fuel Hfuel) as (blocks & ->).
  destruct (length blocks =? 0); [left; eexists; eexists; reflexivity|].
  unfold getShikiHighlighter. unfold_monad. simpl.
  destruct (shikiHighlighter st) as [hl|].
  - left. destruct (highlight_each_returns hl blocks blocks [] st) as (res & st' & ->).
    eexists. eexists. reflexivity.
  - destruct (createHighlighter w) as [hl|msg].
    + left. simpl.
      match goal with |- context [highlight_each hl blocks blocks [] ?s] =>
        destruct (highlight_each_returns hl blocks blocks [] s) as (res & st' & ->) end.
      eexists. eexists. reflexivity.
    + right. exists msg. eexists. split; reflexivity.
Qed.

(** ** The splices put the tokens in place of the fences *)

Lemma slice_slice md a b : slice md a b = skipn a (firstn b md).
Proof.
  unfold slice. destruct (Nat.le_gt_cases a b) as [H|H].
  - rewrite skipn_firstn_comm. reflexivity.
  - replace (b - a) with 0 by lia. cbn [firstn]. symmetry.
    apply skipn_all2. rewrite length_firstn. lia.
Qed.

Lemma assemble_to_snoc md bound r : forall rs pos,
  assemble_to md pos (rs ++ [r]) bound
    = assemble_to md pos rs (start r) ++ placeholder r ++ slice md (stop r) bound.
Proof.
  induction rs as [|r' rs IH]; intros pos; simpl; [reflexivity|].
  now rewrite IH, <- !app_assoc.
Qed.

(** Splicing from the right leaves the text to the left as it was. *)
Lemma fold_splice md : forall l bound tail,
  StronglySorted (fun a b => stop b <= start a) l ->
  Forall (fun r => start r <= stop r <= bound) l ->
  bound <= length md ->
  fold_left splice l (firstn bound md ++ tail)
    = assemble_to md 0 (rev l) bound ++ tail.
Proof.
  induction l as [|r l IH]; intros bound tail Hs Hf Hb.
  - simpl. unfold slice. now rewrite Nat.sub_0_r.
  - inversion Hs as [|? ? Hs' Hr]; inversion Hf as [|? ? Hr' Hf']; subst.
    cbn [fold_left rev]. rewrite assemble_to_snoc, <- !app_assoc.
    assert (Hsplice : splice (firstn bound md ++ tail) r
                      = firstn (start r) md
                          ++ (placeholder r ++ slice md (stop r) bound ++ tail)).
    { unfold splice, slice, slice_from. rewrite Nat.sub_0_r. cbn [skipn].
      rewrite firstn_app, firstn_firstn, length_firstn.
      replace (Nat.min (start r) bound) with (start r) by lia.
      replace (start r - Nat.min bound (length md)) with 0 by lia.
      rewrite firstn_O, app_nil_r. f_equal. f_equal.
      rewrite skipn_app, length_firstn.
      replace (stop r - Nat.min bound (length md)) with 0 by lia.
      cbn [skipn]. f_equal. fold (slice md (stop r) bound). now rewrite slice_slice. }
    rewrite Hsplice. apply IH; [assumption| |lia].
    rewrite Forall_forall in *. intros r' Hin.
    specialize (Hr _ Hin). specialize (Hf' _ Hin). lia.
Qed.

Lemma StronglySorted_pair A (R : A -> A -> Prop) l x y :
  StronglySorted R l -> In x l -> In y l -> x = y \/ R x y \/ R y x.
Proof.
  induction 1 as [|a l Hs IH Ha]; intros Hx Hy; [destruct Hx|].
  rewrite Forall_forall in Ha.
  destruct Hx as [->|Hx], Hy as [->|Hy]; auto.
Qed.

Lemma StronglySorted_refine A (R R' : A -> A -> Prop) l :
  StronglySorted R l ->
  (forall a b, In a l -> In b l -> R a b -> R' a b) ->
  StronglySorted R' l.
Proof.
  induction 1 as [|a l Hs IH Ha]; intros Himp; constructor.
  - apply IH. intros x y Hx Hy. apply Himp; now right.
  - rewrite Forall_forall in *. intros b Hb. apply Himp; auto; [now left|now right].
Qed.

Lemma fence_spans_ordered md :
  StronglySorted (fun a b => match_end a <= index b) (fence_spans md)
  /\ Forall (fun m => match_end m <= length md) (fence_spans md).
Proof.
  destruct (exec fencePattern md 0) as [mt li] eqn:He.
  pose proof (pending_fence_spans md He) as Hp.
  destruct (@pending_ordered _ _ _ _ _ Hp 0) as (Hs & Hf).
  - intros m ->. apply exec_shape in He. destruct He as (? & ? & ? & _).
    repeat split; auto; lia.
  - split; [exact Hs|]. eapply Forall_impl; [|exact Hf]. simpl. tauto.
Qed.

(** Each splice is the span of a fence. *)
Lemma replacements_of_spans md entries r :
  In r (replacements_of md entries) ->
  exists m, In m (fence_spans md) /\ start r = index m /\ stop r = match_end m.
Proof.
  unfold replacements_of. rewrite in_flat_map. intros (e & _ & Hr).
  unfold replacement_of in Hr.
  destruct (fence_at md (fst e)) as [m|] eqn:Ef; [|destruct Hr].
  destruct Hr as [<-|[]]. exists m. simpl. split; [|auto].
  unfold fence_at in Ef. now apply find_some in Ef.
Qed.

(** The splices of an outcomes map do not overlap: sorted, each ends
    where the one before it (further right) has not begun. *)
Lemma sorted_replacements_apart md entries :
  NoDup (map fst entries) ->
  StronglySorted (fun a b => stop b <= start a) (sort_desc (replacements_of md entries))
  /\ Forall (fun r => start r <= stop r <= length md)
            (sort_desc (replacements_of md entries)).
Proof.
  intros Hnd.
  pose proof (fence_spans_ordered md) as (Hord & Hlen).
  rewrite Forall_forall in Hlen.
  assert (Hin : forall r, In r (sort_desc (replacements_of md entries)) ->
                exists m, In m (fence_spans md) /\ start r = index m /\ stop r = match_end m).
  { intros r Hr. apply (replacements_of_spans md entries).
    eapply Permutation_in; [apply sort_desc_perm|exact Hr]. }
  split.
  - eapply StronglySorted_refine.
    + apply sort_desc_strict. now apply replacements_of_starts.
    + intros a b Ha Hb Hlt. simpl in Hlt.
      destruct (Hin _ Ha) as (ma & Hma & Hsa & Hea).
      destruct (Hin _ Hb) as (mb & Hmb & Hsb & Heb).
      destruct (@StronglySorted_pair _ _ _ ma mb Hord Hma Hmb) as [E|[E|E]].
      * subst mb. lia.
      * unfold match_end in *. lia.
      * lia.
  - rewrite Forall_forall. intros r Hr.
    destruct (Hin _ Hr) as (m & Hm & Hs & He).
    specialize (Hlen _ Hm). unfold match_end in *. lia.
Qed.

(** The text handed to the markdown engine is the markdown text with each
    fence of the outcomes replaced by its token, and nothing else
    changed. *)
Lemma apply_replacements_in_place md entries :
  NoDup (map fst entries) ->
  apply_replacements md (replacements_of md entries) = with_tokens md entries.
Proof.
  intros Hnd. unfold apply_replacements, with_tokens.
  destruct (@sorted_replacements_apart md entries Hnd) as (Hs & Hf).
  pose proof (@fold_splice md _ (length md) [] Hs Hf (Nat.le_refl _)) as H.
  now rewrite firstn_all, !app_nil_r in H.
Qed.


(** ** The rendering loop of [convert] *)

Lemma renderMermaidToSvg_tool_fails w code id st :
  tool_always_fails w ->
  exists st', renderMermaidToSvg w code id st = (Returned None, st').
Proof.
  intros (Hmk & Hwr & Hex).
  unfold renderMermaidToSvg, do_mkdtemp, do_writeFile, do_execFile.
  unfold_monad. simpl.
  destruct (truthy (tempDir st)); simpl.
  - rewrite Hwr. simpl.
    destruct (execFile w _ _) as [|c m] eqn:E; [now apply Hex in E|]. simpl.
    destruct (jsstring_eqb c _); eexists; reflexivity.
  - destruct (mkdtemp w _) as [random|] eqn:Em; [|now apply Hmk in Em]. simpl.
    rewrite Hwr. simpl.
    destruct (execFile w _ _) as [|c m] eqn:E; [now apply Hex in E|]. simpl.
    destruct (jsstring_eqb c _); eexists; reflexivity.
Qed.

(** One failed rendering after the other: the loop goes through all the
    diagrams and records a failed outcome for each. *)
Lemma render_each_failures w : tool_always_fails w ->
  forall diagrams acc st,
  exists st',
    render_each w diagrams acc st
      = (Returned
           (fold_left (fun m d => map_set Nat.eqb (startPos d) (diagramId d, []) m)
                      diagrams acc),
         st').
Proof.
  intros Hw. induction diagrams as [|d ds IH]; intros acc st.
  - exists st. reflexivity.
  - cbn [render_each fold_left]. unfold log, emit. unfold bind at 1 2.
    match goal with |- context [renderMermaidToSvg w ?c ?i ?s] =>
      destruct (@renderMermaidToSvg_tool_fails w c i s Hw) as (st1 & ->) end.
    cbn [truthy]. unfold bind at 1.
    match goal with |- context [render_each w ds ?a ?s] =>
      destruct (IH a s) as (st2 & ->) end.
    now exists st2.
Qed.

(** ** Substitutions that commute *)



























(** * Further properties of the code *)

(** ** The extractor, when it returns *)

Lemma extract_loop_returned md : forall lastIndex mt ms,
  pending mermaidPattern md lastIndex mt ms ->
  forall fuel ds out,
  extract_loop fuel md lastIndex mt ds = Some out ->
  Forall (fun m => ~ blank m) ms
  /\ out = ds ++ records_from (length ds) ms
  /\ length ms < fuel.
Proof.
  induction 1 as [|li m mt' li' ms He H IH]; intros fuel ds out Hout.
  - destruct fuel; [discriminate|]. simpl in Hout. inversion Hout; subst.
    split; [constructor|]. split; [now rewrite app_nil_r|simpl; lia].
  - destruct (list_eq_dec N.eq_dec (trim (group 1 m)) []) as [Hb|Hnb].
    + rewrite (@extract_loop_blank md li m ds Hb fuel) in Hout. discriminate.
    + destruct fuel as [|fuel]; [discriminate|].
      rewrite extract_loop_step, (not_blank_is_empty Hnb), He in Hout.
      destruct (IH _ _ _ Hout) as (Hall & Hds & Hfuel).
      split; [now constructor|]. split; [|simpl; lia].
      rewrite Hds, length_app, <- app_assoc. simpl. now rewrite Nat.add_1_r.
Qed.

Lemma extract_returned md fuel ds :
  extractMermaidDiagrams fuel md = Some ds ->
  Forall (fun m => ~ blank m) (fences md)
  /\ ds = records_from 0 (fences md)
  /\ length (fences md) < fuel.
Proof.
  unfold extractMermaidDiagrams.
  destruct (exec mermaidPattern md 0) as [mt li] eqn:He. intros H.
  exact (extract_loop_returned (pending_fences md He) _ _ H).
Qed.

Lemma extract_loop_legacy_records md : forall lastIndex mt ms,
  pending mermaidPattern md lastIndex mt ms ->
  forall fuel ds, length ms < fuel ->
  extract_loop_legacy fuel md lastIndex mt ds
    = Some (ds ++ records_from (length ds) ms).
Proof.
  induction 1 as [|li m mt' li' ms He H IH]; intros fuel ds Hfuel.
  - destruct fuel; [simpl in Hfuel; lia|]. simpl. now rewrite app_nil_r.
  - destruct fuel as [|fuel]; [simpl in Hfuel; lia|]. cbn [extract_loop_legacy].
    rewrite He, IH by (simpl in Hfuel; lia).
    rewrite length_app, <- app_assoc. simpl. now rewrite Nat.add_1_r.
Qed.

Lemma legacy_returns md fuel :
  length (fences md) < fuel ->
  extractMermaidDiagrams_legacy fuel md = Some (records_from 0 (fences md)).
Proof.
  intros Hfuel. unfold extractMermaidDiagrams_legacy.
  destruct (exec mermaidPattern md 0) as [mt li] eqn:He.
  now rewrite (extract_loop_legacy_records (pending_fences md He)).
Qed.

(** X1: the earlier extractor terminates on every input and returns one
    record per mermaid fence, in source order and numbered from zero; a
    fence with a blank body gets a record too, its code the empty
    string. *)
Theorem legacy_extractor_total md fuel :
  length md < fuel ->
  exists ds,
    extractMermaidDiagrams_legacy fuel md = Some ds
    /\ length ds = length (fences md)
    /\ forall i m, nth_error (fences md) i = Some m ->
         nth_error ds i =
           Some (MkDiagram (js "diagram_" ++ decimal i) (trim (group 1 m))
                           (index m) (index m + length (matched m)))
         /\ (blank m -> exists d, nth_error ds i = Some d /\ mermaidCode d = []).
Proof.
  intros Hfuel. exists (records_from 0 (fences md)). split; [|split].
  - apply legacy_returns. pose proof (fences_length md). lia.
  - apply length_records_from.
  - intros i m H. rewrite (nth_error_records_from _ 0 _ H). split; [reflexivity|].
    intros Hb. eexists. split; [reflexivity|]. exact Hb.
Qed.

Lemma legacy_extractor_total_witness :
  exists ds,
    extractMermaidDiagrams_legacy 100 diagram_then_blank_md = Some ds
    /\ length ds = 2.
Proof.
  destruct (@legacy_extractor_total diagram_then_blank_md 100) as (ds & H & Hl & _).
  - vm_compute. lia.
  - exists ds. split; [exact H|]. rewrite Hl. reflexivity.
Defined.

(** X2: whenever the extractor returns, no fence of the input was blank,
    it made a record of every fence, and the earlier extractor returns
    the same list. *)
Theorem extractor_agrees_with_legacy md fuel ds :
  extractMermaidDiagrams fuel md = Some ds ->
  Forall (fun m => ~ blank m) (fences md)
  /\ length ds = length (fences md)
  /\ extractMermaidDiagrams_legacy fuel md = Some ds.
Proof.
  intros H. destruct (extract_returned _ _ H) as (Hall & -> & Hfuel).
  split; [assumption|]. split; [apply length_records_from|].
  now apply legacy_returns.
Qed.

Lemma extractor_agrees_with_legacy_witness :
  extractMermaidDiagrams_legacy 100 two_diagrams_md
    = extractMermaidDiagrams 100 two_diagrams_md.
Proof.
  destruct (extractMermaidDiagrams 100 two_diagrams_md) as [ds|] eqn:E;
    [|vm_compute in E; discriminate E].
  apply (@extractor_agrees_with_legacy two_diagrams_md 100 ds E).
Defined.

(** ** The shape of a fence *)

(** A greedy star consumes units of its class only and leaves the
    captures alone. *)
Lemma star_greedy_class A p (k : cont A) caps res : forall s pos,
  star_greedy p pos s caps k = Some res ->
  exists n, n <= length s /\ forallb p (firstn n s) = true
            /\ k (pos + n) (skipn n s) caps = Some res.
Proof.
  induction s as [|c s IH]; intros pos H; simpl in H.
  - exists 0. rewrite Nat.add_0_r. auto.
  - assert (Hstop : k pos (c :: s) caps = Some res ->
                    exists n, n <= length (c :: s)
                              /\ forallb p (firstn n (c :: s)) = true
                              /\ k (pos + n) (skipn n (c :: s)) caps = Some res).
    { intros Hk. exists 0. rewrite Nat.add_0_r. simpl. auto with arith. }
    destruct (p c) eqn:Hp; [|auto].
    destruct (star_greedy p (S pos) s caps k) eqn:E; [|auto].
    inversion H; subst.
    destruct (IH _ E) as (n & Hn & Hall & Hk).
    exists (S n). simpl. rewrite Hp, Hall. repeat split; [lia|].
    now replace (pos + S n) with (S pos + n) by lia.
Qed.

(** A lazy star stops at the first place where the rest of the pattern
    matches. *)
Lemma star_lazy_first A p (k : cont A) caps res : forall s pos,
  star_lazy p pos s caps k = Some res ->
  exists n, n <= length s /\ forallb p (firstn n s) = true
            /\ k (pos + n) (skipn n s) caps = Some res
            /\ forall j, j < n -> k (pos + j) (skipn j s) caps = None.
Proof.
  induction s as [|c s IH]; intros pos H; simpl in H.
  - destruct (k pos [] caps) eqn:E; [|discriminate].
    exists 0. rewrite Nat.add_0_r. simpl. repeat split; auto; [congruence|intros; lia].
  - destruct (k pos (c :: s) caps) eqn:E.
    + exists 0. rewrite Nat.add_0_r. simpl.
      repeat split; auto with arith; [congruence|intros; lia].
    + destruct (p c) eqn:Hp; [|discriminate].
      destruct (IH _ H) as (n & Hn & Hall & Hk & Hfirst).
      exists (S n). simpl. rewrite Hp, Hall. repeat split; [lia| |].
      * now replace (pos + S n) with (S pos + n) by lia.
      * intros [|j] Hj; [now rewrite Nat.add_0_r|].
        replace (pos + S j) with (S pos + j) by lia. apply Hfirst. lia.
Qed.

(** What a match of the fence pattern at the head of [s] looks like: the
    opening fence, white space, a line feed, the body, the closing fence;
    the body is the capture, and the closing fence is the first one after
    the line feed. *)
Lemma mermaid_match_shape pos s m :
  match_here mermaidPattern pos s = Some m ->
  exists ws body rest,
    s = fence_open ++ ws ++ newline ++ body ++ fence_close ++ rest
    /\ forallb is_space ws = true
    /\ index m = pos
    /\ matched m = fence_open ++ ws ++ newline ++ body ++ fence_close
    /\ groups m = [body]
    /\ forall j, j < length body -> ~ occurs_at fence_close (body ++ fence_close) j.
Proof.
  unfold match_here, mermaidPattern. cbn [run].
  destruct (strip_prefix fence_open s) as [s1|] eqn:E1; [|discriminate].
  apply strip_prefix_Some in E1. intros H.
  apply star_greedy_class in H. destruct H as (n1 & Hn1 & Hws & H).
  destruct (skipn n1 s1) as [|c s2] eqn:E2; [discriminate|].
  destruct (N.eqb_spec 10 c) as [<-|]; [|discriminate].
  apply star_lazy_first in H. destruct H as (n2 & Hn2 & _ & H & Hfirst).
  destruct (strip_prefix fence_close (skipn n2 s2)) as [s3|] eqn:E3; [|discriminate].
  apply strip_prefix_Some in E3. inversion H; subst m; clear H. cbn [index matched groups].
  assert (Hs1 : s1 = firstn n1 s1 ++ newline ++ firstn n2 s2 ++ fence_close ++ s3).
  { rewrite <- (firstn_skipn n1 s1) at 1. rewrite E2. unfold newline. simpl. f_equal. f_equal.
    rewrite <- (firstn_skipn n2 s2) at 1. now rewrite E3. }
  exists (firstn n1 s1), (firstn n2 s2), s3.
  split; [now rewrite E1, Hs1 at 1|]. split; [assumption|]. split; [reflexivity|].
  assert (Hl1 : length (firstn n1 s1) = n1) by (apply firstn_length_le; lia).
  assert (Hl2 : length (firstn n2 s2) = n2) by (apply firstn_length_le; lia).
  split; [|split].
  - rewrite E1. rewrite Hs1 at 1.
    match goal with |- firstn ?n _ = _ =>
      assert (Hn : n = length (fence_open ++ firstn n1 s1 ++ newline
                                 ++ firstn n2 s2 ++ fence_close))
        by (rewrite !length_app, Hl1, Hl2;
            change (length fence_open) with 10; change (length fence_close) with 3;
            change (length newline) with 1; destruct pos; lia);
      rewrite Hn end.
    replace (fence_open ++ firstn n1 s1 ++ newline ++ firstn n2 s2 ++ fence_close ++ s3)
      with ((fence_open ++ firstn n1 s1 ++ newline ++ firstn n2 s2 ++ fence_close) ++ s3)
      by (now rewrite <- !app_assoc).
    now rewrite firstn_app, firstn_all, Nat.sub_diag, firstn_O, app_nil_r.
  - cbn [app]. f_equal. f_equal. lia.
  - intros j Hj Hocc. rewrite Hl2 in Hj. specialize (Hfirst j Hj).
    destruct (strip_prefix fence_close (skipn j s2)) as [r|] eqn:E; [discriminate|].
    assert (Hocc' : occurs_at fence_close s2 j).
    { rewrite <- (firstn_skipn n2 s2), E3.
      replace (firstn n2 s2 ++ fence_close ++ s3)
        with ((firstn n2 s2 ++ fence_close) ++ s3) by now rewrite <- app_assoc.
      now apply occurs_at_extend. }
    destruct Hocc' as (r & Hr). congruence.
Qed.

Lemma exec_match_here r text lastIndex m lastIndex' :
  exec r text lastIndex = (Some m, lastIndex') ->
  match_here r (index m) (skipn (index m) text) = Some m.
Proof.
  unfold exec. destruct (length text <? lastIndex); [discriminate|].
  destruct (search r lastIndex (skipn lastIndex text)) eqn:E; [|discriminate].
  intros H. inversion H; subst.
  destruct (search_shape _ _ _ E) as (j & n & Hi & _ & _ & Hh).
  rewrite skipn_skipn in Hh. rewrite Hi.
  now replace (j + lastIndex) with (lastIndex + j) in Hh by lia.
Qed.

Lemma pending_Forall r text (P : rmatch -> Prop) :
  (forall lastIndex m lastIndex', exec r text lastIndex = (Some m, lastIndex') -> P m) ->
  forall lastIndex mt ms,
  pending r text lastIndex mt ms ->
  (forall m, mt = Some m -> P m) -> Forall P ms.
Proof.
  intros Hexec. induction 1 as [|li m mt' li' ms He H IH]; intros Hmt; constructor.
  - now apply Hmt.
  - apply IH. intros m' ->. eapply Hexec; eauto.
Qed.

(** Every fence of a text is a match of the fence pattern at its index. *)
Lemma fences_match_here md :
  Forall (fun m => match_here mermaidPattern (index m) (skipn (index m) md) = Some m)
         (fences md).
Proof.
  destruct (exec mermaidPattern md 0) as [mt li] eqn:He.
  apply (pending_Forall (r := mermaidPattern) (text := md)) with (lastIndex := li) (mt := mt).
  - intros. eapply exec_match_here; eauto.
  - now apply pending_fences.
  - intros m ->. eapply exec_match_here; eauto.
Qed.

Lemma fences_ordered md :
  StronglySorted (fun a b => match_end a <= index b) (fences md)
  /\ Forall (fun m => match_end m <= length md) (fences md).
Proof.
  destruct (exec mermaidPattern md 0) as [mt li] eqn:He.
  pose proof (pending_fences md He) as Hp.
  destruct (@pending_ordered _ _ _ _ _ Hp 0) as (Hs & Hf).
  - intros m ->. apply exec_shape in He. destruct He as (? & ? & ? & _).
    repeat split; auto; lia.
  - split; [exact Hs|]. eapply Forall_impl; [|exact Hf]. simpl. tauto.
Qed.

Lemma records_from_In ms : forall i d,
  In d (records_from i ms) ->
  exists j m, nth_error ms j = Some m /\ d = record_of (i + j) m.
Proof.
  induction ms as [|m ms IH]; intros i d Hd; [destruct Hd|].
  destruct Hd as [<-|Hd].
  - exists 0, m. now rewrite Nat.add_0_r.
  - destruct (IH _ _ Hd) as (j & m' & Hj & ->).
    exists (S j), m'. split; [exact Hj|]. f_equal. lia.
Qed.

Lemma records_from_sorted ms : forall i,
  StronglySorted (fun a b => match_end a <= index b) ms ->
  StronglySorted (fun a b => endPos a <= startPos b) (records_from i ms).
Proof.
  induction ms as [|m ms IH]; intros i Hs; simpl; [constructor|].
  inversion Hs as [|? ? Hs' Hm]; subst. constructor; [now apply IH|].
  rewrite Forall_forall in *. intros d Hd.
  destruct (records_from_In _ _ _ Hd) as (j & m' & Hj & ->). simpl.
  apply Hm. eapply nth_error_In; eauto.
Qed.

(** *** Trimming *)

Lemma drop_while_spec p s :
  exists l, s = l ++ drop_while p s /\ forallb p l = true
            /\ match drop_while p s with c :: _ => p c = false | [] => True end.
Proof.
  induction s as [|c s IH]; simpl.
  - exists []. auto.
  - destruct (p c) eqn:Hp.
    + destruct IH as (l & Hl & Hall & Hhd). exists (c :: l). simpl.
      rewrite Hp, Hall. repeat split; auto. now rewrite <- Hl.
    + exists []. simpl. auto.
Qed.

Lemma drop_while_head p s :
  match s with c :: _ => p c = false | [] => True end -> drop_while p s = s.
Proof. destruct s as [|c s]; simpl; [auto|]. now intros ->. Qed.

Lemma forallb_rev (p : codeunit -> bool) l : forallb p (rev l) = forallb p l.
Proof.
  induction l as [|c l IH]; [reflexivity|]. simpl.
  rewrite forallb_app, IH. simpl. now rewrite andb_true_r, andb_comm.
Qed.

(** [trim] cuts white space off both ends and nothing else, and what is
    left neither begins nor ends with white space. *)
Lemma trim_spec s :
  exists l r, s = l ++ trim s ++ r
              /\ forallb is_space l = true /\ forallb is_space r = true
              /\ match trim s with c :: _ => is_space c = false | [] => True end
              /\ match rev (trim s) with c :: _ => is_space c = false | [] => True end.
Proof.
  unfold trim.
  destruct (drop_while_spec is_space s) as (l & Hl & Hall & Hhd).
  set (t := drop_while is_space s) in *.
  destruct (drop_while_spec is_space (rev t)) as (r' & Hr & Hallr & Hhdr).
  set (u := drop_while is_space (rev t)) in *.
  exists l, (rev r'). rewrite rev_involutive.
  assert (Ht : t = rev u ++ rev r').
  { rewrite <- (rev_involutive t), Hr, rev_app_distr. reflexivity. }
  split; [now rewrite Hl at 1; rewrite Ht at 1|].
  split; [assumption|]. split; [now rewrite forallb_rev|].
  split; [|exact Hhdr].
  destruct (rev u) as [|c ru] eqn:Eu; [exact I|].
  rewrite Ht in Hhd. simpl in Hhd. exact Hhd.
Qed.

Lemma trim_idempotent s : trim (trim s) = trim s.
Proof.
  destruct (trim_spec s) as (_ & _ & _ & _ & _ & Hhd & Hlast).
  unfold trim at 1. rewrite (drop_while_head _ _ Hhd).
  rewrite (drop_while_head _ _ Hlast). apply rev_involutive.
Qed.

(** *** Decimal numerals *)

Lemma js_inj a b : js a = js b -> a = b.
Proof.
  unfold js. intros H.
  rewrite <- (string_of_list_ascii_of_string a), <- (string_of_list_ascii_of_string b).
  f_equal. revert H. generalize (list_ascii_of_string a) (list_ascii_of_string b).
  induction l as [|x l IH]; intros [|y l'] H; simpl in H; try discriminate; auto.
  inversion H as [[Hx Hl]]. f_equal; [|now apply IH].
  rewrite <- (ascii_N_embedding x), <- (ascii_N_embedding y). now rewrite Hx.
Qed.

Lemma decimal_inj a b : decimal a = decimal b -> a = b.
Proof.
  unfold decimal. intros H. apply js_inj in H.
  assert (Hn : forall n, Nat.to_uint n <> Decimal.Nil).
  { intros n. rewrite <- (Unsigned.of_to n) at 1. rewrite Unsigned.to_of.
    apply unorm_nonnil. }
  apply (f_equal NilZero.uint_of_string) in H.
  rewrite !NilZero.usu in H by apply Hn.
  inversion H. now apply Unsigned.to_uint_inj.
Qed.

Lemma records_from_ids ms : forall i,
  map diagramId (records_from i ms)
    = map (fun k => js "diagram_" ++ decimal k) (seq i (length ms)).
Proof.
  induction ms as [|m ms IH]; intros i; simpl; [reflexivity|]. now rewrite IH.
Qed.

Lemma records_from_starts ms : forall i,
  map startPos (records_from i ms) = map index ms.
Proof.
  induction ms as [|m ms IH]; intros i; simpl; [reflexivity|]. now rewrite IH.
Qed.

Lemma NoDup_map_injective A B (f : A -> B) l :
  (forall x y, f x = f y -> x = y) -> NoDup l -> NoDup (map f l).
Proof.
  intros Hf. induction 1 as [|x l Hx Hnd IH]; simpl; constructor; [|assumption].
  rewrite in_map_iff. intros (y & Hy & Hin). apply Hf in Hy. now subst.
Qed.

Lemma fence_min_length md m :
  In m (fences md) -> 14 <= length (matched m).
Proof.
  intros Hin. pose proof (fences_match_here md) as H.
  rewrite Forall_forall in H. specialize (H _ Hin).
  destruct (mermaid_match_shape _ _ H) as (ws & body & rest & _ & _ & _ & Hm & _).
  rewrite Hm, !length_app.
  change (length fence_open) with 10. change (length fence_close) with 3.
  change (length newline) with 1. lia.
Qed.

(** X3: the records the extractor returns are in source order and do not
    overlap; each spans at least the fourteen units of an empty fence
    and lies within the text. *)
Theorem records_in_order md fuel ds :
  extractMermaidDiagrams fuel md = Some ds ->
  StronglySorted (fun a b => endPos a <= startPos b) ds
  /\ Forall (fun d => startPos d + 14 <= endPos d /\ endPos d <= length md) ds.
Proof.
  intros H. destruct (extract_returned _ _ H) as (_ & -> & _).
  destruct (fences_ordered md) as (Hs & Hb). split.
  - now apply records_from_sorted.
  - rewrite Forall_forall in *. intros d Hd.
    destruct (records_from_In _ _ _ Hd) as (j & m & Hj & ->).
    apply nth_error_In in Hj. simpl.
    pose proof (fence_min_length md m Hj). specialize (Hb _ Hj).
    unfold match_end in *. lia.
Qed.

Lemma records_in_order_witness :
  exists ds,
    extractMermaidDiagrams 100 two_diagrams_md = Some ds
    /\ StronglySorted (fun a b => endPos a <= startPos b) ds
    /\ Forall (fun d => startPos d + 14 <= endPos d
                        /\ endPos d <= length two_diagrams_md) ds.
Proof.
  destruct (extractMermaidDiagrams 100 two_diagrams_md) as [ds|] eqn:E;
    [|vm_compute in E; discriminate E].
  exists ds. split; [reflexivity|].
  apply (@records_in_order two_diagrams_md 100 ds E).
Defined.

(** X4: cut out of the markdown text at its offsets, a record gives back
    its fence: the opening fence, white space, a line feed, the body and
    the closing fence, which is the first closing fence after that line
    feed; the record's code is the trimmed body. *)
Theorem record_reproduces_fence md fuel ds :
  extractMermaidDiagrams fuel md = Some ds ->
  Forall (fun d =>
            exists ws body,
              slice md (startPos d) (endPos d)
                = fence_open ++ ws ++ newline ++ body ++ fence_close
              /\ forallb is_space ws = true
              /\ mermaidCode d = trim body
              /\ forall j, j < length body ->
                           ~ occurs_at fence_close (body ++ fence_close) j) ds.
Proof.
  intros H. destruct (extract_returned _ _ H) as (_ & -> & _).
  rewrite Forall_forall. intros d Hd.
  destruct (records_from_In _ _ _ Hd) as (j & m & Hj & ->).
  apply nth_error_In in Hj.
  pose proof (fences_match_here md) as Hm. rewrite Forall_forall in Hm.
  destruct (mermaid_match_shape _ _ (Hm _ Hj))
    as (ws & body & rest & Hs & Hws & _ & Hmatched & Hg & Hfirst).
  exists ws, body. cbn [startPos endPos mermaidCode record_of].
  split; [|split; [assumption|split; [|assumption]]].
  - unfold slice, match_end. rewrite Hs, Hmatched.
    replace (index m + length (fence_open ++ ws ++ newline ++ body ++ fence_close) - index m)
      with (length (fence_open ++ ws ++ newline ++ body ++ fence_close)) by lia.
    replace (fence_open ++ ws ++ newline ++ body ++ fence_close ++ rest)
      with ((fence_open ++ ws ++ newline ++ body ++ fence_close) ++ rest)
      by now rewrite <- !app_assoc.
    now rewrite firstn_app, firstn_all, Nat.sub_diag, firstn_O, app_nil_r.
  - unfold group. now rewrite Hg.
Qed.

Lemma record_reproduces_fence_witness :
  exists d ws body,
    extractMermaidDiagrams 100 two_diagrams_md <> None
    /\ slice two_diagrams_md (startPos d) (endPos d)
       = fence_open ++ ws ++ newline ++ body ++ fence_close
    /\ mermaidCode d = trim body.
Proof.
  destruct (extractMermaidDiagrams 100 two_diagrams_md) as [ds|] eqn:E;
    [|vm_compute in E; discriminate E].
  pose proof (@record_reproduces_fence two_diagrams_md 100 ds E) as H.
  destruct ds as [|d ds]; [vm_compute in E; discriminate E|].
  inversion H as [|? ? (ws & body & Hs & _ & Hc & _) _]; subst.
  exists d, ws, body. split; [discriminate|]. split; assumption.
Defined.

Lemma StronglySorted_lt_NoDup l : StronglySorted lt l -> NoDup l.
Proof.
  induction 1 as [|x l Hs IH Hx]; constructor; [|assumption].
  intros Hin. rewrite Forall_forall in Hx. specialize (Hx _ Hin). lia.
Qed.

Lemma StronglySorted_map A B (f : A -> B) (R : B -> B -> Prop) l :
  StronglySorted (fun a b => R (f a) (f b)) l -> StronglySorted R (map f l).
Proof.
  induction 1 as [|x l Hs IH Hx]; simpl; constructor; [assumption|].
  rewrite Forall_forall in *. intros y Hy. apply in_map_iff in Hy.
  destruct Hy as (z & <- & Hz). now apply Hx.
Qed.

(** X5: the records the extractor returns have pairwise distinct
    identifiers and pairwise distinct start offsets, so either can serve
    as a key for a diagram. *)
Theorem records_distinct md fuel ds :
  extractMermaidDiagrams fuel md = Some ds ->
  NoDup (map diagramId ds) /\ NoDup (map startPos ds).
Proof.
  intros H. destruct (extract_returned _ _ H) as (_ & -> & _). split.
  - rewrite records_from_ids. apply NoDup_map_injective; [|apply seq_NoDup].
    intros x y Hxy. apply app_inv_head in Hxy. now apply decimal_inj.
  - rewrite records_from_starts.
    apply StronglySorted_lt_NoDup, StronglySorted_map.
    destruct (fences_ordered md) as (Hs & _).
    eapply StronglySorted_refine; [exact Hs|].
    intros a b Ha _ Hab. pose proof (fence_min_length md a Ha).
    unfold match_end in Hab. lia.
Qed.

Lemma records_distinct_witness :
  exists ds,
    extractMermaidDiagrams 100 two_diagrams_md = Some ds
    /\ NoDup (map diagramId ds) /\ NoDup (map startPos ds).
Proof.
  destruct (extractMermaidDiagrams 100 two_diagrams_md) as [ds|] eqn:E;
    [|vm_compute in E; discriminate E].
  exists ds. split; [reflexivity|].
  apply (@records_distinct two_diagrams_md 100 ds E).
Defined.

(** X6: the code of every record the extractor returns is non-empty and
    trimmed: it neither begins nor ends with white space, and trimming
    it again changes nothing. *)
Theorem records_code_trimmed md fuel ds :
  extractMermaidDiagrams fuel md = Some ds ->
  Forall (fun d =>
            mermaidCode d <> []
            /\ trim (mermaidCode d) = mermaidCode d
            /\ (exists c rest, mermaidCode d = c :: rest /\ is_space c = false)
            /\ (exists c front, mermaidCode d = front ++ [c] /\ is_space c = false))
         ds.
Proof.
  intros H. destruct (extract_returned _ _ H) as (Hnb & -> & _).
  rewrite Forall_forall in *. intros d Hd.
  destruct (records_from_In _ _ _ Hd) as (j & m & Hj & ->).
  apply nth_error_In in Hj. specialize (Hnb _ Hj). unfold blank in Hnb.
  cbn [mermaidCode record_of].
  destruct (trim_spec (group 1 m)) as (l & r & _ & _ & _ & Hhd & Hlast).
  split; [assumption|]. split; [apply trim_idempotent|]. split.
  - destruct (trim (group 1 m)) as [|c rest]; [contradiction|]. now exists c, rest.
  - destruct (rev (trim (group 1 m))) as [|c front] eqn:E.
    + apply (f_equal (@rev _)) in E. rewrite rev_involutive in E. contradiction.
    + exists c, (rev front). split; [|assumption].
      apply (f_equal (@rev _)) in E. now rewrite rev_involutive in E.
Qed.

Lemma records_code_trimmed_witness :
  exists ds,
    extractMermaidDiagrams 100 two_diagrams_md = Some ds
    /\ Forall (fun d => mermaidCode d <> []
                        /\ trim (mermaidCode d) = mermaidCode d) ds.
Proof.
  destruct (extractMermaidDiagrams 100 two_diagrams_md) as [ds|] eqn:E;
    [|vm_compute in E; discriminate E].
  exists ds. split; [reflexivity|].
  pose proof (@records_code_trimmed two_diagrams_md 100 ds E) as H.
  eapply Forall_impl; [|exact H]. intros d (H1 & H2 & _). now split.
Defined.

Lemma search_literal_absent l r : forall s pos,
  index_of_from l pos s = None -> search (Cat (Lit l) r) pos s = None.
Proof.
  induction s as [|c s IH]; intros pos H; simpl in *; unfold match_here; simpl;
    destruct (strip_prefix l _); try discriminate; auto.
Qed.

(** X7: on a text in which the opening fence of a diagram does not occur,
    the extractor returns the empty list, and so does the legacy
    extractor. *)
Theorem no_fence_no_records md fuel :
  index_of fence_open md = None -> 0 < fuel ->
  extractMermaidDiagrams fuel md = Some []
  /\ extractMermaidDiagrams_legacy fuel md = Some [].
Proof.
  intros H Hf. unfold extractMermaidDiagrams, extractMermaidDiagrams_legacy, exec.
  simpl length. change (length md <? 0) with false. cbn [skipn].
  unfold mermaidPattern. rewrite (@search_literal_absent fence_open _ md 0 H).
  destruct fuel; [lia|]. now split.
Qed.

Lemma no_fence_no_records_witness :
  extractMermaidDiagrams 1 (js "# Title") = Some []
  /\ extractMermaidDiagrams_legacy 1 (js "# Title") = Some [].
Proof.
  apply (@no_fence_no_records (js "# Title") 1); [reflexivity|lia].
Defined.

(** ** The renderer and the rendering loop *)

Lemma working_dir_nonempty w st dir :
  working_dir w st = Some dir -> truthy (Some dir) = true.
Proof.
  unfold working_dir, temp_prefix. destruct (truthy (tempDir st)) eqn:Ht.
  - intros <-. exact Ht.
  - destruct (mkdtemp w _) as [r|]; simpl; [|discriminate].
    intros H. inversion H. unfold join. now destruct (tmpdir w).
Qed.

(** One call on a writable working directory, in full. *)
Lemma renderMermaidToSvg_run w st code id dir :
  working_dir w st = Some dir ->
  writeFile w (join dir (id ++ js ".mmd")) code = true ->
  renderMermaidToSvg w code id st
  = (Returned (render_result w dir id),
     MkState (Some dir) (shikiHighlighter st)
       (trace st
          ++ (if truthy (tempDir st) then [] else [EvMkdtemp (temp_prefix w)])
          ++ [EvWriteFile (join dir (id ++ js ".mmd")) code;
              EvExecFile (mmdcPath w) (mmdc_args dir id)]
          ++ render_log (execFile w (mmdcPath w) (mmdc_args dir id)))).
Proof.
  unfold working_dir, temp_prefix, render_result, render_log, mmdc_args.
  intros Hdir Hwrite.
  unfold renderMermaidToSvg, do_mkdtemp, do_writeFile, do_execFile.
  unfold_monad. simpl.
  destruct (truthy (tempDir st)) eqn:Ht; simpl.
  - rewrite Hdir. rewrite Hwrite. simpl.
    destruct (execFile w _ _); simpl.
    + destruct (existsSync w _); rewrite <- !app_assoc; reflexivity.
    + destruct (jsstring_eqb _ _); simpl; rewrite <- !app_assoc; reflexivity.
  - destruct (mkdtemp w _) as [random|]; simpl in *; [|discriminate].
    inversion Hdir; subst dir. rewrite Hwrite. simpl.
    destruct (execFile w _ _); simpl.
    + destruct (existsSync w _); rewrite <- !app_assoc; reflexivity.
    + destruct (jsstring_eqb _ _); simpl; rewrite <- !app_assoc; reflexivity.
Qed.

(** X8: what one rendering does, in order: it makes the temporary
    directory only if the instance has none, writes the diagram source
    there, runs the tool once on it, and logs a warning when the tool
    timed out, an error when it failed otherwise and nothing when it
    exited normally, the output file being there or not; afterwards the
    instance holds the directory. *)
Theorem render_events (w : World) (st : State) (code id dir : jsstring) :
  working_dir w st = Some dir ->
  writeFile w (join dir (id ++ js ".mmd")) code = true ->
  let st' := snd (renderMermaidToSvg w code id st) in
  tempDir st' = Some dir
  /\ trace st'
     = trace st
         ++ (if truthy (tempDir st) then [] else [EvMkdtemp (temp_prefix w)])
         ++ [EvWriteFile (join dir (id ++ js ".mmd")) code;
             EvExecFile (mmdcPath w) (mmdc_args dir id)]
         ++ match execFile w (mmdcPath w) (mmdc_args dir id) with
            | ToolExited => []
            | ToolFailed c _ =>
                if jsstring_eqb c (js "ETIMEDOUT")
                then [EvLog LWarn (js "Mermaid CLI timeout while rendering diagram")]
                else [EvLog LError (js "Mermaid CLI error while rendering diagram")]
            end
  /\ working_dir w st' = Some dir.
Proof.
  intros Hdir Hwrite st'. subst st'.
  rewrite (renderMermaidToSvg_run w st code id Hdir Hwrite). simpl.
  split; [reflexivity|]. split; [reflexivity|].
  unfold working_dir. simpl tempDir.
  now rewrite (working_dir_nonempty w st Hdir).
Qed.

Lemma render_events_witness :
  trace (snd (renderMermaidToSvg timeout_world (js "graph TD; A-->B") (js "diagram_0")
                                 initial_state))
  = [EvMkdtemp (js "/tmp/md-to-html-");
     EvWriteFile (js "/tmp/md-to-html-Ab3xZ9/diagram_0.mmd") (js "graph TD; A-->B");
     EvExecFile (js "node_modules/.bin/mmdc")
                (mmdc_args (js "/tmp/md-to-html-Ab3xZ9") (js "diagram_0"));
     EvLog LWarn (js "Mermaid CLI timeout while rendering diagram")].
Proof.
  destruct (@render_events timeout_world initial_state (js "graph TD; A-->B")
              (js "diagram_0") (js "/tmp/md-to-html-Ab3xZ9"))
    as (_ & H & _); [reflexivity|reflexivity|].
  rewrite H. reflexivity.
Defined.

Lemma io_events_app a b : io_events (a ++ b) = io_events a ++ io_events b.
Proof. apply filter_app. Qed.

Lemma io_events_render_log r : io_events (render_log r) = [].
Proof.
  destruct r as [|c m]; simpl; [reflexivity|]. now destruct (jsstring_eqb _ _).
Qed.

Lemma truthy_render_result w dir id :
  truthy (render_result w dir id)
  = match render_result w dir id with Some _ => true | None => false end.
Proof.
  unfold render_result. destruct (execFile w _ _); [|reflexivity].
  destruct (existsSync w _); [|reflexivity]. unfold join. simpl. now destruct dir.
Qed.

(** The rendering loop on a writable working directory, in full. *)
Lemma render_each_run w dir : forall ds acc st,
  working_dir w st = Some dir -> writable w dir ds ->
  exists st',
    render_each w ds acc st
    = (Returned
         (fold_left (fun m d => map_set Nat.eqb (fst (outcome_of w dir d))
                                        (snd (outcome_of w dir d)) m) ds acc),
       st')
    /\ shikiHighlighter st' = shikiHighlighter st
    /\ tempDir st' = match ds with [] => tempDir st | _ :: _ => Some dir end
    /\ exists evs,
         trace st' = trace st ++ evs
         /\ io_events evs
            = match ds with
              | [] => []
              | _ :: _ => if truthy (tempDir st) then [] else [EvMkdtemp (temp_prefix w)]
              end ++ flat_map (render_io w dir) ds.
Proof.
  induction ds as [|d rest IH]; intros acc st Hdir Hw.
  - exists st. simpl. repeat split; try reflexivity.
    exists []. now rewrite app_nil_r.
  - inversion Hw as [|? ? Hwd Hwrest]; subst.
    set (st0 := MkState (tempDir st) (shikiHighlighter st)
                        (trace st ++ [EvLog LDebug (js "Rendering mermaid diagram")])).
    assert (Hdir0 : working_dir w st0 = Some dir) by exact Hdir.
    pose proof (renderMermaidToSvg_run w st0 (mermaidCode d) (diagramId d) Hdir0 Hwd) as Hrun.
    cbn [render_each]. unfold bind at 1. unfold log at 1, emit at 1. fold st0.
    unfold bind at 1. rewrite Hrun. clear Hrun.
    rewrite truthy_render_result.
    match goal with
    | |- context [MkState (Some dir) ?h ?t] => set (st1 := MkState (Some dir) h t)
    end.
    assert (Hdir1 : forall l, working_dir w (MkState (tempDir st1) (shikiHighlighter st1)
                                                     (trace st1 ++ l)) = Some dir).
    { intros l. unfold working_dir. simpl tempDir.
      now rewrite (working_dir_nonempty w st Hdir). }
    destruct (render_result w dir (diagramId d)) as [p|] eqn:Hres.
    + unfold bind at 1, log at 1, emit at 1.
      destruct (IH (map_set Nat.eqb (startPos d) (diagramId d, p) acc) _
                   (Hdir1 [EvLog LInfo (js "Successfully rendered mermaid diagram")]) Hwrest)
        as (st' & Heq & Hh & Ht & evs & Htr & Hio).
      exists st'. split.
      { rewrite Heq. cbn [fold_left]. unfold outcome_of. cbn [fst snd]. rewrite Hres. reflexivity. }
      split; [exact Hh|]. split; [rewrite Ht; now destruct rest|].
      exists ([EvLog LDebug (js "Rendering mermaid diagram")]
                ++ (if truthy (tempDir st) then [] else [EvMkdtemp (temp_prefix w)])
                ++ render_io w dir d
                ++ render_log (execFile w (mmdcPath w) (mmdc_args dir (diagramId d)))
                ++ [EvLog LInfo (js "Successfully rendered mermaid diagram")] ++ evs).
      split.
      { rewrite Htr. subst st1 st0. unfold render_io. simpl. rewrite <- !app_assoc.
        reflexivity. }
      rewrite !io_events_app, io_events_render_log, Hio. simpl tempDir.
      rewrite (working_dir_nonempty w st Hdir). simpl.
      destruct rest; destruct (truthy (tempDir st)); reflexivity.
    + unfold bind at 1, log at 1, emit at 1.
      destruct (IH (map_set Nat.eqb (startPos d) (diagramId d, []) acc) _
                   (Hdir1 [EvLog LError (js "Failed to render mermaid diagram")]) Hwrest)
        as (st' & Heq & Hh & Ht & evs & Htr & Hio).
      exists st'. split.
      { rewrite Heq. cbn [fold_left]. unfold outcome_of. cbn [fst snd]. rewrite Hres. reflexivity. }
      split; [exact Hh|]. split; [rewrite Ht; now destruct rest|].
      exists ([EvLog LDebug (js "Rendering mermaid diagram")]
                ++ (if truthy (tempDir st) then [] else [EvMkdtemp (temp_prefix w)])
                ++ render_io w dir d
                ++ render_log (execFile w (mmdcPath w) (mmdc_args dir (diagramId d)))
                ++ [EvLog LError (js "Failed to render mermaid diagram")] ++ evs).
      split.
      { rewrite Htr. subst st1 st0. unfold render_io. simpl. rewrite <- !app_assoc.
        reflexivity. }
      rewrite !io_events_app, io_events_render_log, Hio. simpl tempDir.
      rewrite (working_dir_nonempty w st Hdir). simpl.
      destruct rest; destruct (truthy (tempDir st)); reflexivity.
Qed.

Lemma map_set_fresh_key V (k : nat) (v : V) m :
  ~ In k (map fst m) -> map_set Nat.eqb k v m = m ++ [(k, v)].
Proof.
  induction m as [|[k' v'] m IH]; simpl; intros Hk; [reflexivity|].
  destruct (Nat.eqb_spec k' k) as [E|E]; [tauto|].
  f_equal. apply IH. tauto.
Qed.

Lemma fold_map_set_fresh V (f : DiagramInfo -> nat * V) : forall ds acc,
  (forall d, fst (f d) = startPos d) ->
  NoDup (map fst acc ++ map startPos ds) ->
  fold_left (fun m d => map_set Nat.eqb (fst (f d)) (snd (f d)) m) ds acc
  = acc ++ map f ds.
Proof.
  induction ds as [|d ds IH]; intros acc Hf Hnd; simpl.
  - now rewrite app_nil_r.
  - rewrite map_set_fresh_key.
    + rewrite IH; [|assumption|].
      * rewrite <- app_assoc. simpl. now rewrite <- surjective_pairing.
      * rewrite map_app. simpl. rewrite <- app_assoc. simpl. now rewrite Hf.
    + rewrite Hf. apply NoDup_remove_2 in Hnd. intros Hin. apply Hnd.
      apply in_or_app. now left.
Qed.

(** X9: the rendering loop of [convert] over diagrams with pairwise
    distinct start offsets, all writable in the working directory: it
    returns an outcomes map with one entry per diagram, in the order of
    the diagrams, keyed by the start offset and holding the diagram id
    and the path of the SVG file, or the empty path when the rendering
    failed; it makes the temporary directory at most once, then writes
    and runs every diagram exactly once, in order and all in that one
    directory, and does nothing else to the world but log. *)
Theorem render_loop_once_each_in_order (w : World) (ds : list DiagramInfo)
        (st : State) (dir : jsstring) :
  working_dir w st = Some dir ->
  writable w dir ds ->
  NoDup (map startPos ds) ->
  exists st' evs,
    render_each w ds [] st = (Returned (map (outcome_of w dir) ds), st')
    /\ trace st' = trace st ++ evs
    /\ io_events evs
       = match ds with
         | [] => []
         | _ :: _ => if truthy (tempDir st) then [] else [EvMkdtemp (temp_prefix w)]
         end ++ flat_map (render_io w dir) ds
    /\ Forall (fun e => snd (snd e) = [] <->
                        exists d, In d ds /\ fst e = startPos d
                                  /\ render_result w dir (diagramId d) = None)
              (map (outcome_of w dir) ds).
Proof.
  intros Hdir Hw Hnd.
  destruct (@render_each_run w dir ds [] st Hdir Hw) as (st' & Heq & _ & _ & evs & Htr & Hio).
  exists st', evs. split; [|split; [exact Htr|split; [exact Hio|]]].
  - rewrite Heq. now rewrite (@fold_map_set_fresh _ (outcome_of w dir) ds []); auto.
  - rewrite Forall_forall. intros e He. apply in_map_iff in He.
    destruct He as (d & <- & Hd). simpl. split.
    + intros Hp. exists d. split; [assumption|]. split; [reflexivity|].
      pose proof (truthy_render_result w dir (diagramId d)) as Ht.
      destruct (render_result w dir (diagramId d)) as [p|]; [|reflexivity].
      subst p. discriminate Ht.
    + intros (d' & Hd' & Hs & Hr).
      assert (d' = d) as ->.
      { clear - Hnd Hd Hd' Hs. induction ds as [|x ds IH]; [destruct Hd|].
        inversion Hnd as [|? ? Hx Hnd']; subst.
        destruct Hd as [->|Hd], Hd' as [->|Hd']; auto.
        - exfalso. apply Hx. rewrite Hs. now apply in_map.
        - exfalso. apply Hx. rewrite <- Hs. now apply in_map. }
      now rewrite Hr.
Qed.

Lemma render_loop_once_each_in_order_witness :
  exists st' evs,
    render_each first_only_world
                [MkDiagram (js "diagram_0") (js "graph TD; A-->B") 8 40;
                 MkDiagram (js "diagram_1") (js "grph") 45 70] [] initial_state
    = (Returned [(8, (js "diagram_0", js "/tmp/md-to-html-Ab3xZ9/diagram_0.svg"));
                 (45, (js "diagram_1", []))], st')
    /\ trace st' = evs
    /\ io_events evs
       = [EvMkdtemp (js "/tmp/md-to-html-");
          EvWriteFile (js "/tmp/md-to-html-Ab3xZ9/diagram_0.mmd") (js "graph TD; A-->B");
          EvExecFile (js "node_modules/.bin/mmdc")
                     (mmdc_args (js "/tmp/md-to-html-Ab3xZ9") (js "diagram_0"));
          EvWriteFile (js "/tmp/md-to-html-Ab3xZ9/diagram_1.mmd") (js "grph");
          EvExecFile (js "node_modules/.bin/mmdc")
                     (mmdc_args (js "/tmp/md-to-html-Ab3xZ9") (js "diagram_1"))].
Proof.
  destruct (@render_loop_once_each_in_order first_only_world
              [MkDiagram (js "diagram_0") (js "graph TD; A-->B") 8 40;
               MkDiagram (js "diagram_1") (js "grph") 45 70]
              initial_state (js "/tmp/md-to-html-Ab3xZ9"))
    as (st' & evs & Heq & Htr & Hio & _).
  - reflexivity.
  - repeat constructor.
  - simpl. repeat constructor; simpl; intuition discriminate.
  - exists st', evs. split; [exact Heq|]. split; [exact Htr|]. exact Hio.
Defined.

(** X10: [cleanup] after a rendering removes exactly the directory the
    rendering worked in, logs whether that succeeded and forgets the
    directory either way; the next rendering then begins by making a
    directory anew, whatever becomes of it. *)
Theorem cleanup_after_render (w : World) (st : State) (code id dir : jsstring) :
  working_dir w st = Some dir ->
  writeFile w (join dir (id ++ js ".mmd")) code = true ->
  let st1 := snd (renderMermaidToSvg w code id st) in
  exists st2,
    cleanup w st1 = (Returned tt, st2)
    /\ tempDir st2 = None
    /\ trace st2
       = trace st1
           ++ [EvRm dir;
               if rm w dir
               then EvLog LDebug (js "Cleaned up temporary directory")
               else EvLog LWarn (js "Failed to clean up temporary directory")]
    /\ forall code' id',
       exists evs,
         trace (snd (renderMermaidToSvg w code' id' st2))
         = trace st2 ++ EvMkdtemp (temp_prefix w) :: evs.
Proof.
  intros Hdir Hwrite st1. subst st1.
  rewrite (renderMermaidToSvg_run w st code id Hdir Hwrite). cbn [snd].
  pose proof (working_dir_nonempty w st Hdir) as Hne.
  unfold cleanup, do_rm. unfold_monad. cbn [tempDir]. rewrite Hne. cbn [trace shikiHighlighter].
  destruct (rm w dir) eqn:Hrm; cbn [tempDir trace shikiHighlighter];
    (eexists; split; [reflexivity|]; split; [reflexivity|]; split;
     [cbn [trace]; rewrite <- !app_assoc; reflexivity|]);
    intros code' id'; unfold renderMermaidToSvg, do_mkdtemp, do_writeFile, do_execFile;
    unfold_monad; cbn [tempDir truthy trace shikiHighlighter]; unfold temp_prefix;
    destruct (mkdtemp w _) as [r|]; cbn [tempDir trace shikiHighlighter];
    try (eexists; cbn [snd trace]; reflexivity);
    destruct (writeFile w _ code'); cbn [tempDir trace shikiHighlighter];
    try (eexists; cbn [snd trace]; rewrite <- ?app_assoc; reflexivity);
    destruct (execFile w _ _); cbn [tempDir trace shikiHighlighter];
    try destruct (existsSync w _); try destruct (jsstring_eqb _ _);
    eexists; cbn [snd trace]; rewrite <- ?app_assoc; reflexivity.
Qed.

Lemma cleanup_after_render_witness :
  exists st2,
    cleanup timeout_world
            (snd (renderMermaidToSvg timeout_world (js "graph TD; A-->B") (js "diagram_0")
                                     initial_state))
    = (Returned tt, st2)
    /\ tempDir st2 = None
    /\ In (EvRm (js "/tmp/md-to-html-Ab3xZ9")) (trace st2).
Proof.
  destruct (@cleanup_after_render timeout_world initial_state (js "graph TD; A-->B")
              (js "diagram_0") (js "/tmp/md-to-html-Ab3xZ9"))
    as (st2 & Heq & Hnone & Htr & _); [reflexivity|reflexivity|].
  exists st2. split; [exact Heq|]. split; [exact Hnone|].
  rewrite Htr. apply in_or_app. right. now left.
Defined.

(** ** The extractor and the assembler scan alike *)

Lemma same_span_fallback a a' b b' :
  same_span a a' -> same_span b b' ->
  same_span (match a with Some r => Some r | None => b end)
            (match a' with Some r => Some r | None => b' end).
Proof.
  unfold same_span. destruct a, a'; simpl; intros Ha Hb; try discriminate; auto.
Qed.

Lemma star_greedy_same_span p k k' :
  cont_same_span k k' ->
  forall s pos caps caps',
    same_span (star_greedy p pos s caps k) (star_greedy p pos s caps' k').
Proof.
  intros Hk. induction s as [|c s IH]; intros pos caps caps'; simpl; [apply Hk|].
  destruct (p c); [|apply Hk]. apply same_span_fallback; [apply IH|apply Hk].
Qed.

Lemma star_lazy_same_span p k k' :
  cont_same_span k k' ->
  forall s pos caps caps',
    same_span (star_lazy p pos s caps k) (star_lazy p pos s caps' k').
Proof.
  intros Hk. induction s as [|c s IH]; intros pos caps caps'; simpl.
  - apply same_span_fallback; [apply Hk|reflexivity].
  - apply same_span_fallback; [apply Hk|]. destruct (p c); [apply IH|reflexivity].
Qed.

Lemma run_ungroup r : forall k k',
  cont_same_span k k' ->
  forall pos s caps caps',
    same_span (run r pos s caps k) (run (ungroup r) pos s caps' k').
Proof.
  induction r as [l|p|g p|r IH|r1 IH1 r2 IH2|]; intros k k' Hk pos s caps caps'; simpl.
  - destruct (strip_prefix l s); [apply Hk|reflexivity].
  - destruct s as [|c s]; [reflexivity|]. destruct (p c); [apply Hk|reflexivity].
  - destruct g; [now apply star_greedy_same_span|now apply star_lazy_same_span].
  - apply IH. intros pos' s' c c'. apply Hk.
  - apply IH1. intros pos' s' c c'. now apply IH2.
  - destruct s; [apply Hk|reflexivity].
Qed.

Lemma match_here_ungroup r pos s :
  same_span (match_here r pos s) (match_here (ungroup r) pos s).
Proof.
  unfold match_here. apply run_ungroup. intros pos' s' c c'. reflexivity.
Qed.

Lemma search_ungroup r : forall s pos,
  same_span (search r pos s) (search (ungroup r) pos s).
Proof.
  induction s as [|c s IH]; intros pos; simpl;
    apply same_span_fallback; try apply match_here_ungroup; [reflexivity|apply IH].
Qed.

Lemma exec_ungroup r text lastIndex :
  same_span (fst (exec r text lastIndex)) (fst (exec (ungroup r) text lastIndex))
  /\ snd (exec r text lastIndex) = snd (exec (ungroup r) text lastIndex).
Proof.
  unfold exec. destruct (length text <? lastIndex); [now split|].
  pose proof (search_ungroup r (skipn lastIndex text) lastIndex) as H.
  unfold same_span in *.
  destruct (search r _ _) as [m|], (search (ungroup r) _ _) as [m'|];
    simpl in *; try discriminate; [|now split].
  split; [assumption|]. unfold match_end. unfold span in H.
  inversion H as [[Hi Hm]]. reflexivity.
Qed.

Lemma scan_from_ungroup r text : forall fuel lastIndex,
  map span (scan_from fuel r text lastIndex)
  = map span (scan_from fuel (ungroup r) text lastIndex).
Proof.
  induction fuel as [|fuel IH]; intros lastIndex; simpl; [reflexivity|].
  destruct (exec_ungroup r text lastIndex) as (H1 & H2). unfold same_span in H1.
  destruct (exec r text lastIndex) as [[m|] li],
           (exec (ungroup r) text lastIndex) as [[m'|] li'];
    simpl in *; try discriminate; [|reflexivity].
  subst li'. rewrite IH. f_equal. unfold span in *. congruence.
Qed.

Lemma fences_spans_agree md : map span (fences md) = map span (fence_spans md).
Proof. unfold fences, fence_spans. apply (scan_from_ungroup mermaidPattern). Qed.

Lemma find_sorted_index : forall l m,
  StronglySorted (fun a b => match_end a <= index b) l ->
  Forall (fun a => matched a <> []) l ->
  In m l -> find (fun x => index x =? index m) l = Some m.
Proof.
  induction l as [|a l IH]; intros m Hs Hne Hin; [destruct Hin|].
  inversion Hs as [|? ? Hs' Ha]; subst. inversion Hne as [|? ? Hna Hne']; subst.
  simpl. destruct (Nat.eqb_spec (index a) (index m)) as [E|E].
  - destruct Hin as [->|Hin]; [reflexivity|]. exfalso.
    rewrite Forall_forall in Ha. specialize (Ha _ Hin). unfold match_end in Ha.
    destruct (matched a); [now apply Hna|]. simpl in Ha. lia.
  - destruct Hin as [->|Hin]; [congruence|]. now apply IH.
Qed.

Lemma fence_spans_nonempty md : Forall (fun a => matched a <> []) (fence_spans md).
Proof.
  rewrite Forall_forall. intros m' Hin.
  apply (in_map span) in Hin. rewrite <- fences_spans_agree in Hin.
  apply in_map_iff in Hin. destruct Hin as (m & Hsp & Hm).
  pose proof (fence_min_length md m Hm) as Hl.
  assert (Hmm : matched m = matched m') by (unfold span in Hsp; congruence).
  intros E. rewrite Hmm, E in Hl. simpl in Hl. lia.
Qed.

(** The assembler finds the fence of a record at the record's offset. *)
Lemma fence_at_fence md m :
  In m (fences md) ->
  exists m', fence_at md (index m) = Some m' /\ span m' = span m.
Proof.
  intros Hin. apply (in_map span) in Hin. rewrite fences_spans_agree in Hin.
  apply in_map_iff in Hin. destruct Hin as (m' & Hsp & Hm').
  exists m'. split; [|assumption]. unfold fence_at.
  assert (Hi : index m' = index m) by (unfold span in Hsp; congruence).
  rewrite <- Hi.
  apply find_sorted_index; [apply fence_spans_ordered|apply fence_spans_nonempty|assumption].
Qed.

Lemma replacement_of_record md i m v :
  In m (fences md) ->
  replacement_of md (index m, (js "diagram_" ++ decimal i, v)) = [splice_of (record_of i m)].
Proof.
  intros Hin. destruct (fence_at_fence md m Hin) as (m' & Hf & Hsp).
  unfold replacement_of, splice_of. cbn [fst snd]. rewrite Hf.
  unfold span in Hsp.
  cbn [startPos endPos diagramId record_of]. unfold match_end. congruence.
Qed.

Lemma fences_starts_increasing md :
  StronglySorted (fun a b => index a < index b) (fences md).
Proof.
  destruct (fences_ordered md) as (Hs & _).
  eapply StronglySorted_refine; [exact Hs|].
  intros a b Ha _ Hab. pose proof (fence_min_length md a Ha).
  unfold match_end in Hab. lia.
Qed.

Lemma StronglySorted_sublist_tail A (R : A -> A -> Prop) a l :
  StronglySorted R (a :: l) -> StronglySorted R l.
Proof. now inversion 1. Qed.

Lemma StronglySorted_snoc A (R : A -> A -> Prop) l x :
  StronglySorted R l -> Forall (fun y => R y x) l -> StronglySorted R (l ++ [x]).
Proof.
  induction 1 as [|a l Hs IH Ha]; intros Hx; simpl.
  - constructor; constructor.
  - inversion Hx; subst. constructor; [now apply IH|].
    apply Forall_app. split; [assumption|]. now constructor.
Qed.

Lemma StronglySorted_rev A (R : A -> A -> Prop) l :
  StronglySorted R l -> StronglySorted (fun a b => R b a) (rev l).
Proof.
  induction 1 as [|a l Hs IH Ha]; simpl; [constructor|].
  apply StronglySorted_snoc; [assumption|]. now apply Forall_rev.
Qed.

Lemma records_from_splices_sorted : forall ms i,
  StronglySorted (fun a b => index a < index b) ms ->
  StronglySorted (fun a b => start a < start b) (map splice_of (records_from i ms)).
Proof.
  induction ms as [|m ms IH]; intros i Hs; simpl; [constructor|].
  inversion Hs as [|? ? Hs' Hm]; subst. constructor; [now apply IH|].
  rewrite Forall_forall in *. intros r Hr. apply in_map_iff in Hr.
  destruct Hr as (d & <- & Hd). apply records_from_In in Hd.
  destruct Hd as (j & m' & Hj & ->). apply nth_error_In in Hj. simpl.
  now apply Hm.
Qed.

Lemma sort_desc_ascending l :
  StronglySorted (fun a b => start a < start b) l -> sort_desc l = rev l.
Proof.
  intros Hs. apply strict_desc_unique.
  - apply sort_desc_strict. apply StronglySorted_lt_NoDup.
    now apply StronglySorted_map.
  - now apply StronglySorted_rev in Hs.
  - etransitivity; [apply sort_desc_perm|apply Permutation_rev].
Qed.

(** What the assembler makes of the outcomes of the records of [ms]. *)
Lemma entries_of_records w md : forall ms i entries,
  (forall m, In m ms -> In m (fences md)) ->
  outcomes_for (records_from i ms) entries ->
  replacements_of md entries = map splice_of (records_from i ms)
  /\ bindings_of w md entries = map (binding w) entries.
Proof.
  unfold outcomes_for, replacements_of, bindings_of.
  induction ms as [|m ms IH]; intros i entries Hin Ho; cbn [records_from map] in *.
  - destruct entries; [now split|discriminate].
  - destruct entries as [|[k [id v]] entries]; [discriminate|].
    cbn [map fst snd record_of startPos diagramId] in Ho.
    assert (Hk : k = index m) by now inversion Ho.
    assert (Hid : id = js "diagram_" ++ decimal i) by now inversion Ho.
    assert (Hrest : map (fun e : nat * (jsstring * jsstring) => (fst e, fst (snd e))) entries
                    = map (fun d => (startPos d, diagramId d)) (records_from (S i) ms))
      by now inversion Ho.
    clear Ho. subst k id.
    destruct (IH (S i) entries (fun x Hx => Hin x (or_intror Hx)) Hrest) as (IH1 & IH2).
    cbn [flat_map map]. rewrite IH1, IH2. split.
    + pose proof (@replacement_of_record md i m v (Hin m (or_introl eq_refl))) as Hm.
      unfold jsstring, codeunit in *. now rewrite Hm.
    + f_equal. unfold binding_of, binding. cbn [fst snd].
      destruct (@fence_at_fence md m (Hin m (or_introl eq_refl))) as (m' & -> & _).
      reflexivity.
Qed.

(** X11: the assembler, which scans the text again with a pattern of its
    own, finds every diagram the extractor recorded: for an outcomes map
    made of the extractor's records it binds one placeholder per entry
    and collects exactly the splices of the records, in order, whatever
    the paths; it reads and logs on the way and does nothing else; and
    applying the splices leaves the text with each fence replaced by its
    token and everything else kept. *)
Theorem assembler_finds_every_record (w : World) (md : jsstring) (fuel : nat)
        (ds : list DiagramInfo) (entries : ImageReplacements) (st : State) :
  extractMermaidDiagrams fuel md = Some ds ->
  outcomes_for ds entries ->
  exists st',
    replace_entries w (S (length md)) md entries ([], []) st
      = (Returned (map (binding w) entries, map splice_of ds), st')
    /\ only_reads_and_logs st st'
    /\ apply_replacements md (map splice_of ds)
       = assemble_to md 0 (map splice_of ds) (length md).
Proof.
  intros He Ho. destruct (extract_returned _ _ He) as (_ & -> & _).
  destruct (@entries_of_records w md (fences md) 0 entries (fun m H => H) Ho) as (Hr & Hb).
  pose proof (@records_from_splices_sorted (fences md) 0 (fences_starts_increasing md)) as Hs.
  assert (Hids : NoDup (ids_of entries)).
  { unfold ids_of. unfold outcomes_for in Ho. apply (f_equal (map snd)) in Ho.
    rewrite !map_map in Ho. cbn [snd] in Ho. rewrite Ho.
    change (map (fun d => diagramId d) (records_from 0 (fences md)))
      with (map diagramId (records_from 0 (fences md))).
    rewrite records_from_ids. apply NoDup_map_injective; [|apply seq_NoDup].
    intros x y Hxy. apply app_inv_head in Hxy. now apply decimal_inj. }
  assert (Hkeys : NoDup (map fst entries)).
  { unfold outcomes_for in Ho. apply (f_equal (map fst)) in Ho.
    rewrite !map_map in Ho. cbn [fst] in Ho.
    change (map (fun e : nat * (jsstring * jsstring) => fst e) entries)
      with (map fst entries) in Ho. rewrite Ho.
    change (map (fun d => startPos d) (records_from 0 (fences md)))
      with (map startPos (records_from 0 (fences md))).
    rewrite records_from_starts. apply StronglySorted_lt_NoDup, StronglySorted_map.
    apply fences_starts_increasing. }
  destruct (@replace_entries_spec w (S (length md)) md entries [] [] st (Nat.lt_succ_diag_r _))
    as (st' & Heq & Hlog).
  exists st'. split; [|split; [exact Hlog|]].
  - rewrite Heq. rewrite fold_bind_entry_fresh; [|assumption|intros e _ []].
    simpl. now rewrite Hr, Hb.
  - rewrite <- Hr at 1. rewrite (@apply_replacements_in_place md entries Hkeys).
    unfold with_tokens. rewrite Hr, (sort_desc_ascending Hs). now rewrite rev_involutive.
Qed.

Lemma assembler_finds_every_record_witness :
  exists st',
    replace_entries plain_world (S (length two_diagrams_md)) two_diagrams_md
                    [(8, (js "diagram_0", js "/t/diagram_0.svg"));
                     (40, (js "diagram_1", []))] ([], []) initial_state
    = (Returned
         ([(js "MERMAID_PLACEHOLDER_diagram_0",
            js "<div style=" ++ dquote ++ js "max-width: 100%; margin: 1em 0;" ++ dquote
               ++ js ">Hello</div>");
           (js "MERMAID_PLACEHOLDER_diagram_1", RENDERING_FAILED)],
          [Replacement.Make 8 35 (js "MERMAID_PLACEHOLDER_diagram_0");
           Replacement.Make 40 55 (js "MERMAID_PLACEHOLDER_diagram_1")]), st')
    /\ apply_replacements two_diagrams_md
         [Replacement.Make 8 35 (js "MERMAID_PLACEHOLDER_diagram_0");
          Replacement.Make 40 55 (js "MERMAID_PLACEHOLDER_diagram_1")]
       = js "# Title" ++ newline ++ js "MERMAID_PLACEHOLDER_diagram_0 and MERMAID_PLACEHOLDER_diagram_1".
Proof.
  destruct (extractMermaidDiagrams 100 two_diagrams_md) as [ds|] eqn:E;
    [|vm_compute in E; discriminate E].
  destruct (@assembler_finds_every_record plain_world two_diagrams_md 100 ds
              [(8, (js "diagram_0", js "/t/diagram_0.svg")); (40, (js "diagram_1", []))]
              initial_state E) as (st' & Heq & _ & Happ).
  - vm_compute in E. inversion E. reflexivity.
  - vm_compute in E. inversion E; subst ds. exists st'. split.
    + exact Heq.
    + refine (eq_trans Happ _). reflexivity.
Defined.

(** ** The highlighter sub-stage *)

Lemma pending_code_blocks text :
  forall mt lastIndex, exec codeBlockPattern text 0 = (mt, lastIndex) ->
  pending codeBlockPattern text lastIndex mt (code_blocks text).
Proof.
  intros. apply scan_from_pending; auto using codeBlockPattern_progressing; lia.
Qed.

Lemma code_blocks_length text : length (code_blocks text) <= length text.
Proof.
  destruct (exec codeBlockPattern text 0) as [mt li] eqn:He.
  pose proof (pending_code_blocks text He) as Hp.
  pose proof (pending_length codeBlockPattern_progressing Hp) as G.
  destruct mt as [m|].
  - pose proof (codeBlockPattern_progressing _ _ He).
    pose proof (exec_shape _ _ _ He) as (? & ? & ? & _).
    assert (length (code_blocks text) + (li - 1) <= length text).
    { apply G. intros ? E. inversion E; subst. lia. }
    lia.
  - assert (length (code_blocks text) + length text <= length text).
    { apply G. intros ? E. discriminate E. }
    lia.
Qed.

Lemma collect_loop_blocks text : forall lastIndex mt ms,
  pending codeBlockPattern text lastIndex mt ms ->
  forall fuel acc i, length ms < fuel ->
  collect_loop fuel text lastIndex mt acc i = Some (acc ++ blocks_from i ms).
Proof.
  induction 1 as [|li m mt' li' ms He H IH]; intros fuel acc i Hfuel.
  - destruct fuel; [simpl in Hfuel; lia|]. simpl. now rewrite app_nil_r.
  - destruct fuel as [|fuel]; [simpl in Hfuel; lia|].
    cbn [collect_loop]. rewrite He. rewrite IH by (simpl in Hfuel; lia).
    rewrite <- app_assoc. reflexivity.
Qed.

Lemma collect_code_blocks_blocks text fuel :
  length text < fuel ->
  collect_code_blocks fuel text = Some (blocks_from 0 (code_blocks text)).
Proof.
  intros Hfuel. unfold collect_code_blocks.
  destruct (exec codeBlockPattern text 0) as [mt li] eqn:He.
  rewrite (collect_loop_blocks (pending_code_blocks text He)); [reflexivity|].
  pose proof (code_blocks_length text). lia.
Qed.

Lemma blocks_from_placeholders ms : forall i,
  placeholders_of (blocks_from i ms)
  = map (fun k => js "CODE_BLOCK_PLACEHOLDER_" ++ decimal k) (seq i (length ms)).
Proof.
  unfold placeholders_of.
  induction ms as [|m ms IH]; intros i; simpl; [reflexivity|]. now rewrite IH.
Qed.

Lemma length_blocks_from ms : forall i, length (blocks_from i ms) = length ms.
Proof. induction ms as [|m ms IH]; intros i; simpl; [reflexivity|]. now rewrite IH. Qed.

Lemma blocks_from_In ms : forall i b,
  In b (blocks_from i ms) -> exists j m, In m ms /\ b = block_of j m.
Proof.
  induction ms as [|m ms IH]; intros i b Hb; [destruct Hb|].
  destruct Hb as [<-|Hb].
  - exists i, m. split; [now left|reflexivity].
  - destruct (IH _ _ Hb) as (j & m' & Hm' & ->). exists j, m'. split; [now right|reflexivity].
Qed.

Lemma pending_exec r text (P : rmatch -> Prop) :
  (forall lastIndex m lastIndex',
     exec r text lastIndex = (Some m, lastIndex') -> P m) ->
  forall lastIndex mt ms,
    pending r text lastIndex mt ms ->
    (forall m, mt = Some m -> P m) -> Forall P ms.
Proof.
  intros HP. induction 1 as [|li m mt' li' ms He H IH]; intros Hm; constructor.
  - now apply Hm.
  - apply IH. intros m' ->. eapply HP. exact He.
Qed.

(** X12: the first loop of [highlightCodeBlocks] ends on every HTML text
    and numbers the code blocks it finds from zero, in text order: the
    placeholders are [CODE_BLOCK_PLACEHOLDER_0], [..._1], ..., pairwise
    distinct, and the [fullMatch] of every block is a piece of the text,
    so that the replacement of a block by its placeholder finds it. *)
Theorem code_blocks_numbered (text : jsstring) (fuel : nat) :
  length text < fuel ->
  exists bs,
    collect_code_blocks fuel text = Some bs
    /\ placeholders_of bs
       = map (fun k => js "CODE_BLOCK_PLACEHOLDER_" ++ decimal k) (seq 0 (length bs))
    /\ NoDup (placeholders_of bs)
    /\ Forall (fun b => exists j, occurs_at (fullMatch b) text j
                                  /\ index_of (fullMatch b) text <> None) bs.
Proof.
  intros Hfuel. exists (blocks_from 0 (code_blocks text)).
  split; [now apply collect_code_blocks_blocks|]. split; [|split].
  - rewrite length_blocks_from. apply blocks_from_placeholders.
  - rewrite blocks_from_placeholders. apply NoDup_map_injective; [|apply seq_NoDup].
    intros x y Hxy. apply app_inv_head in Hxy. now apply decimal_inj.
  - rewrite Forall_forall. intros b Hb.
    destruct (blocks_from_In _ _ _ Hb) as (j & m & Hm & ->). cbn [fullMatch block_of].
    assert (Hall : Forall (fun m => matched m = slice text (index m) (match_end m)
                                    /\ match_end m <= length text)
                          (code_blocks text)).
    { destruct (exec codeBlockPattern text 0) as [mt li] eqn:He.
      apply (@pending_exec codeBlockPattern text _) with (lastIndex := li) (mt := mt).
      - intros li0 m0 li0' H0. apply exec_shape in H0. tauto.
      - now apply pending_code_blocks.
      - intros m0 ->. apply exec_shape in He. tauto. }
    rewrite Forall_forall in Hall. destruct (Hall _ Hm) as (Hsl & Hend).
    assert (Hocc : occurs_at (matched m) text (index m)).
    { exists (skipn (match_end m - index m) (skipn (index m) text)).
      rewrite Hsl. unfold slice. apply strip_prefix_iff.
      now rewrite firstn_skipn. }
    exists (index m). split; [exact Hocc|].
    intros Habs. unfold index_of in Habs.
    exact (@index_of_from_None (matched m) text 0 Habs (index m) Hocc).
Qed.

Lemma code_blocks_numbered_witness :
  exists bs,
    collect_code_blocks 200 two_blocks_html = Some bs
    /\ placeholders_of bs = [js "CODE_BLOCK_PLACEHOLDER_0"; js "CODE_BLOCK_PLACEHOLDER_1"]
    /\ map language bs = [js "js"; js "Rust"].
Proof.
  destruct (@code_blocks_numbered two_blocks_html 200) as (bs & Heq & Hp & _).
  - vm_compute. lia.
  - exists bs. split; [exact Heq|].
    assert (Hbs : Some bs = Some (blocks_from 0 (code_blocks two_blocks_html))).
    { rewrite <- Heq. vm_compute. reflexivity. }
    inversion Hbs; subst bs. split; vm_compute; reflexivity.
Defined.

(** X13: the Shiki highlighter is created on first need and kept: a call
    of [getShikiHighlighter] that returns leaves the highlighter in the
    instance, and every later call returns that same highlighter without
    creating one, without a log line and without any change of state;
    a call that throws found none, could not create one and leaves none,
    so that the next call tries again. *)
Theorem highlighter_created_once (w : World) (st : State) :
  match getShikiHighlighter w st with
  | (Returned hl, st1) =>
      shikiHighlighter st1 = Some hl
      /\ (shikiHighlighter st = Some hl \/
          (shikiHighlighter st = None /\ createHighlighter w = inl hl))
      /\ forall w', getShikiHighlighter w' st1 = (Returned hl, st1)
  | (Thrown e, st1) =>
      shikiHighlighter st = None /\ shikiHighlighter st1 = None
      /\ exists msg, createHighlighter w = inr msg
           /\ e = Error (js "Failed to initialize Shiki highlighter: " ++ msg)
  | (OutOfFuel, _) => False
  end.
Proof.
  unfold getShikiHighlighter. unfold_monad. simpl.
  destruct (shikiHighlighter st) as [hl|] eqn:Hs.
  - split; [assumption|]. split; [now left|]. intros w'. now rewrite Hs.
  - destruct (createHighlighter w) as [hl|msg] eqn:Hc; simpl.
    + split; [reflexivity|]. split; [right; now split|]. intros w'. reflexivity.
    + split; [reflexivity|]. split; [exact Hs|]. now exists msg.
Qed.

Lemma collect_no_code_block text fuel :
  index_of (js "<pre><code") text = None -> 0 < fuel ->
  collect_code_blocks fuel text = Some [].
Proof.
  intros H Hf. unfold collect_code_blocks, exec.
  change (length text <? 0) with false. cbn [skipn]. unfold codeBlockPattern.
  rewrite (@search_literal_absent (js "<pre><code") _ text 0 H).
  destruct fuel; [lia|]. reflexivity.
Qed.

(** X14: on an HTML text in which [<pre><code] does not occur,
    [highlightCodeBlocks] returns the text as it is, with no styles, and
    touches nothing: the highlighter is not created and nothing is
    logged. *)
Theorem highlight_without_code_blocks (w : World) (fuel : nat) (text : jsstring)
        (st : State) :
  index_of (js "<pre><code") text = None -> 0 < fuel ->
  highlightCodeBlocks w fuel text st = (Returned (MkHighlightResult text []), st).
Proof.
  intros H Hf. unfold highlightCodeBlocks.
  now rewrite (@collect_no_code_block text fuel H Hf).
Qed.

Lemma highlight_without_code_blocks_witness :
  highlightCodeBlocks broken_shiki_world 1 (js "<p>Hello <code>x</code></p>") initial_state
  = (Returned (MkHighlightResult (js "<p>Hello <code>x</code></p>") []), initial_state).
Proof.
  apply (@highlight_without_code_blocks broken_shiki_world 1
           (js "<p>Hello <code>x</code></p>") initial_state); [reflexivity|lia].
Defined.

Lemma highlight_each_logs hl all : forall rest acc st,
  exists res st' evs,
    highlight_each hl all rest acc st = (Returned res, st')
    /\ tempDir st' = tempDir st /\ shikiHighlighter st' = shikiHighlighter st
    /\ trace st' = trace st ++ evs /\ only_logs evs
    /\ length evs
       = length (filter (fun cb => match hl (code cb) (normalizeLanguage (language cb)) with
                                   | Some _ => false | None => true end) rest).
Proof.
  induction rest as [|cb rest IH]; intros acc st; cbn [highlight_each filter].
  - exists acc, st, []. rewrite app_nil_r. repeat split; constructor.
  - destruct (hl (code cb) (normalizeLanguage (language cb))); [apply IH|].
    unfold bind at 1, log at 1, emit at 1.
    match goal with
    | |- context [highlight_each hl all rest ?a ?s] =>
        destruct (IH a s) as (res & st' & evs & Heq & Ht & Hh & Htr & Hl & Hn)
    end.
    exists res, st', (EvLog LWarn (js "Failed to highlight code block, using plain code") :: evs).
    split; [exact Heq|]. split; [exact Ht|]. split; [exact Hh|]. split.
    + rewrite Htr. simpl. now rewrite <- app_assoc.
    + split; [constructor; [reflexivity|exact Hl]|]. simpl. now rewrite Hn.
Qed.

Lemma getShikiHighlighter_run w st :
  exists evs,
    only_logs evs
    /\ match getShikiHighlighter w st with
       | (Returned hl, st1) =>
           tempDir st1 = tempDir st /\ trace st1 = trace st ++ evs
           /\ shikiHighlighter st1 = Some hl
           /\ (shikiHighlighter st = Some hl
               \/ (shikiHighlighter st = None /\ createHighlighter w = inl hl))
       | (Thrown e, st1) =>
           tempDir st1 = tempDir st /\ trace st1 = trace st ++ evs
           /\ shikiHighlighter st = None /\ shikiHighlighter st1 = None
           /\ exists msg, createHighlighter w = inr msg
                /\ e = Error (js "Failed to initialize Shiki highlighter: " ++ msg)
       | (OutOfFuel, _) => False
       end.
Proof.
  unfold getShikiHighlighter. unfold_monad. simpl.
  destruct (shikiHighlighter st) as [hl|] eqn:Hs.
  - exists []. split; [constructor|]. rewrite app_nil_r. repeat split; auto.
  - destruct (createHighlighter w) as [hl|msg] eqn:Hc; simpl.
    + exists [EvLog LDebug (js "Initializing Shiki highlighter");
              EvLog LDebug (js "Shiki highlighter initialized successfully")].
      split; [repeat constructor|]. rewrite <- app_assoc. repeat split; auto.
    + exists [EvLog LDebug (js "Initializing Shiki highlighter");
              EvLog LError (js "Failed to initialize Shiki highlighter")].
      split; [repeat constructor|]. rewrite <- app_assoc.
      split; [reflexivity|]. split; [reflexivity|]. split; [reflexivity|].
      split; [exact Hs|]. now exists msg.
Qed.

(** X15: [highlightCodeBlocks] does nothing to the world but log, and a
    block that cannot be highlighted never makes it fail: on every HTML
    text it either returns, with no styles, or throws the one error of a
    highlighter that could not be created; with a highlighter at hand it
    returns and keeps it; the renderer's directory is left alone. *)
Theorem highlight_logs_only (w : World) (fuel : nat) (text : jsstring) (st : State) :
  length text < fuel ->
  exists o st' evs,
    highlightCodeBlocks w fuel text st = (o, st')
    /\ tempDir st' = tempDir st
    /\ trace st' = trace st ++ evs /\ only_logs evs
    /\ match o with
       | Returned res =>
           styles res = []
           /\ (shikiHighlighter st' = shikiHighlighter st
               \/ (shikiHighlighter st = None
                   /\ exists hl, createHighlighter w = inl hl
                                 /\ shikiHighlighter st' = Some hl))
       | Thrown e =>
           shikiHighlighter st = None /\ shikiHighlighter st' = None
           /\ exists msg, createHighlighter w = inr msg
                /\ e = Error (js "Failed to initialize Shiki highlighter: " ++ msg)
       | OutOfFuel => False
       end.
Proof.
  intros Hfuel. unfold highlightCodeBlocks.
  rewrite (@collect_code_blocks_blocks text fuel Hfuel).
  set (bs := blocks_from 0 (code_blocks text)).
  destruct (length bs =? 0).
  { exists (Returned (MkHighlightResult text [])), st, []. rewrite app_nil_r.
    split; [reflexivity|]. split; [reflexivity|]. split; [reflexivity|].
    split; [constructor|]. split; [reflexivity|]. now left. }
  unfold bind at 1.
  destruct (getShikiHighlighter_run w st) as (evs0 & Hl0 & Hg).
  destruct (getShikiHighlighter w st) as [[hl|e|] st1]; [| |destruct Hg].
  - destruct Hg as (Ht1 & Htr1 & Hh1 & Hfrom).
    destruct (highlight_each_logs hl bs bs [] st1)
      as (res & st2 & evs & Heq & Ht & Hh & Htr & Hl & _).
    unfold bind at 1. rewrite Heq. unfold bind at 1, log at 1, emit at 1, ret at 1.
    eexists. eexists.
    exists (evs0 ++ evs ++ [EvLog LDebug (js "Code block highlighting completed")]).
    split; [reflexivity|]. cbn [tempDir trace shikiHighlighter styles].
    split; [congruence|]. split; [rewrite Htr, Htr1; now rewrite <- !app_assoc|].
    split; [repeat (apply Forall_app; split); auto; repeat constructor|].
    split; [reflexivity|].
    destruct Hfrom as [Hs|(Hs & Hc)]; [left; congruence|].
    right. split; [exact Hs|]. exists hl. split; [exact Hc|congruence].
  - destruct Hg as (Ht1 & Htr1 & Hs & Hs1 & msg & Hc & ->).
    eexists. eexists. exists evs0. split; [reflexivity|].
    split; [exact Ht1|]. split; [exact Htr1|]. split; [exact Hl0|].
    split; [exact Hs|]. split; [exact Hs1|]. now exists msg.
Qed.

Lemma highlight_logs_only_witness :
  exists st',
    highlightCodeBlocks broken_shiki_world 200 two_blocks_html initial_state
    = (Thrown (Error (js "Failed to initialize Shiki highlighter: Cannot load theme")), st')
    /\ only_logs (trace st').
Proof.
  destruct (@highlight_logs_only broken_shiki_world 200 two_blocks_html initial_state)
    as (o & st' & evs & Heq & _ & Htr & Hl & Ho).
  - vm_compute. lia.
  - exists st'. destruct o as [res|e|].
    + exfalso. vm_compute in Heq. discriminate Heq.
    + destruct Ho as (_ & _ & msg & Hc & ->). inversion Hc; subst msg.
      split; [exact Heq|]. rewrite Htr. exact Hl.
    + destruct Ho.
Defined.

(** ** HTML entities *)

Lemma strip_prefix_head c l s :
  ~ In c s -> strip_prefix (c :: l) s = None.
Proof.
  destruct s as [|x s]; simpl; [reflexivity|]. intros H.
  destruct (N.eqb_spec c x); [|reflexivity]. exfalso. apply H. now left.
Qed.

Lemma replace_regex_from_absent g c l text rep : forall s pos,
  ~ In c s ->
  replace_regex_from g (Lit (c :: l)) text rep pos s 0 false = s.
Proof.
  induction s as [|x s IH]; intros pos H.
  - reflexivity.
  - cbn [replace_regex_from]. unfold match_here. cbn [run].
    rewrite (@strip_prefix_head c l (x :: s) H). f_equal. apply IH. intros Hin. apply H. now right.
Qed.

Lemma replace_regex_absent g c l text rep :
  ~ In c text -> replace_regex g (Lit (c :: l)) text rep = text.
Proof. intros H. unfold replace_regex. now apply replace_regex_from_absent. Qed.

(** X16: [decodeHtmlEntities] leaves a text without an ampersand as it
    is. *)
Theorem decode_without_ampersand (s : jsstring) :
  ~ In 38%N s -> decodeHtmlEntities s = s.
Proof.
  intros H. unfold decodeHtmlEntities. cbv zeta.
  change (js "&lt;") with (38%N :: js "lt;").
  change (js "&gt;") with (38%N :: js "gt;").
  change (js "&amp;") with (38%N :: js "amp;").
  change (js "&quot;") with (38%N :: js "quot;").
  change (js "&#39;") with (38%N :: js "#39;").
  rewrite !(fun g l rep => @replace_regex_absent g 38%N l s rep H). reflexivity.
Qed.

Lemma decode_without_ampersand_witness :
  decodeHtmlEntities (js "let x = 1; // <b> 'q'") = js "let x = 1; // <b> 'q'".
Proof.
  apply (@decode_without_ampersand (js "let x = 1; // <b> 'q'")).
  vm_compute. intuition discriminate.
Defined.

Lemma match_here_Lit l pos s :
  match_here (Lit l) pos s
  = match strip_prefix l s with
    | Some _ => Some (MkMatch pos l [])
    | None => None
    end.
Proof.
  unfold match_here. cbn [run]. destruct (strip_prefix l s) as [s'|] eqn:E; [|reflexivity].
  apply strip_prefix_Some in E. subst s. f_equal. f_equal.
  replace (pos + length l - pos) with (length l) by lia.
  now rewrite firstn_app, firstn_all, Nat.sub_diag, firstn_O, app_nil_r.
Qed.

Lemma replace_regex_from_length g l text rep :
  l <> [] -> ~ In dollar rep -> length rep <= length l ->
  forall s pos skip done,
    skip <= length s ->
    length (replace_regex_from g (Lit l) text rep pos s skip done) + skip <= length s.
Proof.
  intros Hl Hd Hrep. induction s as [|c s IH]; intros pos skip done Hskip.
  - cbn [replace_regex_from]. destruct done; [simpl in *; lia|].
    rewrite match_here_Lit. destruct l; [contradiction|]. simpl in *. lia.
  - cbn [replace_regex_from]. destruct skip as [|k].
    + destruct done.
      * simpl. specialize (IH (S pos) 0 true). simpl in IH. lia.
      * rewrite match_here_Lit. destruct (strip_prefix l (c :: s)) as [s'|] eqn:E.
        -- cbn [matched]. rewrite get_substitution_plain by assumption.
           apply strip_prefix_Some in E.
           destruct l as [|a l']; [contradiction|]. cbn [length].
           assert (Hk : length l' <= length s).
           { apply (f_equal (@length _)) in E. rewrite length_app in E. simpl in E. lia. }
           rewrite length_app.
           specialize (IH (S pos) (length l') (negb g) Hk). simpl in *. lia.
        -- simpl. specialize (IH (S pos) 0 false). simpl in IH. lia.
    + simpl in Hskip. specialize (IH (S pos) k done). simpl. lia.
Qed.

Lemma replace_regex_length g l text rep :
  l <> [] -> ~ In dollar rep -> length rep <= length l ->
  length (replace_regex g (Lit l) text rep) <= length text.
Proof.
  intros Hl Hd Hrep. unfold replace_regex.
  pose proof (@replace_regex_from_length g l text rep Hl Hd Hrep text 0 0 false).
  lia.
Qed.

(** X17: decoding never makes a text longer. *)
Theorem decode_never_longer (s : jsstring) :
  length (decodeHtmlEntities s) <= length s.
Proof.
  unfold decodeHtmlEntities. cbv zeta.
  repeat match goal with
  | |- length (replace_regex true (Lit ?l) ?t ?r) <= _ =>
      transitivity (length t);
      [apply replace_regex_length;
       [discriminate | vm_compute; intuition discriminate | vm_compute; lia]|]
  end.
  reflexivity.
Qed.

(** ** Language tags *)

(** The first capture of a code block: one or more units of [[\w-]]. *)
Lemma code_block_language pos s m :
  match_here codeBlockPattern pos s = Some m ->
  group 1 m <> [] /\ forallb is_tag_unit (group 1 m) = true.
Proof.
  unfold match_here, codeBlockPattern, Plus. cbn [run].
  destruct (strip_prefix (js "<pre><code") s) as [s1|]; [|discriminate].
  destruct s1 as [|c1 s1]; [discriminate|].
  destruct (is_space c1); [|discriminate].
  intros H. apply star_greedy_class in H. destruct H as (n1 & _ & _ & H).
  destruct (strip_prefix _ (skipn n1 s1)) as [s2|]; [|discriminate].
  destruct s2 as [|c2 s2]; [discriminate|].
  destruct (is_tag_unit c2) eqn:Hc2; [|discriminate].
  apply star_greedy_class in H. destruct H as (n2 & _ & Htag & H).
  destruct (strip_prefix dquote (skipn n2 s2)) as [s3|]; [|discriminate].
  apply star_greedy_class in H. destruct H as (n3 & _ & _ & H).
  destruct (skipn n3 s3) as [|c4 s4]; [discriminate|].
  destruct (N.eqb 62 c4); [|discriminate].
  apply star_lazy_first in H. destruct H as (n5 & _ & _ & H & _).
  destruct (strip_prefix _ (skipn n5 s4)) as [s6|]; [|discriminate].
  inversion H; subst m; clear H. unfold group. change (1 - 1) with 0.
  cbn [groups nth app].
  match goal with
  | |- context [match ?x with 0 => _ | S _ => _ end] => generalize x; intros px
  end.
  assert (Hn : match px with 0 => S (px + n2) | S l => px + n2 - l end = S n2)
    by (destruct px; lia).
  rewrite Hn.
  cbn [firstn forallb]. rewrite Hc2, Htag. split; [discriminate|reflexivity].
Qed.

Lemma toLowerCase_tag l :
  forallb is_tag_unit l = true ->
  forallb is_lower_tag (toLowerCase l) = true
  /\ (forallb is_lower_tag l = true -> toLowerCase l = l).
Proof.
  induction l as [|c l IH]; [now split|]. cbn [forallb toLowerCase map].
  rewrite andb_true_iff. intros (Hc & Hl). destruct (IH Hl) as (IH1 & IH2).
  fold (toLowerCase l). rewrite IH1. split.
  - rewrite andb_true_r. unfold is_tag_unit, is_word, is_lower_tag in *.
    destruct ((65 <=? c) && (c <=? 90))%N eqn:Hup.
    + apply andb_true_iff in Hup. destruct Hup as (H1 & H2).
      apply N.leb_le in H1, H2.
      assert (H3 : (97 <=? c + 32)%N = true) by (apply N.leb_le; lia).
      assert (H4 : (c + 32 <=? 122)%N = true) by (apply N.leb_le; lia).
      rewrite H3, H4. simpl. now rewrite orb_true_r.
    + rewrite orb_false_r in Hc.
      repeat rewrite orb_true_iff in Hc. repeat rewrite orb_true_iff. tauto.
  - rewrite andb_true_iff. intros (Hlow & Hrest). rewrite (IH2 Hrest). f_equal.
    unfold is_lower_tag in Hlow.
    destruct ((65 <=? c) && (c <=? 90))%N eqn:Hup; [|reflexivity].
    apply andb_true_iff in Hup. destruct Hup as (H1 & H2). apply N.leb_le in H1, H2.
    repeat rewrite orb_true_iff in Hlow. repeat rewrite andb_true_iff in Hlow.
    repeat rewrite N.leb_le in Hlow. repeat rewrite N.eqb_eq in Hlow. lia.
Qed.

Lemma code_blocks_match_here text :
  Forall (fun m => match_here codeBlockPattern (index m) (skipn (index m) text) = Some m)
         (code_blocks text).
Proof.
  destruct (exec codeBlockPattern text 0) as [mt li] eqn:He.
  apply (@pending_exec codeBlockPattern text _) with (lastIndex := li) (mt := mt).
  - intros li0 m0 li0' H0. now apply exec_match_here in H0.
  - now apply pending_code_blocks.
  - intros m0 ->. now apply exec_match_here in He.
Qed.

(** X18: the language tag of every code block that [highlightCodeBlocks]
    collects is a non-empty word of letters, digits, underscores and
    hyphens, and the tag the highlighter is asked with, the normalised
    one, has no upper-case letter left; normalising changes nothing in a
    tag that is lower-case already. *)
Theorem language_tags_lower_case (text : jsstring) (fuel : nat) :
  length text < fuel ->
  exists bs,
    collect_code_blocks fuel text = Some bs
    /\ Forall (fun l => l <> []
                        /\ forallb is_tag_unit l = true
                        /\ forallb is_lower_tag (normalizeLanguage l) = true
                        /\ length (normalizeLanguage l) = length l
                        /\ (forallb is_lower_tag l = true -> normalizeLanguage l = l))
              (languages_of bs).
Proof.
  intros Hfuel. exists (blocks_from 0 (code_blocks text)).
  split; [now apply collect_code_blocks_blocks|].
  rewrite Forall_forall. intros l Hl. unfold languages_of in Hl.
  apply in_map_iff in Hl. destruct Hl as (b & <- & Hb).
  destruct (blocks_from_In _ _ _ Hb) as (j & m & Hm & ->). cbn [language block_of].
  pose proof (code_blocks_match_here text) as Hall. rewrite Forall_forall in Hall.
  destruct (code_block_language _ _ (Hall _ Hm)) as (Hne & Htag).
  destruct (toLowerCase_tag _ Htag) as (Hlow & Hid).
  unfold normalizeLanguage. repeat split; auto.
  unfold toLowerCase. apply length_map.
Qed.

Lemma language_tags_lower_case_witness :
  exists bs,
    collect_code_blocks 200 two_blocks_html = Some bs
    /\ map normalizeLanguage (languages_of bs) = [js "js"; js "rust"].
Proof.
  destruct (@language_tags_lower_case two_blocks_html 200) as (bs & Heq & _).
  - vm_compute. lia.
  - exists bs. split; [exact Heq|].
    assert (Hbs : Some bs = Some (blocks_from 0 (code_blocks two_blocks_html))).
    { rewrite <- Heq. vm_compute. reflexivity. }
    inversion Hbs; subst bs. vm_compute. reflexivity.
Defined.

(** ** What the pipeline does to the world *)

Section Changes.
Variable R : State -> State -> Prop.
Hypothesis R_refl : forall st, R st st.
Hypothesis R_trans : forall a b c, R a b -> R b c -> R a c.

Lemma changes_ret A (a : A) : changes R (ret a).
Proof. intros st. apply R_refl. Qed.

Lemma changes_throw A e : changes R (@throw A e).
Proof. intros st. apply R_refl. Qed.

Lemma changes_out_of_fuel A : changes R (@out_of_fuel A).
Proof. intros st. apply R_refl. Qed.

Lemma changes_get_tempDir : changes R get_tempDir.
Proof. intros st. apply R_refl. Qed.

Lemma changes_get_shikiHighlighter : changes R get_shikiHighlighter.
Proof. intros st. apply R_refl. Qed.

Lemma changes_bind A B (c : M A) (k : A -> M B) :
  changes R c -> (forall a, changes R (k a)) -> changes R (bind c k).
Proof.
  intros Hc Hk st. unfold bind. specialize (Hc st).
  destruct (c st) as [[a|e|] st1]; simpl in *; auto.
  eapply R_trans; [exact Hc|apply Hk].
Qed.

Lemma changes_try_catch A (c : M A) (h : exn -> M A) :
  changes R c -> (forall e, changes R (h e)) -> changes R (try_catch c h).
Proof.
  intros Hc Hh st. unfold try_catch. specialize (Hc st).
  destruct (c st) as [[a|e|] st1]; simpl in *; auto.
  eapply R_trans; [exact Hc|apply Hh].
Qed.

End Changes.

Lemma adds_refl P st : adds P st st.
Proof. exists []. now rewrite app_nil_r. Qed.

Lemma adds_trans P a b c : adds P a b -> adds P b c -> adds P a c.
Proof.
  intros (e1 & H1 & P1) (e2 & H2 & P2). exists (e1 ++ e2).
  split; [now rewrite H2, H1, app_assoc|now apply Forall_app].
Qed.

Lemma adds_weaken (P Q : event -> Prop) st st' :
  (forall e, P e -> Q e) -> adds P st st' -> adds Q st st'.
Proof.
  intros HPQ (evs & Ht & Hp). exists evs. split; [assumption|].
  eapply Forall_impl; eauto.
Qed.

Lemma adds_in_place_refl P st : adds_in_place P st st.
Proof. split; [apply adds_refl|reflexivity]. Qed.

Lemma adds_in_place_trans P a b c :
  adds_in_place P a b -> adds_in_place P b c -> adds_in_place P a c.
Proof.
  intros (H1 & T1) (H2 & T2). split; [eapply adds_trans; eauto|congruence].
Qed.

Lemma changes_weaken A (R R' : State -> State -> Prop) (c : M A) :
  (forall st st', R st st' -> R' st st') -> changes R c -> changes R' c.
Proof. intros H Hc st. apply H, Hc. Qed.

Lemma adds_emit P e : P e -> changes (adds P) (emit e).
Proof. intros He st. exists [e]. simpl. split; [reflexivity|now constructor]. Qed.

Lemma adds_set_tempDir P d : changes (adds P) (set_tempDir d).
Proof. intros st. exists []. simpl. now rewrite app_nil_r. Qed.

Lemma adds_set_shikiHighlighter P h : changes (adds P) (set_shikiHighlighter h).
Proof. intros st. exists []. simpl. now rewrite app_nil_r. Qed.

Lemma adds_in_place_emit P e : P e -> changes (adds_in_place P) (emit e).
Proof.
  intros He st. split; [|reflexivity]. exists [e]. simpl.
  split; [reflexivity|now constructor].
Qed.

Lemma adds_in_place_set_shikiHighlighter P h :
  changes (adds_in_place P) (set_shikiHighlighter h).
Proof. intros st. split; [|reflexivity]. exists []. simpl. now rewrite app_nil_r. Qed.

(** Decomposes a computation along its binds, handlers and branches. *)
Ltac changes_with refl trans :=
  repeat first
    [ apply (@changes_ret _ (refl _)) | apply (@changes_throw _ (refl _))
    | apply (@changes_out_of_fuel _ (refl _))
    | apply (@changes_get_tempDir _ (refl _))
    | apply (@changes_get_shikiHighlighter _ (refl _))
    | apply adds_set_tempDir | apply adds_set_shikiHighlighter
    | apply adds_in_place_set_shikiHighlighter
    | apply adds_emit; solve [exact I | simpl; auto]
    | apply adds_in_place_emit; solve [exact I | simpl; auto]
    | apply (@changes_bind _ (trans _)); [|intros ?]
    | apply (@changes_try_catch _ (trans _)); [|intros ?]
    | assumption
    | match goal with
      | |- changes _ (if ?b then _ else _) => destruct b
      | |- changes _ (match ?x with _ => _ end) => destruct x eqn:?
      end ].

Ltac adding :=
  changes_with adds_refl (fun P a b c => @adds_trans P a b c).
Ltac adding_in_place :=
  changes_with adds_in_place_refl (fun P a b c => @adds_in_place_trans P a b c).

Lemma renderMermaidToSvg_not_rm w code id :
  changes (adds not_rm) (renderMermaidToSvg w code id).
Proof.
  unfold renderMermaidToSvg, do_mkdtemp, do_writeFile, do_execFile, log. adding.
Qed.

Lemma render_each_not_rm w : forall ds acc, changes (adds not_rm) (render_each w ds acc).
Proof.
  induction ds as [|d ds IH]; intros acc; cbn [render_each]; unfold log.
  - adding.
  - apply (@changes_bind _ (@adds_trans _)); [adding|intros _].
    apply (@changes_bind _ (@adds_trans _)); [apply renderMermaidToSvg_not_rm|intros p].
    destruct (truthy p); (apply (@changes_bind _ (@adds_trans _)); [adding|intros _; apply IH]).
Qed.

Lemma replace_entry_reads w fuel md entry acc :
  changes (adds_in_place (reads_of [snd (snd entry)])) (replace_entry w fuel md entry acc).
Proof.
  unfold replace_entry. destruct entry as [k [id p]], acc as [ph rs].
  destruct (exec fencePattern md 0) as [mt li].
  destruct (find_fence fuel md k li mt) as [[m|]|]; unfold do_readFile, log;
    adding_in_place.
Qed.

Lemma adds_in_place_weaken (P Q : event -> Prop) st st' :
  (forall e, P e -> Q e) -> adds_in_place P st st' -> adds_in_place Q st st'.
Proof. intros HPQ (H & T). split; [eapply adds_weaken; eauto|assumption]. Qed.

Lemma reads_of_incl l l' e : incl l l' -> reads_of l e -> reads_of l' e.
Proof. intros Hi. destruct e; simpl; auto. Qed.

Lemma replace_entries_reads w fuel md : forall entries acc,
  changes (adds_in_place (reads_of (paths_of entries)))
          (replace_entries w fuel md entries acc).
Proof.
  induction entries as [|e entries IH]; intros acc; cbn [replace_entries];
    [adding_in_place|].
  apply (@changes_bind _ (@adds_in_place_trans _)).
  - eapply changes_weaken; [|apply replace_entry_reads].
    intros st st'. apply adds_in_place_weaken. intros ev. apply reads_of_incl.
    intros x [<-|[]]. now left.
  - intros a. eapply changes_weaken; [|apply IH].
    intros st st'. apply adds_in_place_weaken. intros ev. apply reads_of_incl.
    intros x Hx. now right.
Qed.

Lemma highlight_each_logs_only hl all : forall rest acc,
  changes (adds_in_place (reads_of [])) (highlight_each hl all rest acc).
Proof.
  induction rest as [|cb rest IH]; intros acc; cbn [highlight_each]; [adding_in_place|].
  destruct (hl _ _); [apply IH|]. unfold log.
  apply (@changes_bind _ (@adds_in_place_trans _)); [adding_in_place|intros _; apply IH].
Qed.

Lemma highlightCodeBlocks_logs_only w fuel text :
  changes (adds_in_place (reads_of [])) (highlightCodeBlocks w fuel text).
Proof.
  unfold highlightCodeBlocks.
  destruct (collect_code_blocks fuel text) as [bs|]; [|adding_in_place].
  destruct (length bs =? 0); [adding_in_place|].
  apply (@changes_bind _ (@adds_in_place_trans _)).
  - unfold getShikiHighlighter, log. adding_in_place.
  - intros hl. apply (@changes_bind _ (@adds_in_place_trans _));
      [apply highlight_each_logs_only|intros hb].
    unfold log. adding_in_place.
Qed.

Lemma convertMarkdownToHtml_reads w fuel md entries :
  changes (adds_in_place (reads_of (paths_of entries)))
          (convertMarkdownToHtml w fuel md entries).
Proof.
  unfold convertMarkdownToHtml.
  apply (@changes_bind _ (@adds_in_place_trans _)); [apply replace_entries_reads|intros [ph rs]].
  apply (@changes_bind _ (@adds_in_place_trans _)); [|intros res; adding_in_place].
  eapply changes_weaken; [|apply highlightCodeBlocks_logs_only].
  intros st st'. apply adds_in_place_weaken. intros ev. apply reads_of_incl.
  intros x [].
Qed.

Lemma reads_of_not_rm l e : reads_of l e -> not_rm e.
Proof. now destruct e. Qed.

Lemma convert_adds_not_rm w fuel file output :
  changes (adds not_rm) (convert w fuel file output).
Proof.
  unfold convert.
  apply (@changes_bind _ (@adds_trans _)); [unfold do_readFile; adding|intros md].
  destruct (extractMermaidDiagrams fuel md) as [ds|]; [|adding].
  apply (@changes_bind _ (@adds_trans _)); [unfold log; adding|intros _].
  apply (@changes_bind _ (@adds_trans _)); [apply render_each_not_rm|intros entries].
  apply (@changes_bind _ (@adds_trans _)).
  { eapply changes_weaken; [|apply convertMarkdownToHtml_reads].
    intros st st' (H & _). eapply adds_weaken; [|exact H]. apply reads_of_not_rm. }
  intros doc. unfold do_writeFile, log. adding.
Qed.

(** X19: [convertMarkdownToHtml] never writes a file, never runs a tool
    and never makes or removes a directory: whatever the outcomes map,
    and whether it returns, throws or runs on, all it does to the world
    is log and read files, each of them the artifact path of an entry;
    the renderer's directory is left alone. *)
Theorem assembler_only_reads_and_logs (w : World) (fuel : nat) (md : jsstring)
        (entries : ImageReplacements) (st : State) :
  exists evs,
    trace (snd (convertMarkdownToHtml w fuel md entries st)) = trace st ++ evs
    /\ Forall (fun e => match e with
                        | EvReadFile p => In p (map (fun entry => snd (snd entry)) entries)
                        | EvLog _ _ => True
                        | _ => False
                        end) evs
    /\ tempDir (snd (convertMarkdownToHtml w fuel md entries st)) = tempDir st.
Proof.
  assert (H : changes (adds_in_place (reads_of (paths_of entries)))
                      (convertMarkdownToHtml w fuel md entries)).
  { unfold convertMarkdownToHtml.
    apply (@changes_bind _ (@adds_in_place_trans _));
      [apply replace_entries_reads|intros [ph rs]].
    apply (@changes_bind _ (@adds_in_place_trans _)); [|intros res; adding_in_place].
    eapply changes_weaken; [|apply highlightCodeBlocks_logs_only].
    intros s s'. apply adds_in_place_weaken. intros ev. apply reads_of_incl.
    intros x []. }
  destruct (H st) as ((evs & Ht & Hp) & Hd).
  exists evs. split; [exact Ht|]. split; [exact Hp|exact Hd].
Qed.

Lemma extract_stalls md fuel :
  Exists blank (fences md) -> extractMermaidDiagrams fuel md = None.
Proof.
  intros Hex. unfold extractMermaidDiagrams.
  destruct (exec mermaidPattern md 0) as [mt li] eqn:He.
  exact (extract_loop_stalls (pending_fences md He) Hex fuel []).
Qed.

(** X20: [convert] removes nothing, whatever its outcome: the first
    thing it does is read the input file, and no event after that is a
    removal; when the input cannot be read it throws the error of the
    read, having done nothing else. *)
Theorem convert_never_removes (w : World) (fuel : nat) (file : jsstring)
        (output : option jsstring) (st : State) :
  exists evs,
    trace (snd (convert w fuel file output st)) = trace st ++ EvReadFile file :: evs
    /\ Forall (fun e => forall path, e <> EvRm path) evs
    /\ (readFile w file = None ->
        fst (convert w fuel file output st) = Thrown (IOError (js "readFile") file)
        /\ evs = []).
Proof.
  unfold convert, do_readFile. unfold bind at 1. unfold bind at 1, emit at 1.
  destruct (readFile w file) as [md|] eqn:Hr.
  - unfold ret at 1.
    set (st0 := MkState (tempDir st) (shikiHighlighter st) (trace st ++ [EvReadFile file])).
    assert (H : changes (adds not_rm)
                  (match extractMermaidDiagrams fuel md with
                   | Some diagrams =>
                       log LInfo "Found mermaid diagrams in markdown" ;;
                       imageReplacements <- render_each w diagrams [] ;;
                       htmlContent <- convertMarkdownToHtml w fuel md imageReplacements ;;
                       do_writeFile w
                         match output with
                         | Some o => o
                         | None => replace_regex false mdExtension file (js ".html")
                         end htmlContent ;;
                       log LInfo "Successfully converted markdown to HTML" ;;
                       ret match output with
                           | Some o => o
                           | None => replace_regex false mdExtension file (js ".html")
                           end
                   | None => out_of_fuel
                   end)).
    { destruct (extractMermaidDiagrams fuel md) as [ds|]; [|adding].
      apply (@changes_bind _ (@adds_trans _)); [unfold log; adding|intros _].
      apply (@changes_bind _ (@adds_trans _)); [apply render_each_not_rm|intros entries].
      apply (@changes_bind _ (@adds_trans _)).
      { eapply changes_weaken; [|apply convertMarkdownToHtml_reads].
        intros s s' (H & _). eapply adds_weaken; [|exact H]. apply reads_of_not_rm. }
      intros doc. unfold do_writeFile, log. adding. }
    destruct (H st0) as (evs & Ht & Hp). exists evs.
    split; [rewrite Ht; simpl; now rewrite <- app_assoc|].
    split; [|discriminate].
    eapply Forall_impl; [|exact Hp]. intros e He path ->. exact He.
  - unfold throw. exists []. simpl. split; [reflexivity|]. split; [constructor|].
    intros _. now split.
Qed.

(** X21: on a file whose text has a mermaid fence with a blank body,
    [convert] never returns, however long it runs: it reads the file and
    then hangs in the extractor; nothing is rendered, no directory is
    made and no output is written. *)
Theorem convert_hangs_on_blank_fence (w : World) (file md : jsstring)
        (output : option jsstring) (st : State) :
  readFile w file = Some md ->
  Exists blank (fences md) ->
  forall fuel,
    convert w fuel file output st
    = (OutOfFuel,
       MkState (tempDir st) (shikiHighlighter st) (trace st ++ [EvReadFile file])).
Proof.
  intros Hr Hex fuel. unfold convert, do_readFile.
  unfold bind at 1. unfold bind at 1, emit at 1. rewrite Hr. unfold ret at 1.
  now rewrite (@extract_stalls md fuel Hex).
Qed.

Lemma convert_hangs_on_blank_fence_witness :
  convert blank_notes_world 1000 (js "notes.md") None initial_state
  = (OutOfFuel, MkState None None [EvReadFile (js "notes.md")]).
Proof.
  apply (@convert_hangs_on_blank_fence blank_notes_world (js "notes.md")
           diagram_then_blank_md None initial_state).
  - reflexivity.
  - vm_compute. apply Exists_cons_tl, Exists_cons_hd. reflexivity.
Defined.

Lemma io_events_logs evs : Forall (reads_of []) evs -> io_events evs = [].
Proof.
  induction 1 as [|e evs He Hevs IH]; [reflexivity|].
  destruct e; simpl in He; try contradiction. exact IH.
Qed.

(** One entry of the outcomes map, in full as far as files go. *)
Lemma replace_entry_io w fuel md entry acc st :
  length md < fuel ->
  exists acc' st' evs,
    replace_entry w fuel md entry acc st = (Returned acc', st')
    /\ trace st' = trace st ++ evs
    /\ io_events evs = svg_reads md [entry].
Proof.
  intros Hfuel. destruct entry as [startPos [id path]], acc as [ph rs].
  unfold replace_entry, svg_reads. cbn [fst snd flat_map]. rewrite app_nil_r.
  destruct (exec fencePattern md 0) as [mt li] eqn:He.
  rewrite (@find_fence_fence_at md startPos fuel mt li Hfuel He).
  destruct (fence_at md startPos) as [m|].
  - unfold do_readFile. unfold_monad.
    destruct (truthy (Some path)); simpl.
    + destruct (readFile w path) as [content|]; simpl.
      * eexists. eexists. exists [EvReadFile path]. repeat split.
      * eexists. eexists.
        exists [EvReadFile path; EvLog LWarn (js "Failed to read SVG file")].
        split; [reflexivity|]. split; [simpl; now rewrite <- app_assoc|reflexivity].
    + eexists. eexists. exists []. split; [reflexivity|]. split; [|reflexivity].
      simpl. now rewrite app_nil_r.
  - eexists. eexists. exists []. split; [reflexivity|]. split; [|reflexivity].
    simpl. now rewrite app_nil_r.
Qed.

Lemma svg_reads_cons md e entries :
  svg_reads md (e :: entries) = svg_reads md [e] ++ svg_reads md entries.
Proof. unfold svg_reads. simpl. now rewrite app_nil_r. Qed.

Lemma replace_entries_io w fuel md : forall entries acc st,
  length md < fuel ->
  exists acc' st' evs,
    replace_entries w fuel md entries acc st = (Returned acc', st')
    /\ trace st' = trace st ++ evs
    /\ io_events evs = svg_reads md entries.
Proof.
  induction entries as [|e entries IH]; intros acc st Hfuel.
  - exists acc, st, []. simpl. rewrite app_nil_r. repeat split.
  - destruct (@replace_entry_io w fuel md e acc st Hfuel) as (a1 & s1 & ev1 & H1 & T1 & I1).
    destruct (IH a1 s1 Hfuel) as (a2 & s2 & ev2 & H2 & T2 & I2).
    exists a2, s2, (ev1 ++ ev2). cbn [replace_entries]. unfold bind. rewrite H1.
    split; [exact H2|]. split; [now rewrite T2, T1, app_assoc|].
    now rewrite (svg_reads_cons md e entries), io_events_app, I1, I2.
Qed.

(** The whole assembler, as far as files go. *)
Lemma convertMarkdownToHtml_io w fuel md entries st :
  length md < fuel ->
  exists evs,
    trace (snd (convertMarkdownToHtml w fuel md entries st)) = trace st ++ evs
    /\ io_events evs = svg_reads md entries.
Proof.
  intros Hfuel.
  destruct (@replace_entries_io w fuel md entries ([], []) st Hfuel)
    as ([ph rs] & s1 & ev1 & H1 & T1 & I1).
  rewrite (@convertMarkdownToHtml_finish w fuel md entries st ph rs s1 H1). unfold finish.
  match goal with
  | |- context [highlightCodeBlocks w fuel ?t] =>
      destruct (highlightCodeBlocks_logs_only w fuel t s1) as ((ev2 & T2 & P2) & _);
      assert (Hsnd : forall A (f : HighlightResult -> A),
                 snd (bind (highlightCodeBlocks w fuel t) (fun res => ret (f res)) s1)
                 = snd (highlightCodeBlocks w fuel t s1))
        by (intros A f; unfold bind, ret;
            destruct (highlightCodeBlocks w fuel t s1) as [[r|e|] s2]; reflexivity)
  end.
  rewrite Hsnd. exists (ev1 ++ ev2). split; [now rewrite T2, T1, app_assoc|].
  now rewrite io_events_app, I1, (io_events_logs P2), app_nil_r.
Qed.

Lemma render_write_fails w st code id dir :
  working_dir w st = Some dir ->
  writeFile w (join dir (id ++ js ".mmd")) code = false ->
  exists e, fst (renderMermaidToSvg w code id st) = Thrown e.
Proof.
  unfold working_dir, temp_prefix. intros Hdir Hwrite.
  unfold renderMermaidToSvg, do_mkdtemp, do_writeFile, do_execFile.
  unfold_monad. simpl.
  destruct (truthy (tempDir st)) eqn:Ht; simpl.
  - rewrite Hdir. rewrite Hwrite. simpl. eexists. reflexivity.
  - destruct (mkdtemp w _) as [random|]; simpl in *; [|discriminate].
    inversion Hdir; subst dir. rewrite Hwrite. simpl. eexists. reflexivity.
Qed.

Lemma render_each_returned_writable w dir : forall ds acc st r st',
  working_dir w st = Some dir ->
  render_each w ds acc st = (Returned r, st') ->
  writable w dir ds.
Proof.
  induction ds as [|d ds IH]; intros acc st r st' Hdir H; [constructor|].
  cbn [render_each] in H. apply bind_Returned in H. destruct H as ([] & s0 & Hlog & H).
  unfold log, emit in Hlog. inversion Hlog; subst s0; clear Hlog.
  apply bind_Returned in H. destruct H as (p & s1 & Hren & H).
  match type of Hren with
  | renderMermaidToSvg _ _ _ ?s = _ => assert (Hdir0 : working_dir w s = Some dir) by exact Hdir
  end.
  destruct (writeFile w (join dir (diagramId d ++ js ".mmd")) (mermaidCode d)) eqn:Hw.
  - constructor; [exact Hw|].
    rewrite (@renderMermaidToSvg_run w _ (mermaidCode d) (diagramId d) dir Hdir0 Hw) in Hren. inversion Hren; subst p s1.
    assert (Hdir1 : forall t, working_dir w (MkState (Some dir) (shikiHighlighter st) t)
                              = Some dir).
    { intros t. unfold working_dir. simpl tempDir.
      now rewrite (working_dir_nonempty w st Hdir). }
    destruct (truthy (render_result w dir (diagramId d)));
      apply bind_Returned in H; destruct H as ([] & s2 & Hlog & H);
      unfold log, emit in Hlog; inversion Hlog; subst s2; clear Hlog;
      eapply IH; [apply Hdir1|exact H|apply Hdir1|exact H].
  - destruct (@render_write_fails w _ (mermaidCode d) (diagramId d) dir Hdir0 Hw) as (e & He).
    rewrite Hren in He. discriminate He.
Qed.

Lemma svg_reads_outcomes w md dir : forall ms i,
  (forall m, In m ms -> In m (fences md)) ->
  svg_reads md (map (outcome_of w dir) (records_from i ms))
  = flat_map (artifact_read w dir) (records_from i ms).
Proof.
  induction ms as [|m ms IH]; intros i Hin; [reflexivity|].
  cbn [records_from map flat_map].
  rewrite (svg_reads_cons md (outcome_of w dir (record_of i m))), IH
    by (intros; apply Hin; now right).
  f_equal. unfold svg_reads, outcome_of, artifact_read.
  cbn [flat_map fst snd startPos diagramId record_of]. rewrite app_nil_r.
  destruct (@fence_at_fence md m (Hin m (or_introl eq_refl))) as (m' & -> & _).
  pose proof (truthy_render_result w dir (js "diagram_" ++ decimal i)) as Ht.
  destruct (render_result w dir (js "diagram_" ++ decimal i)) as [p|]; [|reflexivity].
  now rewrite Ht.
Qed.

(** X22: a conversion that returns has done to the file system and the
    tool exactly this, in this order: read the input; made the temporary
    directory, if there is a diagram and the instance had none; written
    and rendered every diagram of the extractor once, in text order and
    in that directory; read back the artifact of every diagram whose
    rendering gave one, in text order; written the output file.  The
    rest of its events are log lines. *)
Theorem convert_stages_in_order (w : World) (fuel : nat) (file md dir : jsstring)
        (output : option jsstring) (st st' : State) (out : jsstring) :
  readFile w file = Some md ->
  working_dir w st = Some dir ->
  length md < fuel ->
  convert w fuel file output st = (Returned out, st') ->
  exists ds document evs,
    extractMermaidDiagrams fuel md = Some ds
    /\ trace st' = trace st ++ evs
    /\ io_events evs
       = [EvReadFile file]
           ++ match ds with
              | [] => []
              | _ :: _ => if truthy (tempDir st) then [] else [EvMkdtemp (temp_prefix w)]
              end
           ++ flat_map (render_io w dir) ds
           ++ flat_map (artifact_read w dir) ds
           ++ [EvWriteFile out document].
Proof.
  intros Hr Hdir Hfuel H. unfold convert in H.
  apply bind_Returned in H. destruct H as (content & s1 & Hread & H).
  unfold do_readFile in Hread. unfold bind, emit in Hread. rewrite Hr in Hread.
  unfold ret in Hread. inversion Hread; subst content s1; clear Hread.
  destruct (extractMermaidDiagrams fuel md) as [ds|] eqn:Hex; [|discriminate].
  apply bind_Returned in H. destruct H as ([] & s2 & Hlog & H).
  unfold log, emit in Hlog. inversion Hlog; subst s2; clear Hlog. cbn [tempDir shikiHighlighter trace] in H.
  apply bind_Returned in H. destruct H as (entries & s3 & Hrender & H).
  apply bind_Returned in H. destruct H as (document & s4 & Hasm & H).
  apply bind_Returned in H. destruct H as ([] & s5 & Hwrite & H).
  apply bind_Returned in H. destruct H as ([] & s6 & Hlog & H).
  unfold ret in H. inversion H; subst s6. clear H.
  match type of H1 with ?o = out => set (path := o) in * end.
  unfold log, emit in Hlog. inversion Hlog; subst st'; clear Hlog.
  unfold do_writeFile in Hwrite. unfold bind, emit in Hwrite.
  destruct (writeFile w path document); [|discriminate].
  unfold ret in Hwrite. inversion Hwrite; subst s5; clear Hwrite.
  (* the rendering loop *)
  match type of Hrender with
  | render_each _ _ _ ?s = _ =>
      assert (Hdir2 : working_dir w s = Some dir) by exact Hdir; set (s2 := s) in *
  end.
  pose proof (@render_each_returned_writable w dir ds [] s2 entries s3 Hdir2 Hrender) as Hw.
  destruct (extract_returned _ _ Hex) as (_ & Hds & _).
  assert (Hnd : NoDup (map startPos ds)).
  { rewrite Hds, records_from_starts.
    apply StronglySorted_lt_NoDup, StronglySorted_map, fences_starts_increasing. }
  destruct (@render_each_run w dir ds [] s2 Hdir2 Hw) as (s3' & Heq & _ & _ & ev3 & T3 & I3).
  rewrite (@fold_map_set_fresh _ (outcome_of w dir) ds []) in Heq; auto.
  rewrite Heq in Hrender. cbn [app] in Hrender.
  assert (He : entries = map (outcome_of w dir) ds) by now inversion Hrender.
  assert (Hs3 : s3' = s3) by now inversion Hrender.
  subst entries s3'. clear Hrender Heq.
  (* the assembler *)
  destruct (@convertMarkdownToHtml_io w fuel md (map (outcome_of w dir) ds) s3 Hfuel)
    as (ev4 & T4 & I4).
  rewrite Hasm in T4. cbn [snd] in T4.
  exists ds, document.
  exists ([EvReadFile file; EvLog LInfo (js "Found mermaid diagrams in markdown")]
            ++ ev3 ++ ev4
            ++ [EvWriteFile path document;
                EvLog LInfo (js "Successfully converted markdown to HTML")]).
  split; [reflexivity|]. split.
  - cbn [trace]. rewrite T4, T3. subst s2. cbn [trace]. rewrite <- !app_assoc. reflexivity.
  - rewrite !io_events_app, I3, I4. subst s2. cbn [tempDir].
    rewrite Hds at 3. rewrite svg_reads_outcomes by auto. rewrite <- Hds.
    subst path. rewrite H1. cbn. rewrite <- !app_assoc. reflexivity.
Qed.

Lemma convert_stages_in_order_witness :
  exists st' document,
    convert notes_world 100 (js "notes.md") None initial_state
    = (Returned (js "notes.html"), st')
    /\ io_events (trace st')
       = [EvReadFile (js "notes.md");
          EvMkdtemp (js "/tmp/md-to-html-");
          EvWriteFile (js "/tmp/md-to-html-Ab3xZ9/diagram_0.mmd")
                      (js "flowchart LR" ++ newline ++ js "A --> B");
          EvExecFile (js "node_modules/.bin/mmdc")
                     (mmdc_args (js "/tmp/md-to-html-Ab3xZ9") (js "diagram_0"));
          EvReadFile (js "/tmp/md-to-html-Ab3xZ9/diagram_0.svg");
          EvWriteFile (js "notes.html") document].
Proof.
  destruct (convert notes_world 100 (js "notes.md") None initial_state)
    as [[out| |] st'] eqn:E; try (vm_compute in E; discriminate E).
  assert (Hout : out = js "notes.html") by (vm_compute in E; now inversion E).
  subst out.
  destruct (@convert_stages_in_order notes_world 100 (js "notes.md")
              scenario_md (js "/tmp/md-to-html-Ab3xZ9") None
              initial_state st' (js "notes.html"))
    as (ds & document & evs & Hex & Htr & Hio);
    [reflexivity|reflexivity|vm_compute; lia|exact E|].
  exists st', document. split; [reflexivity|].
  rewrite Htr. cbn [trace initial_state app]. rewrite Hio.
  assert (Hds : ds = [MkDiagram (js "diagram_0") (js "flowchart LR" ++ newline ++ js "A --> B")
                                9 44])
    by (vm_compute in Hex; now inversion Hex).
  subst ds. reflexivity.
Defined.

(** ** The command line *)

Lemma keeps_instance_refl st : keeps_instance st st.
Proof. intros H. exact H. Qed.

Lemma keeps_instance_trans a b c :
  keeps_instance a b -> keeps_instance b c -> keeps_instance a c.
Proof. unfold keeps_instance. auto. Qed.

Lemma keeps_instance_emit e : changes keeps_instance (emit e).
Proof. intros st H. exact H. Qed.

Lemma keeps_instance_in_place A P (c : M A) :
  changes (adds_in_place P) c -> changes keeps_instance c.
Proof.
  intros Hc st Hi. destruct (Hc st) as (_ & Ht). unfold instance_state in *.
  now rewrite Ht.
Qed.

Lemma render_each_keeps_instance w : forall ds acc,
  changes keeps_instance (render_each w ds acc).
Proof.
  induction ds as [|d ds IH]; intros acc; cbn [render_each]; unfold log.
  - apply (@changes_ret _ keeps_instance_refl).
  - apply (@changes_bind _ keeps_instance_trans); [apply keeps_instance_emit|intros _].
    apply (@changes_bind _ keeps_instance_trans).
    { intros st H. now apply renderMermaidToSvg_instance_state. }
    intros p. destruct (truthy p);
      (apply (@changes_bind _ keeps_instance_trans);
       [apply keeps_instance_emit|intros _; apply IH]).
Qed.

Lemma convert_keeps_instance w fuel file output :
  changes keeps_instance (convert w fuel file output).
Proof.
  unfold convert.
  apply (@changes_bind _ keeps_instance_trans).
  { unfold do_readFile.
    apply (@changes_bind _ keeps_instance_trans); [apply keeps_instance_emit|intros _].
    destruct (readFile w file);
      [apply (@changes_ret _ keeps_instance_refl)|apply (@changes_throw _ keeps_instance_refl)]. }
  intros md. destruct (extractMermaidDiagrams fuel md) as [ds|];
    [|apply (@changes_out_of_fuel _ keeps_instance_refl)].
  apply (@changes_bind _ keeps_instance_trans); [apply keeps_instance_emit|intros _].
  apply (@changes_bind _ keeps_instance_trans); [apply render_each_keeps_instance|intros entries].
  apply (@changes_bind _ keeps_instance_trans).
  { eapply keeps_instance_in_place. apply convertMarkdownToHtml_reads. }
  intros doc. unfold do_writeFile, log.
  apply (@changes_bind _ keeps_instance_trans).
  { apply (@changes_bind _ keeps_instance_trans); [apply keeps_instance_emit|intros _].
    destruct (writeFile w _ doc);
      [apply (@changes_ret _ keeps_instance_refl)|apply (@changes_throw _ keeps_instance_refl)]. }
  intros _. apply (@changes_bind _ keeps_instance_trans); [apply keeps_instance_emit|intros _].
  apply (@changes_ret _ keeps_instance_refl).
Qed.

Lemma cleanup_run w st :
  instance_state st ->
  cleanup w st
  = (Returned tt,
     MkState None (shikiHighlighter st) (trace st ++ cleanup_events w (tempDir st)))
    \/ (tempDir st = None /\ cleanup w st = (Returned tt, st)).
Proof.
  intros Hst. unfold cleanup, cleanup_events. unfold_monad. simpl.
  destruct (truthy (tempDir st)) eqn:Ht.
  - left. destruct (truthy_Some_inv _ Ht) as (d & Hd & Hne). rewrite Hd.
    unfold do_rm. unfold_monad. simpl.
    destruct (rm w d); simpl; now rewrite <- app_assoc.
  - right. split; [now apply truthy_false_instance|reflexivity].
Qed.

(** X23: the ways the handler of the command can end.  It returns only
    after a conversion that returned, and then [cleanup] has run: the
    directory of the renderer, if there was one, has been removed and
    forgotten.  It exits with code 1, never another, when the input
    file is missing (nothing but the error is logged, whether or not
    the Mermaid CLI is installed) and when the conversion throws; in
    that case [cleanup] does not run: nothing is removed, and the
    directory, if one was made, stays.  It throws only when the Mermaid
    CLI is missing, before anything is read.  A falsy [output] option
    counts as none. *)
Theorem cli_exit_paths (w : World) (fuel : nat) (input : jsstring)
        (argv_output : option jsstring) (st : State) :
  match handler w fuel input argv_output st with
  | (Returned Ended, st') =>
      existsSync w input = true
      /\ exists out st1,
           convert w fuel input (given_output argv_output) (fresh st) = (Returned out, st1)
           /\ tempDir st' = None
           /\ trace st' = trace st1 ++ cleanup_events w (tempDir st1)
  | (Returned (Exited code), st') =>
      code = 1%N
      /\ exists evs,
           trace st' = trace st ++ evs
           /\ Forall not_rm evs
           /\ (existsSync w input = false ->
               evs = [EvLog LError (js "Input file not found")])
           /\ (existsSync w input = true ->
               exists e st1,
                 convert w fuel input (given_output argv_output) (fresh st) = (Thrown e, st1)
                 /\ tempDir st' = tempDir st1)
  | (Thrown e, st') =>
      existsSync w input = true /\ existsSync w (mmdcPath w) = false
      /\ trace st' = trace st
      /\ e = Error (js "Mermaid CLI not found at " ++ mmdcPath w ++ js ". "
                       ++ js "Please install it locally by running: npm install")
  | (OutOfFuel, st') =>
      exists evs, trace st' = trace st ++ evs /\ Forall not_rm evs
  end.
Proof.
  unfold handler. cbv zeta.
  destruct (existsSync w input) eqn:Hin; cbn [negb].
  2:{ unfold log, emit, bind, ret. split; [reflexivity|].
      exists [EvLog LError (js "Input file not found")].
      split; [reflexivity|]. split; [repeat constructor|].
      split; [reflexivity|discriminate]. }
  unfold new_MermaidRenderer, new_MarkdownToHtmlConverter.
  unfold bind at 1. unfold bind at 1, set_tempDir at 1.
  destruct (existsSync w (mmdcPath w)) eqn:Hcli.
  2:{ unfold throw. cbn [trace]. repeat split; reflexivity. }
  unfold ret at 1. unfold bind at 1, set_shikiHighlighter at 1. cbn [tempDir trace shikiHighlighter].
  change (MkState None None (trace st)) with (fresh st).
  pose proof (convert_adds_not_rm w fuel input (given_output argv_output) (fresh st)) as Hadd.
  pose proof (@convert_keeps_instance w fuel input (given_output argv_output)) as Hkeep.
  unfold changes in Hkeep. specialize (Hkeep (fresh st)).
  destruct (convert w fuel input (given_output argv_output) (fresh st))
    as [[out|e|] st1] eqn:Hconv; cbn [snd] in *.
  - assert (Hi : instance_state st1) by (apply Hkeep; discriminate).
    unfold bind at 1. destruct (cleanup_run w Hi) as [Hc|(Hn & Hc)]; rewrite Hc; unfold ret.
    + split; [reflexivity|]. exists out, st1. repeat split.
    + split; [reflexivity|]. exists out, st1. split; [reflexivity|].
      split; [exact Hn|]. rewrite Hn. simpl. now rewrite app_nil_r.
  - unfold bind, log, emit, ret. split; [reflexivity|].
    destruct Hadd as (evs & Ht & Hp).
    exists (evs ++ [EvLog LError (js "Error during conversion")]).
    cbn [trace tempDir]. split; [rewrite Ht; now rewrite <- app_assoc|].
    split; [apply Forall_app; split; [exact Hp|repeat constructor]|].
    split; [discriminate|]. intros _. exists e, st1. now split.
  - destruct Hadd as (evs & Ht & Hp). exists evs. now split.
Qed.

Lemma cli_exit_paths_witness :
  exists st',
    handler read_only_output_world 100 (js "notes.md") None initial_state
    = (Returned (Exited 1), st')
    /\ tempDir st' = Some (js "/tmp/md-to-html-Ab3xZ9")
    /\ Forall not_rm (trace st').
Proof.
  pose proof (@cli_exit_paths read_only_output_world 100 (js "notes.md") None initial_state)
    as H.
  destruct (handler read_only_output_world 100 (js "notes.md") None initial_state)
    as [[[|code]|e|] st'] eqn:E; try (vm_compute in E; discriminate E).
  destruct H as (-> & evs & Htr & Hp & _ & _). exists st'.
  split; [reflexivity|]. split.
  - vm_compute in E. now inversion E.
  - rewrite Htr. exact Hp.
Defined.

(** ** The assembler on any outcomes map *)

Lemma replace_entry_no_fence w fuel md entry acc st :
  length md < fuel -> has_fence md entry = false ->
  replace_entry w fuel md entry acc st = (Returned acc, st).
Proof.
  intros Hfuel Hno. destruct entry as [startPos [id path]], acc as [ph rs].
  unfold replace_entry, has_fence in *. cbn [fst snd] in *.
  destruct (exec fencePattern md 0) as [mt li] eqn:He.
  rewrite (@find_fence_fence_at md startPos fuel mt li Hfuel He).
  destruct (fence_at md startPos); [discriminate|reflexivity].
Qed.

Lemma replace_entries_filter w fuel md : forall entries acc st,
  length md < fuel ->
  replace_entries w fuel md entries acc st
  = replace_entries w fuel md (filter (has_fence md) entries) acc st.
Proof.
  induction entries as [|e entries IH]; intros acc st Hfuel; [reflexivity|].
  cbn [filter replace_entries]. destruct (has_fence md e) eqn:Hf.
  - cbn [replace_entries]. unfold bind.
    destruct (replace_entry w fuel md e acc st) as [[a| |] s1]; auto.
  - unfold bind. rewrite (@replace_entry_no_fence w fuel md e acc st Hfuel Hf). now apply IH.
Qed.

(** X24: an entry of the outcomes map whose key is not the start of a
    mermaid fence of the text has no effect at all: with or without
    such entries [convertMarkdownToHtml] gives the same result and
    leaves the same state; their artifacts are not even read. *)
Theorem unmatched_entries_ignored (w : World) (fuel : nat) (md : jsstring)
        (entries : ImageReplacements) (st : State) :
  length md < fuel ->
  convertMarkdownToHtml w fuel md entries st
  = convertMarkdownToHtml w fuel md (filter (has_fence md) entries) st.
Proof.
  intros Hfuel. unfold convertMarkdownToHtml. unfold bind at 1 3.
  now rewrite (@replace_entries_filter w fuel md entries ([], []) st Hfuel).
Qed.

Lemma unmatched_entries_ignored_witness :
  convertMarkdownToHtml plain_world 100 two_diagrams_md
                        [(3, (js "stray", js "/t/stray.svg"));
                         (8, (js "diagram_0", js "/t/diagram_0.svg"))] initial_state
  = convertMarkdownToHtml plain_world 100 two_diagrams_md
                          [(8, (js "diagram_0", js "/t/diagram_0.svg"))] initial_state.
Proof.
  apply (@unmatched_entries_ignored plain_world 100 two_diagrams_md
           [(3, (js "stray", js "/t/stray.svg"));
            (8, (js "diagram_0", js "/t/diagram_0.svg"))] initial_state).
  vm_compute. lia.
Defined.

Lemma highlightCodeBlocks_styles w fuel text st res st' :
  highlightCodeBlocks w fuel text st = (Returned res, st') -> styles res = [].
Proof.
  unfold highlightCodeBlocks. destruct (collect_code_blocks fuel text) as [bs|];
    [|discriminate].
  destruct (length bs =? 0).
  - unfold ret. intros H. now inversion H.
  - intros H. apply bind_Returned in H. destruct H as (hl & s1 & _ & H).
    apply bind_Returned in H. destruct H as (hb & s2 & _ & H).
    apply bind_Returned in H. destruct H as ([] & s3 & _ & H).
    unfold ret in H. now inversion H.
Qed.

Lemma assembler_ends w md entries st :
  exists fuel0, forall fuel, fuel0 <= fuel ->
    (exists document st',
       convertMarkdownToHtml w fuel md entries st = (Returned document, st'))
    \/ (exists msg st',
          createHighlighter w = inr msg
          /\ convertMarkdownToHtml w fuel md entries st
             = (Thrown (Error (js "Failed to initialize Shiki highlighter: " ++ msg)), st')).
Proof.
  set (finalHtml :=
         fold_left (fun acc kv => replace_first acc (fst kv) (snd kv))
           (fold_left (bind_entry w md) entries [])
           (micromark w (apply_replacements md ([] ++ replacements_of md entries)))).
  exists (S (Nat.max (length md) (length finalHtml))). intros fuel Hfuel.
  destruct (@replace_entries_spec w fuel md entries [] [] st) as (s1 & H1 & _); [lia|].
  rewrite (@convertMarkdownToHtml_finish w fuel md entries st _ _ s1 H1).
  unfold finish. fold finalHtml. unfold bind.
  destruct (@highlightCodeBlocks_outcome w fuel finalHtml s1)
    as [(res & st' & ->)|(msg & st' & Hmsg & ->)]; [lia| |].
  - left. eexists. eexists. reflexivity.
  - right. exists msg, st'. split; [assumption|reflexivity].
Qed.

(** X25: [convertMarkdownToHtml] comes to an end on every text and every
    outcomes map: it returns a document, or it throws the one error of a
    highlighter that could not be created.  An artifact that cannot be
    read does not make it fail. *)
Theorem assembler_terminates (w : World) (md : jsstring)
        (entries : ImageReplacements) (st : State) :
  exists fuel0, forall fuel, fuel0 <= fuel ->
    match convertMarkdownToHtml w fuel md entries st with
    | (Returned document, _) =>
        exists body, document = wrapInHtmlDocument body []
    | (Thrown e, _) =>
        exists msg, createHighlighter w = inr msg
                    /\ e = Error (js "Failed to initialize Shiki highlighter: " ++ msg)
    | (OutOfFuel, _) => False
    end.
Proof.
  destruct (assembler_ends w md entries st) as (fuel0 & H).
  set (finalHtml :=
         fold_left (fun acc kv => replace_first acc (fst kv) (snd kv))
           (fold_left (bind_entry w md) entries [])
           (micromark w (apply_replacements md ([] ++ replacements_of md entries)))).
  exists (Nat.max fuel0 (S (Nat.max (length md) (length finalHtml)))). intros fuel Hfuel.
  destruct (H fuel) as [(doc & st' & Heq)|(msg & st' & Hmsg & Heq)]; [lia| |].
  - rewrite Heq.
    destruct (@replace_entries_spec w fuel md entries [] [] st) as (s1 & H1 & _); [lia|].
    rewrite (@convertMarkdownToHtml_finish w fuel md entries st _ _ s1 H1) in Heq.
    unfold finish in Heq. fold finalHtml in Heq.
    apply bind_Returned in Heq. destruct Heq as (res & s2 & Hh & Hret).
    unfold ret in Hret. inversion Hret; subst doc st'. exists (html res).
    now rewrite (@highlightCodeBlocks_styles w fuel finalHtml s1 res s2 Hh).
  - rewrite Heq. now exists msg.
Qed.

(** ** Termination of a conversion *)

Lemma extract_returns md fuel :
  Forall (fun m => ~ blank m) (fences md) -> length md < fuel ->
  extractMermaidDiagrams fuel md = Some (records_from 0 (fences md)).
Proof.
  intros Hall Hfuel. unfold extractMermaidDiagrams.
  destruct (exec mermaidPattern md 0) as [mt li] eqn:He.
  rewrite (extract_loop_records (pending_fences md He) Hall); [reflexivity|].
  pose proof (fences_length md). lia.
Qed.

Lemma renderMermaidToSvg_ends w code id st :
  ends (fst (renderMermaidToSvg w code id st)).
Proof.
  unfold renderMermaidToSvg, do_mkdtemp, do_writeFile, do_execFile.
  unfold_monad. simpl.
  destruct (truthy (tempDir st)); simpl.
  - destruct (writeFile w _ code); simpl; [|exact I].
    destruct (execFile w _ _); simpl.
    + destruct (existsSync w _); exact I.
    + destruct (jsstring_eqb _ _); exact I.
  - destruct (mkdtemp w _) as [random|]; simpl; [|exact I].
    destruct (writeFile w _ code); simpl; [|exact I].
    destruct (execFile w _ _); simpl.
    + destruct (existsSync w _); exact I.
    + destruct (jsstring_eqb _ _); exact I.
Qed.

Lemma render_each_ends w : forall ds acc st, ends (fst (render_each w ds acc st)).
Proof.
  induction ds as [|d ds IH]; intros acc st; cbn [render_each]; [exact I|].
  unfold bind at 1, log at 1, emit at 1. unfold bind at 1.
  match goal with
  | |- context [renderMermaidToSvg w ?c ?i ?s] =>
      pose proof (renderMermaidToSvg_ends w c i s) as He;
      destruct (renderMermaidToSvg w c i s) as [[p|e|] s1]
  end; [|exact I|destruct He].
  destruct (truthy p); unfold bind at 1, log at 1, emit at 1; apply IH.
Qed.

(** X26: a conversion comes to an end exactly when it should: on a
    readable file none of whose mermaid fences has a blank body,
    [convert] returns or throws once it is given enough fuel, whatever
    the file system, the tool and the engines do. *)
Theorem convert_terminates (w : World) (file md : jsstring) (output : option jsstring)
        (st : State) :
  readFile w file = Some md ->
  Forall (fun m => ~ blank m) (fences md) ->
  exists fuel0, forall fuel, fuel0 <= fuel ->
    ends (fst (convert w fuel file output st)).
Proof.
  intros Hread Hall.
  set (ds := records_from 0 (fences md)).
  set (s2 := MkState (tempDir st) (shikiHighlighter st)
                     ((trace st ++ [EvReadFile file])
                        ++ [EvLog LInfo (js "Found mermaid diagrams in markdown")])).
  pose proof (render_each_ends w ds [] s2) as Hends.
  destruct (render_each w ds [] s2) as [[entries|e|] s3] eqn:Hr; [| |destruct Hends].
  - destruct (assembler_ends w md entries s3) as (fuel0 & Hasm).
    exists (Nat.max (S (length md)) fuel0). intros fuel Hfuel.
    unfold convert, do_readFile. unfold bind at 1. unfold bind at 1, emit at 1.
    rewrite Hread. unfold ret at 1.
    rewrite (@extract_returns md fuel Hall) by lia. fold ds.
    unfold bind at 1, log at 1, emit at 1. cbn [tempDir shikiHighlighter trace].
    fold s2. unfold bind at 1. rewrite Hr. unfold bind at 1.
    destruct (Hasm fuel) as [(doc & s4 & ->)|(msg & s4 & _ & ->)]; [lia| |exact I].
    unfold do_writeFile, log. unfold_monad. simpl.
    destruct (writeFile w _ doc); exact I.
  - exists (S (length md)). intros fuel Hfuel.
    unfold convert, do_readFile. unfold bind at 1. unfold bind at 1, emit at 1.
    rewrite Hread. unfold ret at 1.
    rewrite (@extract_returns md fuel Hall) by lia. fold ds.
    unfold bind at 1, log at 1, emit at 1. cbn [tempDir shikiHighlighter trace].
    fold s2. unfold bind at 1. rewrite Hr. exact I.
Qed.

Lemma convert_terminates_witness :
  exists fuel0, forall fuel, fuel0 <= fuel ->
    ends (fst (convert notes_world fuel (js "notes.md") None initial_state)).
Proof.
  apply (@convert_terminates notes_world (js "notes.md") scenario_md None initial_state).
  - reflexivity.
  - vm_compute. repeat constructor; discriminate.
Defined.

(** ** The earlier converter *)

(** X27: the earlier [convert] returns the path it wrote: the [outputFile]
    given, unless that is absent or the empty string, in which case the
    input path with a final [.md] (in any letter case) replaced by
    [.html]; the write of the document, which is the earlier shell
    around some body, and the final log line are the last two events. *)
Theorem legacy_convert_output_path (w : World) (fuel : nat) (markdownFile : jsstring)
        (outputFile : option jsstring) (st st' : State) (out : jsstring) :
  convert_legacy w fuel markdownFile outputFile st = (Returned out, st') ->
  out = output_path markdownFile (given_output outputFile)
  /\ exists tr body,
       trace st' = tr ++ [EvWriteFile out (wrapInHtmlDocument_legacy body);
                          EvLog LInfo (js "Successfully converted markdown to HTML")]
       /\ writeFile w out (wrapInHtmlDocument_legacy body) = true.
Proof.
  unfold convert_legacy. intros H.
  apply bind_Returned in H. destruct H as (content & st1 & _ & H).
  destruct (extractMermaidDiagrams_legacy fuel content) as [diagrams|]; [|discriminate].
  apply bind_Returned in H. destruct H as (_ & st2 & _ & H).
  apply bind_Returned in H. destruct H as (ir & st3 & _ & H).
  apply bind_Returned in H. destruct H as (document & st4 & Hdoc & H).
  apply bind_Returned in H. destruct H as ([] & st5 & Hw & H).
  apply bind_Returned in H. destruct H as ([] & st6 & Hl & H).
  unfold ret in H. inversion H as [[Ho Hs]]. clear H.
  rewrite Hs in Hl. clear Hs st6.
  assert (Hout : (if truthy outputFile
                  then match outputFile with Some o => o | None => [] end
                  else replace_regex false mdExtension markdownFile (js ".html"))
                 = output_path markdownFile (given_output outputFile)).
  { unfold given_output. destruct (truthy outputFile) eqn:Ht.
    - destruct outputFile; [reflexivity|discriminate].
    - apply replace_mdExtension. }
  rewrite Hout in *. clear Hout. split; [reflexivity|].
  assert (Hbody : exists body, document = wrapInHtmlDocument_legacy body).
  { unfold convertMarkdownToHtml_legacy in Hdoc.
    apply bind_Returned in Hdoc. destruct Hdoc as ([ph rs] & s & _ & Hdoc).
    unfold ret in Hdoc. inversion Hdoc. eexists. reflexivity. }
  destruct Hbody as (body & ->).
  unfold do_writeFile, bind, emit, ret, throw in Hw. simpl in Hw.
  destruct (writeFile w (output_path markdownFile (given_output outputFile))
                      (wrapInHtmlDocument_legacy body)) eqn:Ew; [|discriminate].
  inversion Hw; subst st5. unfold log, emit in Hl. inversion Hl; subst st'. simpl.
  exists (trace st4), body. split; [|exact Ew].
  now rewrite <- app_assoc.
Qed.

Lemma legacy_convert_output_path_witness :
  exists st',
    convert_legacy plain_world 10 (js "README.MD") (Some []) initial_state
    = (Returned (js "README.html"), st')
    /\ fst (convert plain_world 10 (js "README.MD") (Some []) initial_state)
       = Returned [].
Proof.
  destruct (convert_legacy plain_world 10 (js "README.MD") (Some []) initial_state)
    as [[out| |] st'] eqn:E; try (vm_compute in E; discriminate E).
  destruct (@legacy_convert_output_path plain_world 10 (js "README.MD") (Some [])
              initial_state st' out E) as (Hout & _).
  exists st'. split; [|vm_compute; reflexivity].
  rewrite Hout. reflexivity.
Defined.

(** X28: the earlier [convertMarkdownToHtml] always returns: it has no
    highlighter to fail, and an artifact that cannot be read gives a
    notice.  Its document is the earlier shell around the assembled
    body, and whenever [<pre><code] does not occur in that body the
    present [convertMarkdownToHtml] returns the same body in its own
    shell, with no styles, and leaves the same state. *)
Theorem legacy_assembler_same_body (w : World) (fuel : nat) (md : jsstring)
        (entries : ImageReplacements) (st : State) :
  length md < fuel ->
  exists st',
    convertMarkdownToHtml_legacy w fuel md entries st
    = (Returned (wrapInHtmlDocument_legacy (assembled_body w md entries)), st')
    /\ shikiHighlighter st' = shikiHighlighter st
    /\ (index_of (js "<pre><code") (assembled_body w md entries) = None ->
        convertMarkdownToHtml w fuel md entries st
        = (Returned (wrapInHtmlDocument (assembled_body w md entries) []), st')).
Proof.
  intros Hfuel.
  destruct (@replace_entries_spec w fuel md entries [] [] st Hfuel) as (s1 & H1 & Hlog).
  exists s1. split; [|split].
  - unfold convertMarkdownToHtml_legacy. unfold bind at 1. rewrite H1. reflexivity.
  - destruct Hlog as (_ & Hh & _). exact Hh.
  - intros Hno. rewrite (@convertMarkdownToHtml_finish w fuel md entries st _ _ s1 H1).
    unfold finish. unfold bind, highlightCodeBlocks.
    change (fold_left (fun acc kv => replace_first acc (fst kv) (snd kv))
              (fold_left (bind_entry w md) entries [])
              (micromark w (apply_replacements md ([] ++ replacements_of md entries))))
      with (assembled_body w md entries).
    rewrite (@collect_no_code_block _ fuel Hno) by lia. reflexivity.
Qed.

Lemma legacy_assembler_same_body_witness :
  exists st',
    convertMarkdownToHtml_legacy plain_world 100 scenario_md scenario_failed initial_state
    = (Returned (wrapInHtmlDocument_legacy
                   (js "<p># Title" ++ newline ++ newline ++ RENDERING_FAILED
                       ++ newline ++ js "</p>")), st')
    /\ convertMarkdownToHtml plain_world 100 scenario_md scenario_failed initial_state
       = (Returned (wrapInHtmlDocument
                      (js "<p># Title" ++ newline ++ newline ++ RENDERING_FAILED
                          ++ newline ++ js "</p>") []), st').
Proof.
  destruct (@legacy_assembler_same_body plain_world 100 scenario_md scenario_failed
              initial_state) as (st' & Hl & _ & Hs).
  - vm_compute. lia.
  - exists st'. split; [exact Hl|]. apply Hs. reflexivity.
Defined.

(** * Notices and placeholders in the engine's HTML *)

(** ** The highlighter leaves the failure notices where they are *)












(** *** The placeholders of the code blocks are apart from the notice *)













(** ** The substitution of the placeholders at their marks *)














Lemma token_nonempty id : token id <> [].
Proof. discriminate. Qed.







